(** * DingTalk stream monitor: deduplication engine, ingest handler and
      connection supervisor

    A shallow embedding of [extensions/dingtalk/src/monitor.ts].  The file
    holds the module twice; the two copies differ in how they log and in
    [SIGNATURE_TTL_MS] (100 s in the first, 70 s in the second).  The first
    copy is embedded; the sample events are chosen so that the traces
    given for them are the same under either constant.

    Conventions of the embedding:
    - a JavaScript string is a Rocq [string]; one [ascii] stands for one
      UTF-16 code unit, so the strings covered are those whose code units
      are below 256;
    - a JavaScript number used as a timestamp ([Date.now()]) or as a 32-bit
      hash is a [Z]; the 32-bit conversions are written out;
    - the module-level [Set] is a [gset string], the module-level [Map]s are
      association lists in insertion order with the update rules of a
      JavaScript [Map];
    - every [Date.now()] is an input of the function that reads it, and so
      is what the collaborators ([JSON.parse], [handleDingtalkMessage],
      [createDingtalkClientFromConfig], the client) do: return or throw;
    - a payload is either one on which [JSON.parse] throws or one of the
      declared type of the inbound record;
    - promises, clients, abort signals and closure environments are named
      by numbers, so that object identity can be stated;
    - calls of the logger have no effect on the modelled state, do not
      throw, and are left out. *)

From Stdlib Require Import ZArith Lia Ascii String HexString.
From stdpp Require Import base decidable option list strings gmap sets pretty.

#[local] Open Scope Z_scope.
#[local] Set Warnings "-clear-no-such-hyp".

(* ===================================================================== *)
(** ** JavaScript values used by the monitor *)
(* ===================================================================== *)

(** [ToInt32]: the signed 32-bit wrap-around applied by [<<] and [^]. *)
Definition toInt32 (z : Z) : Z := (z + 2 ^ 31) `mod` 2 ^ 32 - 2 ^ 31.

(** [x >>> 0]: the unsigned 32-bit reading. *)
Definition toUint32 (z : Z) : Z := z `mod` 2 ^ 32.

(** [input.charCodeAt(i)]. *)
Definition charCode (c : ascii) : Z := Z.of_N (N_of_ascii c).

(** [n.toString(16)] of a non-negative integer. *)
Definition toString16 (z : Z) : string :=
  match z with
  | Zpos p => HexString.Raw.of_pos p ""
  | _ => "0"
  end.

(** Truthiness of a string and of a number (no NaN among integers). *)
Definition truthy_string (s : string) : bool :=
  match s with "" => false | _ => true end.

Definition truthy_number (n : Z) : bool := negb (n =? 0).

(** [String.prototype.trim] on code units below 256: TAB, LF, VT, FF, CR,
    SPACE and NBSP are stripped from both ends. *)
Definition isWhiteSpace (c : ascii) : bool :=
  let n := N_of_ascii c in
  ((9 <=? n) && (n <=? 13) || (n =? 32) || (n =? 160))%N.

Fixpoint trimStart (s : string) : string :=
  match s with
  | String c rest => if isWhiteSpace c then trimStart rest else s
  | EmptyString => EmptyString
  end.

Definition trim (s : string) : string :=
  String.rev (trimStart (String.rev (trimStart s))).

(** [s.slice(0, n)]. *)
Definition slice0 (n : nat) (s : string) : string := String.substring 0 n s.

(* ===================================================================== *)
(** ** hashText *)
(* ===================================================================== *)

(** One turn of the loop: [hash = ((hash << 5) + hash) ^ input.charCodeAt(i)]. *)
Definition hashStep (hash : Z) (c : ascii) : Z :=
  Z.lxor (toInt32 (toInt32 (Z.shiftl (toInt32 hash) 5) + hash))
         (toInt32 (charCode c)).

Fixpoint hashLoop (hash : Z) (input : string) : Z :=
  match input with
  | EmptyString => hash
  | String c rest => hashLoop (hashStep hash c) rest
  end.

Definition hashText (input : string) : string :=
  toString16 (toUint32 (hashLoop 5381 input)).

(* ===================================================================== *)
(** ** A JavaScript [Map<string, V>]: entries in insertion order *)
(* ===================================================================== *)

Module JsMap.
Section ops.
Context {V : Type}.

(** [m.get(k)] *)
Fixpoint get (k : string) (m : list (string * V)) : option V :=
  match m with
  | [] => None
  | (k', v) :: rest => if decide (k' = k) then Some v else get k rest
  end.

(** [m.set(k, v)]: an existing key keeps its place, a new key goes last. *)
Fixpoint set (k : string) (v : V) (m : list (string * V)) : list (string * V) :=
  match m with
  | [] => [(k, v)]
  | (k', v') :: rest =>
      if decide (k' = k) then (k', v) :: rest else (k', v') :: set k v rest
  end.

(** [m.delete(k)] *)
Fixpoint delete (k : string) (m : list (string * V)) : list (string * V) :=
  match m with
  | [] => []
  | (k', v') :: rest =>
      if decide (k' = k) then rest else (k', v') :: delete k rest
  end.

(** [[...m.keys()]] *)
Definition keys (m : list (string * V)) : list string := m.*1.

(** [m.keys().next().value]: [None] stands for [undefined]. *)
Definition firstKey (m : list (string * V)) : option string := head (keys m).
End ops.
End JsMap.

(* ===================================================================== *)
(** ** Deduplication caches *)
(* ===================================================================== *)

Definition DEDUP_CACHE_MAX_SIZE : Z := 10000.
Definition DEDUP_CACHE_TTL : Z := 5 * 60 * 1000.
Definition SIGNATURE_TTL_MS : Z := 100 * 1000.

Record DedupState := mkDedup {
  processedMessageIds : gset string;
  processedMessageTimestamps : list (string * Z);
  recentSignatureTimestamps : list (string * Z)
}.

Definition emptyDedup : DedupState := mkDedup ∅ [] [].

(** [processedMessageIds.size] *)
Definition idsSize (s : DedupState) : Z := Z.of_nat (size (processedMessageIds s)).

(** Body of the loop of [cleanupDedupCache] for one visited entry. *)
Definition cleanupDedupStep (now : Z) (s : DedupState) (e : string * Z) : DedupState :=
  if bool_decide (now - e.2 > DEDUP_CACHE_TTL) then
    mkDedup (processedMessageIds s ∖ {[ e.1 ]})
            (JsMap.delete e.1 (processedMessageTimestamps s))
            (recentSignatureTimestamps s)
  else s.

(** [cleanupDedupCache]; [now] is its own [Date.now()].  The loop visits the
    entries present when it starts: the only entry it deletes is the one
    being visited, which a [Map] iterator allows. *)
Definition cleanupDedupCache (now : Z) (s : DedupState) : DedupState :=
  foldl (cleanupDedupStep now) s (processedMessageTimestamps s).

Definition cleanupSignatureStep (now : Z) (s : DedupState) (e : string * Z) : DedupState :=
  if bool_decide (now - e.2 > SIGNATURE_TTL_MS) then
    mkDedup (processedMessageIds s) (processedMessageTimestamps s)
            (JsMap.delete e.1 (recentSignatureTimestamps s))
  else s.

Definition cleanupSignatureCache (now : Z) (s : DedupState) : DedupState :=
  foldl (cleanupSignatureStep now) s (recentSignatureTimestamps s).

Definition isSignatureDuplicate (signature : string) (now : Z) (s : DedupState)
  : bool * DedupState :=
  let s1 := cleanupSignatureCache now s in
  let fresh :=
    match JsMap.get signature (recentSignatureTimestamps s1) with
    | Some lastSeen => truthy_number lastSeen && bool_decide (now - lastSeen < SIGNATURE_TTL_MS)
    | None => false
    end in
  if fresh then (true, s1)
  else (false, mkDedup (processedMessageIds s1) (processedMessageTimestamps s1)
                       (JsMap.set signature now (recentSignatureTimestamps s1))).

Definition isMessageProcessed (messageId : string) (s : DedupState) : bool :=
  bool_decide (messageId ∈ processedMessageIds s).

(** Removal of the oldest entry inside [markMessageProcessed]. *)
Definition evictOldest (s : DedupState) : DedupState :=
  match JsMap.firstKey (processedMessageTimestamps s) with
  | Some oldestId =>
      if truthy_string oldestId then
        mkDedup (processedMessageIds s ∖ {[ oldestId ]})
                (JsMap.delete oldestId (processedMessageTimestamps s))
                (recentSignatureTimestamps s)
      else s
  | None => s
  end.

(** [markMessageProcessed]; [tSweep] is the [Date.now()] of the inner
    [cleanupDedupCache], [tSet] the one stored with the key. *)
Definition markMessageProcessed (messageId : string) (tSweep tSet : Z) (s : DedupState)
  : DedupState :=
  let s1 :=
    if bool_decide (idsSize s >= DEDUP_CACHE_MAX_SIZE) then
      let s2 := cleanupDedupCache tSweep s in
      if bool_decide (idsSize s2 >= DEDUP_CACHE_MAX_SIZE) then evictOldest s2 else s2
    else s in
  mkDedup ({[ messageId ]} ∪ processedMessageIds s1)
          (JsMap.set messageId tSet (processedMessageTimestamps s1))
          (recentSignatureTimestamps s1).

(** [touchDedupCache]; [tSweep] is the [Date.now()] of [cleanupDedupCache]. *)
Definition touchDedupCache (now tSweep : Z) (s : DedupState) : DedupState :=
  let s1 := if bool_decide (idsSize s > 0) then cleanupDedupCache tSweep s else s in
  cleanupSignatureCache now s1.

(** [clearDedupCache] *)
Definition clearDedupCache (s : DedupState) : DedupState := emptyDedup.

(* ===================================================================== *)
(** ** Ingest handler: the TOPIC_ROBOT callback *)
(* ===================================================================== *)

(** [DingtalkConfig], the output type of the schema of [config.ts]. *)
Inductive ConnectionMode := ModeStream | ModeWebhook.
Inductive DmPolicy := DmOpen | DmPairing | DmAllowlist.
Inductive GroupPolicy := GroupOpen | GroupAllowlist | GroupDisabled.

Record DingtalkConfig := mkConfig {
  enabled : option bool;
  clientId : option string;
  clientSecret : option string;
  connectionMode : ConnectionMode;
  dmPolicy : DmPolicy;
  groupPolicy : GroupPolicy;
  requireMention : bool;
  allowFrom : option (list string);
  groupAllowFrom : option (list string)
}.

(** [opts.config]: [{ channels?: { dingtalk?: DingtalkConfig } }]. *)
Record Channels := mkChannels { dingtalk : option DingtalkConfig }.
Record MonitorConfig := mkMonitorConfig { channels : option Channels }.

(** Modelled from the spec: the declaration of [DingtalkRawMessage], which
    [monitor.ts] imports from [types.js] and [types.ts] does not contain.
    The fields are those of the inbound event shape of the spec (section 6)
    under the names by which the callback reads them; [text] holds
    [text.content] and [content] holds [content.recognition]. *)
Record DingtalkRawMessage := mkRaw {
  msgtype : string;
  text : option string;
  content : option (option string);
  senderId : string;
  senderNick : option string;
  conversationId : string;
  atUsers : option (list string);
  robotCode : option string;
  streamMessageId : option string
}.

(** What [JSON.parse(res.data)] makes of the payload. *)
Inductive Payload :=
  | Malformed                      (* JSON.parse throws *)
  | Parsed (raw : DingtalkRawMessage).

(** The argument [res] of the callback; [headersMessageId] is
    [res?.headers?.messageId]. *)
Record StreamMessage := mkRes {
  data : Payload;
  headersMessageId : option string
}.

(** The acknowledgment values of the transport SDK ([EventAck] of
    [dingtalk-stream]). *)
Inductive EventAck := SUCCESS | LATER.

(** The argument record of [handleDingtalkMessage] (without the two logging
    callbacks). *)
Record DispatchArgs := mkDispatch {
  dispatchCfg : option MonitorConfig;
  dispatchRaw : DingtalkRawMessage;
  dispatchAccountId : string
}.

(** Everything one run of the callback reads from outside: its four
    [Date.now()] readings, in program order, and whether the call of
    [handleDingtalkMessage] throws before it returns its promise. *)
Record CallbackEnv := mkEnv {
  tNow : Z;          (* const now = Date.now() *)
  tTouch : Z;        (* cleanupDedupCache inside touchDedupCache *)
  tMarkSweep : Z;    (* cleanupDedupCache inside markMessageProcessed *)
  tMark : Z;         (* the timestamp stored by markMessageProcessed *)
  dispatchThrows : bool
}.

(** [(msgtype === "text" ? text?.content : undefined) ?? content?.recognition ?? ""] *)
Definition messageContent (raw : DingtalkRawMessage) : string :=
  match (if decide (msgtype raw = "text") then text raw else None) with
  | Some c => c
  | None => match content raw with
            | Some (Some r) => r
            | _ => ""
            end
  end.

Definition contentHashOf (raw : DingtalkRawMessage) : string :=
  hashText (msgtype raw +:+ ":" +:+ trim (messageContent raw)).

(** The dedupe key: the stream message id when it is truthy, else the
    fallback made of conversation, sender and text prefix. *)
Definition dedupeIdOf (accountId : string) (raw : DingtalkRawMessage) : string :=
  let fallback :=
    accountId +:+ ":" +:+ conversationId raw +:+ "_" +:+ senderId raw +:+ "_" +:+
    (match text raw with
     | Some c => slice0 50 c
     | None => msgtype raw
     end) in
  match streamMessageId raw with
  | Some sid => if truthy_string sid then accountId +:+ ":" +:+ sid else fallback
  | None => fallback
  end.

Definition signatureOf (accountId : string) (raw : DingtalkRawMessage) : string :=
  accountId +:+ ":" +:+ conversationId raw +:+ ":" +:+ senderId raw +:+ ":" +:+
  contentHashOf raw.

(** [if (res?.headers?.messageId) rawMessage.streamMessageId = ...] *)
Definition withStreamId (hdr : option string) (raw : DingtalkRawMessage)
  : DingtalkRawMessage :=
  match hdr with
  | Some m =>
      if truthy_string m then
        mkRaw (msgtype raw) (text raw) (content raw) (senderId raw) (senderNick raw)
              (conversationId raw) (atUsers raw) (robotCode raw) (Some m)
      else raw
  | None => raw
  end.

(** What one run of the callback leaves behind. *)
Record CallbackResult := mkResult {
  stateAfter : DedupState;
  dispatched : list DispatchArgs;   (* calls of handleDingtalkMessage *)
  returned : EventAck
}.

Inductive Thrown := SyntaxError | HandlerError.

(** The [try] block of the callback: the caches after it, the calls of the
    processor it made, and either the exception it raised or the value it
    returned. *)
Definition callbackTry (accountId : string) (config : option MonitorConfig)
    (res : StreamMessage) (env : CallbackEnv) (s : DedupState)
  : DedupState * list DispatchArgs * (Thrown + EventAck) :=
  match data res with
  | Malformed => (s, [], inl SyntaxError)
  | Parsed parsed =>
      let rawMessage := withStreamId (headersMessageId res) parsed in
      let now := tNow env in
      let s1 := touchDedupCache now (tTouch env) s in
      let dedupeId := dedupeIdOf accountId rawMessage in
      if isMessageProcessed dedupeId s1 then (s1, [], inr SUCCESS)
      else
        let signature := signatureOf accountId rawMessage in
        let '(dup, s2) := isSignatureDuplicate signature now s1 in
        if dup then (s2, [], inr SUCCESS)
        else
          let s3 := markMessageProcessed dedupeId (tMarkSweep env) (tMark env) s2 in
          let args := mkDispatch config rawMessage accountId in
          if dispatchThrows env then (s3, [args], inl HandlerError)
          else (s3, [args], inr SUCCESS)
  end.

(** The callback registered for TOPIC_ROBOT: the [try] block and its
    [catch], which logs and returns [EventAck.SUCCESS]. *)
Definition onRobotMessage (accountId : string) (config : option MonitorConfig)
    (res : StreamMessage) (env : CallbackEnv) (s : DedupState) : CallbackResult :=
  match callbackTry accountId config res env s with
  | (s', calls, inr ack) => mkResult s' calls ack
  | (s', calls, inl _) => mkResult s' calls SUCCESS
  end.


(* ===================================================================== *)
(** ** Connection supervisor: module state, promises and abort signals *)
(* ===================================================================== *)

(** Objects are named by numbers: the [n]-th [DWClient] built by
    [createDingtalkClientFromConfig], the [n]-th promise allocated, the
    [n]-th run of the executor of [new Promise] (its closure environment,
    a session), and the abort signals handed in by the callers. *)

Inductive MonitorError :=
  | ErrAlreadyRunning (running : string)  (* DingTalk already running for account ... *)
  | ErrStateInvalid                       (* active client without promise *)
  | ErrConfigNotFound                     (* DingTalk configuration not found *)
  | ErrCreateClient                       (* thrown by createDingtalkClientFromConfig *)
  | ErrTransport.                         (* thrown by registerCallbackListener or connect *)

(** A promise is pending, settled, or resolved with another promise whose
    outcome it takes over. *)
Inductive PromiseState :=
  | Pending
  | Fulfilled
  | Rejected (err : MonitorError)
  | Follows (inner : nat).

(** The variables captured by the closures of one executor run. *)
Record Session := mkSession {
  sClient : nat;             (* client *)
  sStopped : bool;           (* let stopped *)
  sSignal : option nat;      (* abortSignal *)
  sPromise : nat             (* the promise whose resolve and reject it holds *)
}.

(** Calls made on the collaborators and on the settle functions. *)
Inductive Effect :=
  | CreateClient (client : nat) (cfg : DingtalkConfig)
  | RegisterCallback (client : nat) (accountId : string)
  | Connect (client : nat)
  | Disconnect (client : nat)
  | CallResolve (promise : nat)
  | CallReject (promise : nat) (err : MonitorError).

Record World := mkWorld {
  currentClient : option nat;
  currentAccountId : option string;
  currentPromise : option nat;
  currentStop : option nat;              (* the stop hook of a session *)
  sessions : list Session;
  promises : list PromiseState;
  clients : nat;                         (* clients built so far *)
  aborted : gset nat;                    (* signals whose [aborted] is true *)
  listeners : list (nat * nat);          (* (signal, session): its handleAbort is registered *)
  effects : list Effect
}.

Definition initWorld : World := mkWorld None None None None [] [] 0 ∅ [] [].

(** [opts] of [monitorDingtalkProvider], without [runtime]. *)
Record MonitorDingtalkOpts := mkOpts {
  config : option MonitorConfig;
  abortSignal : option nat;
  accountId : option string
}.

(** What the collaborators do during one call of [monitorDingtalkProvider]. *)
Record StartEnv := mkStartEnv {
  createThrows : bool;       (* createDingtalkClientFromConfig throws *)
  registerThrows : bool;     (* client.registerCallbackListener throws *)
  connectThrows : bool       (* client.connect throws *)
}.

Definition setCurrent (c : option nat) (a : option string) (p : option nat)
    (st : option nat) (w : World) : World :=
  mkWorld c a p st (sessions w) (promises w) (clients w) (aborted w) (listeners w)
          (effects w).

Definition setCurrentPromise (p : option nat) (w : World) : World :=
  setCurrent (currentClient w) (currentAccountId w) p (currentStop w) w.

Definition setCurrentStop (st : option nat) (w : World) : World :=
  setCurrent (currentClient w) (currentAccountId w) (currentPromise w) st w.

Definition setSessions (ss : list Session) (w : World) : World :=
  mkWorld (currentClient w) (currentAccountId w) (currentPromise w) (currentStop w)
          ss (promises w) (clients w) (aborted w) (listeners w) (effects w).

Definition setPromises (ps : list PromiseState) (w : World) : World :=
  mkWorld (currentClient w) (currentAccountId w) (currentPromise w) (currentStop w)
          (sessions w) ps (clients w) (aborted w) (listeners w) (effects w).

Definition setClients (n : nat) (w : World) : World :=
  mkWorld (currentClient w) (currentAccountId w) (currentPromise w) (currentStop w)
          (sessions w) (promises w) n (aborted w) (listeners w) (effects w).

Definition setAborted (a : gset nat) (w : World) : World :=
  mkWorld (currentClient w) (currentAccountId w) (currentPromise w) (currentStop w)
          (sessions w) (promises w) (clients w) a (listeners w) (effects w).

Definition setListeners (l : list (nat * nat)) (w : World) : World :=
  mkWorld (currentClient w) (currentAccountId w) (currentPromise w) (currentStop w)
          (sessions w) (promises w) (clients w) (aborted w) l (effects w).

Definition emit (e : Effect) (w : World) : World :=
  mkWorld (currentClient w) (currentAccountId w) (currentPromise w) (currentStop w)
          (sessions w) (promises w) (clients w) (aborted w) (listeners w)
          (effects w ++ [e]).

(** [resolve()] and [reject(err)] of a promise: only a pending promise
    changes state. *)
Definition settle (p : nat) (st : PromiseState) (w : World) : World :=
  match promises w !! p with
  | Some Pending => setPromises (<[p := st]> (promises w)) w
  | _ => w
  end.

(** [abortSignal?.removeEventListener("abort", handleAbort)] *)
Definition removeListener (sig : option nat) (sid : nat) (w : World) : World :=
  match sig with
  | Some g => setListeners (filter (λ l, l ≠ (g, sid)) (listeners w)) w
  | None => w
  end.

(** [abortSignal?.addEventListener("abort", handleAbort, { once: true })] *)
Definition addListener (sig : option nat) (sid : nat) (w : World) : World :=
  match sig with
  | Some g =>
      if decide ((g, sid) ∈ listeners w) then w
      else setListeners (listeners w ++ [(g, sid)]) w
  | None => w
  end.

(** [cleanup]: the module variables are cleared only if they still belong
    to this session's client; [client.disconnect()] is called in any case,
    and what it throws is caught and logged. *)
Definition cleanup (ss : Session) (w : World) : World :=
  let w1 := if decide (currentClient w = Some (sClient ss))
            then setCurrent None None None None w else w in
  emit (Disconnect (sClient ss)) w1.

Definition markStopped (sid : nat) (ss : Session) (w : World) : World :=
  setSessions (<[sid := mkSession (sClient ss) true (sSignal ss) (sPromise ss)]> (sessions w)) w.

Definition finalizeResolve (sid : nat) (w : World) : World :=
  match sessions w !! sid with
  | Some ss =>
      if sStopped ss then w
      else
        let w1 := markStopped sid ss w in
        let w2 := removeListener (sSignal ss) sid w1 in
        let w3 := cleanup ss w2 in
        settle (sPromise ss) Fulfilled (emit (CallResolve (sPromise ss)) w3)
  | None => w
  end.

Definition finalizeReject (sid : nat) (err : MonitorError) (w : World) : World :=
  match sessions w !! sid with
  | Some ss =>
      if sStopped ss then w
      else
        let w1 := markStopped sid ss w in
        let w2 := removeListener (sSignal ss) sid w1 in
        let w3 := cleanup ss w2 in
        settle (sPromise ss) (Rejected err) (emit (CallReject (sPromise ss) err) w3)
  | None => w
  end.

(** [handleAbort] and the stop hook stored in [currentStop]; both log and
    call [finalizeResolve]. *)
Definition handleAbort (sid : nat) (w : World) : World := finalizeResolve sid w.
Definition stopHook (sid : nat) (w : World) : World := finalizeResolve sid w.

(** [abortSignal?.aborted] *)
Definition signalAborted (sig : option nat) (w : World) : bool :=
  match sig with
  | Some g => bool_decide (g ∈ aborted w)
  | None => false
  end.

(** The executor passed to [new Promise], run for promise [p]. *)
Definition executor (client : nat) (acct : string) (sig : option nat)
    (env : StartEnv) (p : nat) (w : World) : World :=
  let sid := length (sessions w) in
  let w1 := setSessions (sessions w ++ [mkSession client false sig p]) w in
  let w2 := setCurrentStop (Some sid) w1 in
  if signalAborted sig w2 then finalizeResolve sid w2
  else
    let w3 := addListener sig sid w2 in
    if registerThrows env then finalizeReject sid ErrTransport w3
    else
      let w4 := emit (RegisterCallback client acct) w3 in
      let w5 := emit (Connect client) w4 in
      if connectThrows env then finalizeReject sid ErrTransport w5
      else w5.

(** [opts.accountId] with its default. *)
Definition accountIdOf (opts : MonitorDingtalkOpts) : string :=
  default "default" (accountId opts).

(** [config?.channels?.dingtalk] *)
Definition dingtalkCfgOf (opts : MonitorDingtalkOpts) : option DingtalkConfig :=
  cfg ← config opts; ch ← channels cfg; dingtalk ch.

(** The body of [monitorDingtalkProvider]: the world it leaves, and the
    error it throws or the promise it returns. *)
Definition monitorBody (opts : MonitorDingtalkOpts) (env : StartEnv) (w : World)
  : World * (MonitorError + nat) :=
  let acct := accountIdOf opts in
  match currentClient w with
  | Some _ =>
      let conflict :=
        match currentAccountId w with
        | Some cur => truthy_string cur && negb (bool_decide (cur = acct))
        | None => false
        end in
      if conflict then (w, inl (ErrAlreadyRunning (default "" (currentAccountId w))))
      else match currentPromise w with
           | Some p => (w, inr p)
           | None => (w, inl ErrStateInvalid)
           end
  | None =>
      match dingtalkCfgOf opts with
      | None => (w, inl ErrConfigNotFound)
      | Some dingtalkCfg =>
          if createThrows env then (w, inl ErrCreateClient)
          else
            let client := clients w in
            let w1 := emit (CreateClient client dingtalkCfg) (setClients (S client) w) in
            let w2 := setCurrent (Some client) (Some acct) (currentPromise w1)
                                 (currentStop w1) w1 in
            let p := length (promises w2) in
            let w3 := setPromises (promises w2 ++ [Pending]) w2 in
            let w4 := executor client acct (abortSignal opts) env p w3 in
            let w5 := setCurrentPromise (Some p) w4 in
            (w5, inr p)
      end
  end.

(** [monitorDingtalkProvider] is an [async function]: each call allocates
    the promise it hands to its caller; a [throw] of the body rejects that
    promise and a [return] of a promise resolves it with that promise. *)
Definition monitorDingtalkProvider (opts : MonitorDingtalkOpts) (env : StartEnv)
    (w : World) : World * nat :=
  let result := length (promises w) in
  let w0 := setPromises (promises w ++ [Pending]) w in
  match monitorBody opts env w0 with
  | (w1, inl err) => (setPromises (<[result := Rejected err]> (promises w1)) w1, result)
  | (w1, inr p) => (setPromises (<[result := Follows p]> (promises w1)) w1, result)
  end.

(** [stopDingtalkMonitor] *)
Definition stopDingtalkMonitor (w : World) : World :=
  match currentStop w with
  | Some sid => stopHook sid w
  | None =>
      match currentClient w with
      | Some c => setCurrent None None None None (emit (Disconnect c) w)
      | None => w
      end
  end.

Definition isMonitorActive (w : World) : bool :=
  match currentClient w with Some _ => true | None => false end.

Definition getCurrentAccountId (w : World) : option string := currentAccountId w.

(** The caller aborts signal [g]: nothing if it is aborted already;
    otherwise the flag is set and the listeners registered at that moment
    are run in order, each one removed before it runs (it was added with
    [once]) and skipped if it has been removed in the meantime. *)
Definition runListener (g : nat) (w : World) (sid : nat) : World :=
  if decide ((g, sid) ∈ listeners w)
  then handleAbort sid (removeListener (Some g) sid w)
  else w.

Definition fireAbort (g : nat) (w : World) : World :=
  if decide (g ∈ aborted w) then w
  else
    let w1 := setAborted ({[ g ]} ∪ aborted w) w in
    foldl (runListener g) w1 ((filter (λ l, l.1 = g) (listeners w)).*2).

(** The outcome a promise has, followed through [Follows]. *)
Fixpoint outcome (fuel : nat) (w : World) (p : nat) : option PromiseState :=
  match promises w !! p with
  | Some (Follows q) =>
      match fuel with
      | O => None
      | S fuel' => outcome fuel' w q
      end
  | other => other
  end.

(** Number of calls of [resolve] and of [reject] of promise [p]. *)
Definition isResolveOf (p : nat) (e : Effect) : bool :=
  match e with
  | CallResolve q => bool_decide (q = p)
  | _ => false
  end.

Definition isRejectOf (p : nat) (e : Effect) : bool :=
  match e with
  | CallReject q _ => bool_decide (q = p)
  | _ => false
  end.

Definition resolveCalls (p : nat) (w : World) : nat :=
  length (filter (λ e, isResolveOf p e = true) (effects w)).

Definition rejectCalls (p : nat) (w : World) : nat :=
  length (filter (λ e, isRejectOf p e = true) (effects w)).
(* ===================================================================== *)
(** ** Predicates and auxiliary definitions of the specification *)
(* ===================================================================== *)

(** The shape of the two cleanup loops: visit the entries of [m] and
    delete, from the map being built, the key of each entry that
    satisfies [P]. *)
Definition sweepStep {V : Type} (P : string * V → Prop) `{!∀ e, Decision (P e)}
    (acc : list (string * V)) (e : string * V) : list (string * V) :=
  if decide (P e) then JsMap.delete e.1 acc else acc.

Definition identityExpired (now : Z) (e : string * Z) : Prop :=
  now - e.2 > DEDUP_CACHE_TTL.

Definition signatureExpired (now : Z) (e : string * Z) : Prop :=
  now - e.2 > SIGNATURE_TTL_MS.

#[local] Instance identityExpired_dec now e : Decision (identityExpired now e).
Proof. unfold identityExpired. apply _. Defined.

#[local] Instance signatureExpired_dec now e : Decision (signatureExpired now e).
Proof. unfold signatureExpired. apply _. Defined.

(** Structural invariant of the caches: each [Map] holds a key once, and the
    [Set] of identity keys is the key set of the identity [Map]. *)
Record dedup_wf (s : DedupState) : Prop := mkWf {
  wf_ts_nodup : NoDup (JsMap.keys (processedMessageTimestamps s));
  wf_ids : processedMessageIds s = list_to_set (JsMap.keys (processedMessageTimestamps s));
  wf_sig_nodup : NoDup (JsMap.keys (recentSignatureTimestamps s))
}.

(** All keys of the identity cache are non-empty strings, so the test
    [if (oldestId)] of the eviction never fails on a cached key. *)
Definition keysNonEmpty (s : DedupState) : Prop :=
  Forall (λ k, k ≠ "") (JsMap.keys (processedMessageTimestamps s)).

Record dedup_inv (s : DedupState) : Prop := mkInv {
  inv_wf : dedup_wf s;
  inv_keys : keysNonEmpty s;
  inv_size : idsSize s <= DEDUP_CACHE_MAX_SIZE
}.

(** The state in which [markMessageProcessed] inserts its key: the caches
    after the optional purge and the optional eviction. *)
Definition roomFor (tSweep : Z) (s : DedupState) : DedupState :=
  if bool_decide (idsSize s >= DEDUP_CACHE_MAX_SIZE) then
    let s2 := cleanupDedupCache tSweep s in
    if bool_decide (idsSize s2 >= DEDUP_CACHE_MAX_SIZE) then evictOldest s2 else s2
  else s.

(** One invocation of the callback by the transport: the account and the
    configuration its closure captured, the event, and what it reads from
    outside. *)
Record Delivery := mkDelivery {
  dAccountId : string;
  dConfig : option MonitorConfig;
  dRes : StreamMessage;
  dEnv : CallbackEnv
}.

Definition deliver (d : Delivery) (s : DedupState) : CallbackResult :=
  onRobotMessage (dAccountId d) (dConfig d) (dRes d) (dEnv d) s.

Definition deliverAll (ds : list Delivery) (s : DedupState) : DedupState :=
  foldl (λ acc d, stateAfter (deliver d acc)) s ds.

(** The inbound record the callback works on, when the payload parses. *)
Definition rawOf (d : Delivery) : option DingtalkRawMessage :=
  match data (dRes d) with
  | Parsed raw => Some (withStreamId (headersMessageId (dRes d)) raw)
  | Malformed => None
  end.

Definition identityKey (d : Delivery) : option string :=
  dedupeIdOf (dAccountId d) <$> rawOf d.

Definition signatureKey (d : Delivery) : option string :=
  signatureOf (dAccountId d) <$> rawOf d.

(** The cache states the module can be in: the initial one, and whatever
    the callback and [clearDedupCache] make of a reachable one. *)
Inductive reachable : DedupState → Prop :=
  | reach_init : reachable emptyDedup
  | reach_deliver d s : reachable s → reachable (stateAfter (deliver d s))
  | reach_clear s : reachable s → reachable (clearDedupCache s).

(** The event passes the identity check of the callback, i.e. it reaches
    the content-signature check. *)
Definition reachesSignatureCheck (d : Delivery) (s : DedupState) : Prop :=
  ∃ k, identityKey d = Some k ∧
       isMessageProcessed k (touchDedupCache (tNow (dEnv d)) (tTouch (dEnv d)) s) = false.

(** The pair property of the identity cache read on keys and times alone,
    with the first event dispatched, so that it has an entry: whatever is
    delivered in between (no later than the second), a second event with
    the same identity key whose sweep runs no more than [DEDUP_CACHE_TTL]
    after the first was marked is dropped. *)
Definition identityWindowFromFirst : Prop :=
  ∀ s d1 mids d2 k,
    reachable s →
    identityKey d1 = Some k → identityKey d2 = Some k →
    dispatched (deliver d1 s) ≠ [] →
    Forall (λ d, tTouch (dEnv d) <= tTouch (dEnv d2)
                 ∧ tMarkSweep (dEnv d) <= tTouch (dEnv d2)) mids →
    tTouch (dEnv d2) - tMark (dEnv d1) <= DEDUP_CACHE_TTL →
    let r2 := deliver d2 (deliverAll mids (stateAfter (deliver d1 s))) in
    dispatched r2 = [] ∧ returned r2 = SUCCESS.

(** Same account, conversation, sender, message type and trimmed content. *)
Definition sameContent (d1 d2 : Delivery) : Prop :=
  ∃ raw1 raw2, rawOf d1 = Some raw1 ∧ rawOf d2 = Some raw2 ∧
    dAccountId d1 = dAccountId d2 ∧
    conversationId raw1 = conversationId raw2 ∧
    senderId raw1 = senderId raw2 ∧
    msgtype raw1 = msgtype raw2 ∧
    trim (messageContent raw1) = trim (messageContent raw2).

Definition differentTransportIds (d1 d2 : Delivery) : Prop :=
  ∃ raw1 raw2 id1 id2, rawOf d1 = Some raw1 ∧ rawOf d2 = Some raw2 ∧
    streamMessageId raw1 = Some id1 ∧ streamMessageId raw2 = Some id2 ∧ id1 ≠ id2.

(** The pair property of the signature cache read on arrival times alone:
    whatever happened to the first event, a second one with the same
    content that arrives less than [SIGNATURE_TTL_MS] later is dropped. *)
Definition signatureWindowFromAnyFirst : Prop :=
  ∀ s d1 d2,
    reachable s → sameContent d1 d2 → differentTransportIds d1 d2 →
    0 < tNow (dEnv d1) → tNow (dEnv d1) <= tNow (dEnv d2) →
    tNow (dEnv d2) - tNow (dEnv d1) < SIGNATURE_TTL_MS →
    let r2 := deliver d2 (stateAfter (deliver d1 s)) in
    dispatched r2 = [] ∧ returned r2 = SUCCESS.

(** The signature timestamp is set to the current time by every event that
    reaches the signature check. *)
Definition signatureAlwaysRefreshed : Prop :=
  ∀ s d sig,
    reachable s → reachesSignatureCheck d s → signatureKey d = Some sig →
    JsMap.get sig (recentSignatureTimestamps (stateAfter (deliver d s)))
    = Some (tNow (dEnv d)).

(* --------------------------------------------------------------------- *)
(** *** Supervisor *)
(* --------------------------------------------------------------------- *)

(** What can happen to a running monitor other than a new start: the
    exported stop, a caller aborting a signal, and the abort listener or
    the stop hook of some session being run once more. *)
Inductive Op :=
  | OpStop
  | OpAbort (g : nat)
  | OpListenerAgain (sid : nat)
  | OpStopHookAgain (sid : nat).

Definition runOp (o : Op) (w : World) : World :=
  match o with
  | OpStop => stopDingtalkMonitor w
  | OpAbort g => fireAbort g w
  | OpListenerAgain sid => handleAbort sid w
  | OpStopHookAgain sid => stopHook sid w
  end.

Definition runOps (ops : list Op) (w : World) : World :=
  foldl (λ acc o, runOp o acc) w ops.

(** The worlds the module can be in. *)
Inductive reachableWorld : World → Prop :=
  | rw_init : reachableWorld initWorld
  | rw_start opts env w :
      reachableWorld w → reachableWorld (monitorDingtalkProvider opts env w).1
  | rw_op o w : reachableWorld w → reachableWorld (runOp o w).

(** Names in use are below the allocation counters. *)
Definition effectInRange (w : World) (e : Effect) : Prop :=
  match e with
  | CallResolve q | CallReject q _ => (q < length (promises w))%nat
  | _ => True
  end.

Record world_ok (w : World) : Prop := mkWorldOk {
  ok_sessions :
    Forall (λ ss, (sPromise ss < length (promises w))%nat ∧ (sClient ss < clients w)%nat)
           (sessions w);
  ok_effects : Forall (effectInRange w) (effects w)
}.

(** The session [sid] (client [c], promise [p], abort signal [sig], account
    [acct]) started by a call whose own promise is [out]: still running
    when [fin] is false, finalized by exactly one call of [resolve] when
    [fin] is true. *)
Record watched (sid c p out : nat) (sig : option nat) (acct : string) (fin : bool)
    (w : World) : Prop := mkWatched {
  wa_session : sessions w !! sid = Some (mkSession c fin sig p);
  wa_client : currentClient w = (if fin then None else Some c);
  wa_account : currentAccountId w = (if fin then None else Some acct);
  wa_current : currentPromise w = (if fin then None else Some p);
  wa_stop : currentStop w = (if fin then None else Some sid);
  wa_promise : promises w !! p = Some (if fin then Fulfilled else Pending);
  wa_outer : promises w !! out = Some (Follows p);
  wa_resolve : resolveCalls p w = (if fin then 1 else 0)%nat;
  wa_reject : rejectCalls p w = 0%nat;
  wa_others : ∀ sid' ss, sid' ≠ sid → sessions w !! sid' = Some ss →
                sPromise ss ≠ p ∧ sClient ss ≠ c
}.

(** The invariant carried through the listeners of an abort: the session
    is watched and, while it runs, its abort listener (if it has an abort
    signal) is registered. *)
Definition tracked (sid c p out : nat) (sig : option nat) (acct : string) (fin : bool)
    (w : World) : Prop :=
  watched sid c p out sig acct fin w ∧
  (fin = false → ∀ g, sig = Some g → (g, sid) ∈ listeners w).

(** The invariant carried through stops and aborts: moreover, while the
    session runs, its signal has not been aborted. *)
Definition supervised (sid c p out : nat) (sig : option nat) (acct : string) (fin : bool)
    (w : World) : Prop :=
  tracked sid c p out sig acct fin w ∧
  (fin = false → ∀ g, sig = Some g → g ∉ aborted w).

(** A second start for the account of the running session returns the
    very promise object the first start returned. *)
Definition joinReturnsSameObject : Prop :=
  ∀ w opts1 env1 ops opts2 env2,
    reachableWorld w → isMonitorActive w = false →
    let r1 := monitorDingtalkProvider opts1 env1 w in
    isMonitorActive r1.1 = true →
    let w2 := runOps ops r1.1 in
    isMonitorActive w2 = true →
    accountIdOf opts2 = accountIdOf opts1 →
    let r2 := monitorDingtalkProvider opts2 env2 w2 in
    r2.2 = r1.2.

(** Every start without a DingTalk configuration fails with the
    configuration error. *)
Definition missingConfigAlwaysFails : Prop :=
  ∀ w opts env,
    reachableWorld w → dingtalkCfgOf opts = None →
    let r := monitorDingtalkProvider opts env w in
    promises r.1 !! r.2 = Some (Rejected ErrConfigNotFound).

(** The abort of the signal given to any start that succeeded (the
    monitor is active and the promise of the call is not rejected) resolves
    that promise and leaves the monitor inactive. *)
Definition abortAfterAnyStartResolves : Prop :=
  ∀ w opts env g ops,
    reachableWorld w → abortSignal opts = Some g →
    let r := monitorDingtalkProvider opts env w in
    isMonitorActive r.1 = true →
    outcome 1 r.1 r.2 = Some Pending →
    OpAbort g ∈ ops →
    let w' := runOps ops r.1 in
    outcome 1 w' r.2 = Some Fulfilled ∧ isMonitorActive w' = false.

(** The world left by a start that finds no session and leaves one active. *)
Definition startedWorld (opts : MonitorDingtalkOpts) (cfg : DingtalkConfig) (w : World)
  : World :=
  let c := clients w in
  let sid := length (sessions w) in
  let p := S (length (promises w)) in
  let acct := accountIdOf opts in
  mkWorld (Some c) (Some acct) (Some p) (Some sid)
          (sessions w ++ [mkSession c false (abortSignal opts) p])
          (promises w ++ [Follows p; Pending])
          (S c) (aborted w)
          (listeners (addListener (abortSignal opts) sid w))
          (effects w ++ [CreateClient c cfg; RegisterCallback c acct; Connect c]).

(** The common part of [finalizeResolve] and [finalizeReject] in closed
    form, for a session that is not stopped yet. *)
Definition finalized (sid : nat) (ss : Session) (st : PromiseState) (e : Effect)
    (w : World) : World :=
  let mine := bool_decide (currentClient w = Some (sClient ss)) in
  mkWorld (if mine then None else currentClient w)
          (if mine then None else currentAccountId w)
          (if mine then None else currentPromise w)
          (if mine then None else currentStop w)
          (<[sid := mkSession (sClient ss) true (sSignal ss) (sPromise ss)]> (sessions w))
          (match promises w !! sPromise ss with
           | Some Pending => <[sPromise ss := st]> (promises w)
           | _ => promises w
           end)
          (clients w) (aborted w)
          (match sSignal ss with
           | Some g => filter (λ l, l ≠ (g, sid)) (listeners w)
           | None => listeners w
           end)
          (effects w ++ [Disconnect (sClient ss); e]).

(** Sample inputs. *)
Definition sampleDingtalkConfig : DingtalkConfig :=
  mkConfig (Some true) (Some "app-key") (Some "app-secret")
           ModeStream DmPairing GroupAllowlist true None None.

Definition sampleConfig : option MonitorConfig :=
  Some (mkMonitorConfig (Some (mkChannels (Some sampleDingtalkConfig)))).

Definition collaboratorsOk : StartEnv := mkStartEnv false false false.

Definition startOpts (acct : string) (sig : option nat) : MonitorDingtalkOpts :=
  mkOpts sampleConfig sig (Some acct).

(* ===================================================================== *)
(** ** Sample deliveries *)
(* ===================================================================== *)

(** A text event of account ["default"] with stream message id [sid], all
    of whose clock readings are [t]. *)
Definition textEvent (sid txt conv sender : string) (t : Z) : Delivery :=
  mkDelivery "default" None
    (mkRes (Parsed (mkRaw "text" (Some txt) None sender None conv None None None))
           (Some sid))
    (mkEnv t t t t false).

(** The events of the example of the specification: A, its redelivery,
    and the same text under other stream message ids. *)
Definition eventA : Delivery := textEvent "m1" "hello" "c1" "u1" 1000.
Definition eventA' : Delivery := textEvent "m1" "hello" "c1" "u1" 2000.
Definition eventB : Delivery := textEvent "m2" " hello " "c1" "u1" 60000.
Definition eventB61 : Delivery := textEvent "m2" "hello" "c1" "u1" 61000.
Definition eventB111 : Delivery := textEvent "m3" "hello" "c1" "u1" 111000.
Definition eventC : Delivery := textEvent "m4" "hello" "c1" "u2" 61000.

(** The event B61 delivered once more, 148 seconds later. *)
Definition eventB209 : Delivery := textEvent "m2" "hello" "c1" "u1" 209000.

(** Two events of different conversations and senders whose joined
    signature fields read the same. *)
Definition eventColonConv : Delivery := textEvent "m1" "hello" "a:b" "c" 1000.
Definition eventColonSender : Delivery := textEvent "m2" "hello" "a" "b:c" 2000.

(** The [i]-th of a family of events with pairwise different identity and
    signature keys, all delivered at time 1000, and the caches after the
    first [n] of them. *)
Definition fillEvent (i : nat) : Delivery :=
  textEvent ("m" +:+ pretty i) "hello" "c" ("u" +:+ pretty i) 1000.

Definition fillKey (i : nat) : string := "default:m" +:+ pretty i.

Definition fillSignature (i : nat) : string :=
  "default:c:u" +:+ pretty i +:+ ":" +:+ hashText "text:hello".

Definition filled (n : nat) : DedupState :=
  mkDedup (list_to_set (fillKey <$> seq 0 n))
          ((λ i, (fillKey i, 1000)) <$> seq 0 n)
          ((λ i, (fillSignature i, 1000)) <$> seq 0 n).

(** Event 0 of the family delivered once more, 199 seconds later. *)
Definition fillEvent0Again : Delivery := textEvent "m0" "hello" "c" "u0" 200000.

(** [DEDUP_CACHE_MAX_SIZE] as a number of entries. *)
Definition capacity : nat := Z.to_nat DEDUP_CACHE_MAX_SIZE.

(* ===================================================================== *)
(** ** Further definitions: reference values, invariants, closed forms *)
(* ===================================================================== *)

(** The hash of [hashText] computed over the integers, without the 32-bit
    wrap-around: from 5381, each code unit [c] turns [h] into
    [33 * h xor c]. *)
Definition djb2xor (input : string) : Z :=
  foldl (λ h c, Z.lxor (33 * h) (charCode c)) 5381 (list_ascii_of_string input).

Definition isHexDigit (c : ascii) : bool :=
  bool_decide (c ∈ list_ascii_of_string "0123456789abcdef").

(** [out] is [rest] preceded by the hexadecimal digits of [p]: a first
    digit that is not zero and then [ds], where [16 ^ length ds <= p]. *)
Definition hexShape (p : positive) (rest out : string) : Prop :=
  ∃ d ds, out = String d (ds +:+ rest)
          ∧ isHexDigit d = true ∧ d ≠ "0"%char
          ∧ Forall (λ c, isHexDigit c = true) (list_ascii_of_string ds)
          ∧ 16 ^ Z.of_nat (String.length ds) <= Z.pos p.

(** A string made of white space only. *)
Definition allWhiteSpace (s : string) : Prop :=
  Forall (λ c, isWhiteSpace c = true) (list_ascii_of_string s).

(* --------------------------------------------------------------------- *)
(** *** Supervisor: the invariant of the module state *)
(* --------------------------------------------------------------------- *)

Definition isDisconnectOf (c : nat) (e : Effect) : bool :=
  match e with
  | Disconnect c' => bool_decide (c' = c)
  | _ => false
  end.

(** Number of calls of [disconnect] on client [c]. *)
Definition disconnectCalls (c : nat) (w : World) : nat :=
  length (filter (λ e, isDisconnectOf c e = true) (effects w)).

(** The session an effect belongs to: the one whose settle functions or
    whose client it names. *)
Definition effectOwned (w : World) (e : Effect) : Prop :=
  match e with
  | CallResolve q | CallReject q _ =>
      ∃ sid ss, sessions w !! sid = Some ss ∧ sPromise ss = q
  | CreateClient c _ | RegisterCallback c _ | Connect c | Disconnect c =>
      ∃ sid ss, sessions w !! sid = Some ss ∧ sClient ss = c
  end.

(** Effects that are neither a settle call nor a disconnect. *)
Definition quietEffect (e : Effect) : Prop :=
  match e with
  | CallResolve _ | CallReject _ _ | Disconnect _ => False
  | _ => True
  end.

Definition isFulfilled (st : option PromiseState) : bool :=
  match st with Some Fulfilled => true | _ => false end.

Definition isRejected (st : option PromiseState) : bool :=
  match st with Some (Rejected _) => true | _ => false end.

(** The state in which a settle call leaves a pending promise. *)
Definition settledBy (e : Effect) (p : nat) (st : PromiseState) : Prop :=
  (e = CallResolve p ∧ st = Fulfilled) ∨ (∃ err, e = CallReject p err ∧ st = Rejected err).

(** What holds of one session: [resolve] has been called once if its
    promise is fulfilled and [reject] once if it is rejected, and neither
    otherwise; the promise is pending exactly while the session runs and
    settled once it is stopped; its client has been disconnected exactly
    once when it is stopped; and while it runs it is the current session. *)
Record session_ok (w : World) (sid : nat) (ss : Session) : Prop := mkSessionOk {
  so_resolve : resolveCalls (sPromise ss) w
               = (if isFulfilled (promises w !! sPromise ss) then 1 else 0)%nat;
  so_reject : rejectCalls (sPromise ss) w
              = (if isRejected (promises w !! sPromise ss) then 1 else 0)%nat;
  so_promise : promises w !! sPromise ss = Some Pending ↔ sStopped ss = false;
  so_settled : sStopped ss = true →
               isFulfilled (promises w !! sPromise ss)
               || isRejected (promises w !! sPromise ss) = true;
  so_disconnect : disconnectCalls (sClient ss) w = (if sStopped ss then 1 else 0)%nat;
  so_current : sStopped ss = false →
               currentStop w = Some sid ∧ currentClient w = Some (sClient ss)
}.

(** The invariant of the supervisor: the module variables agree with the
    sessions, sessions have clients and promises of their own, a
    registered abort listener belongs to a running session, and every
    effect belongs to a session. *)
Record world_inv (w : World) : Prop := mkWorldInv {
  wi_ok : world_ok w;
  wi_idle : currentClient w = None → currentAccountId w = None ∧ currentStop w = None;
  wi_active : ∀ c, currentClient w = Some c →
      ∃ sid ss acct, currentStop w = Some sid ∧ sessions w !! sid = Some ss
                     ∧ sClient ss = c ∧ sStopped ss = false
                     ∧ currentAccountId w = Some acct;
  wi_sessions : ∀ sid ss, sessions w !! sid = Some ss → session_ok w sid ss;
  wi_distinct : ∀ sid sid' ss ss',
      sessions w !! sid = Some ss → sessions w !! sid' = Some ss' → sid ≠ sid' →
      sPromise ss ≠ sPromise ss' ∧ sClient ss ≠ sClient ss';
  wi_listeners : ∀ g sid, (g, sid) ∈ listeners w →
      ∃ ss, sessions w !! sid = Some ss ∧ sSignal ss = Some g ∧ sStopped ss = false;
  wi_effects : Forall (effectOwned w) (effects w)
}.

(** While a session is active, [currentPromise] is its completion promise. *)
Definition current_promise_ok (w : World) : Prop :=
  ∀ c, currentClient w = Some c →
    ∃ sid ss, currentStop w = Some sid ∧ sessions w !! sid = Some ss
              ∧ currentPromise w = Some (sPromise ss).

(** A step that leaves the current session alone or ends it. *)
Definition sameOrIdle (w w' : World) : Prop :=
  currentClient w' = None
  ∨ (currentClient w' = currentClient w ∧ currentStop w' = currentStop w
     ∧ currentPromise w' = currentPromise w ∧ sessions w' = sessions w).

(** The world in which the executor has made its session the current one
    (the client built, the promise allocated, the stop hook stored). *)
Definition openedWorld (acct : string) (sig : option nat) (cfg : DingtalkConfig) (w : World)
  : World :=
  mkWorld (Some (clients w)) (Some acct) (currentPromise w) (Some (length (sessions w)))
          (sessions w ++ [mkSession (clients w) false sig (length (promises w))])
          (promises w ++ [Pending]) (S (clients w)) (aborted w) (listeners w)
          (effects w ++ [CreateClient (clients w) cfg]).

(** The world left by a start that opens a session and ends it before it
    returns: the session is stopped, its promise settled with [st], the
    client disconnected, and [currentPromise] the only module variable
    that is set; [calls] are the calls made after the client was built. *)
Definition endedStartWorld (opts : MonitorDingtalkOpts) (cfg : DingtalkConfig)
    (st : PromiseState) (calls : list Effect) (w : World) : World :=
  let c := clients w in
  let sid := length (sessions w) in
  let p := S (length (promises w)) in
  mkWorld None None (Some p) None
          (sessions w ++ [mkSession c true (abortSignal opts) p])
          (promises w ++ [Follows p; st])
          (S c) (aborted w)
          (match abortSignal opts with
           | Some g => filter (λ l, l ≠ (g, sid)) (listeners w)
           | None => listeners w
           end)
          (effects w ++ CreateClient c cfg :: calls).

(* --------------------------------------------------------------------- *)
(** *** Further sample inputs *)
(* --------------------------------------------------------------------- *)

(** Two texts with the same content hash: ["text:bC"] and ["text:cb"]
    both hash to [6bdcc6c3]. *)
Definition eventBC : Delivery := textEvent "m5" "bC" "c1" "u1" 1000.
Definition eventCB : Delivery := textEvent "m6" "cb" "c1" "u1" 2000.

(** A text event without stream message id, in the payload or in the
    headers. *)
Definition plainEvent (txt : string) (t : Z) : Delivery :=
  mkDelivery "default" None
    (mkRes (Parsed (mkRaw "text" (Some txt) None "u1" None "c1" None None None)) None)
    (mkEnv t t t t false).

Definition fiftyUnits : string := "01234567890123456789012345678901234567890123456789".

(** The caches after event A. *)
Definition afterA : DedupState := stateAfter (deliver eventA emptyDedup).

(** Worlds: a session running for account ["default"] with abort signal 7;
    the same after a stop; a second session started after that stop. *)
Definition runningWorld : World :=
  (monitorDingtalkProvider (startOpts "default" (Some 7%nat)) collaboratorsOk initWorld).1.

Definition stoppedWorld : World := stopDingtalkMonitor runningWorld.

Definition restartedWorld : World :=
  (monitorDingtalkProvider (startOpts "default" (Some 9%nat)) collaboratorsOk stoppedWorld).1.
(* ===================================================================== *)
(** ** Facts about the insertion-ordered map *)
(* ===================================================================== *)

Module JsMapFacts.
Section facts.
Context {V : Type}.
Implicit Types (m l pre : list (string * V)) (k : string) (v : V).

Lemma get_None k m : JsMap.get k m = None ↔ k ∉ JsMap.keys m.
Proof.
  induction m as [|[k' v'] m IH]; simpl.
  - split; [intros _; apply not_elem_of_nil | done].
  - destruct (decide (k' = k)) as [->|Hne].
    + split; [done | intros H; exfalso; apply H; left].
    + rewrite IH, not_elem_of_cons. split; [intros ?; split; [congruence | done] | by intros [_ ?]].
Qed.

Lemma get_Some_elem k v m : JsMap.get k m = Some v → (k, v) ∈ m.
Proof.
  induction m as [|[k' v'] m IH]; simpl; [done|].
  destruct (decide (k' = k)) as [->|Hne].
  - intros [= ->]. left.
  - intros H. right. auto.
Qed.

Lemma get_Some_key k v m : JsMap.get k m = Some v → k ∈ JsMap.keys m.
Proof.
  intros H. apply get_Some_elem in H.
  unfold JsMap.keys. apply list_elem_of_fmap. by exists (k, v).
Qed.

Lemma elem_get k v m : NoDup (JsMap.keys m) → (k, v) ∈ m → JsMap.get k m = Some v.
Proof.
  induction m as [|[k' v'] m IH]; simpl; intros Hnd Hin.
  - by apply elem_of_nil in Hin.
  - apply NoDup_cons in Hnd as [Hk' Hnd].
    apply elem_of_cons in Hin as [[= <- <-]|Hin].
    + by rewrite decide_True.
    + destruct (decide (k' = k)) as [->|Hne]; [|by apply IH].
      exfalso. apply Hk'. apply list_elem_of_fmap. by exists (k, v).
Qed.

Lemma delete_notin k m : k ∉ JsMap.keys m → JsMap.delete k m = m.
Proof.
  induction m as [|[k' v'] m IH]; simpl; [done|].
  rewrite not_elem_of_cons. intros [Hne Hk].
  rewrite decide_False by done. by rewrite IH.
Qed.

Lemma delete_middle k v pre l :
  k ∉ JsMap.keys pre → JsMap.delete k (pre ++ (k, v) :: l) = pre ++ l.
Proof.
  induction pre as [|[k' v'] pre IH]; simpl.
  - intros _. by rewrite decide_True.
  - rewrite not_elem_of_cons. intros [Hne Hk].
    rewrite decide_False by done. by rewrite IH.
Qed.

Lemma keys_app m l : JsMap.keys (m ++ l) = JsMap.keys m ++ JsMap.keys l.
Proof. unfold JsMap.keys. apply fmap_app. Qed.

(** [set]: the value read back, the other keys, the order of the keys. *)
Lemma get_set_eq k v m : JsMap.get k (JsMap.set k v m) = Some v.
Proof.
  induction m as [|[k' v'] m IH]; simpl.
  - by rewrite decide_True.
  - destruct (decide (k' = k)) as [->|Hne]; simpl.
    + by rewrite decide_True.
    + by rewrite decide_False.
Qed.

Lemma get_set_ne k k' v m : k ≠ k' → JsMap.get k' (JsMap.set k v m) = JsMap.get k' m.
Proof.
  intros Hne. induction m as [|[k0 v0] m IH]; simpl.
  - by rewrite decide_False.
  - destruct (decide (k0 = k)) as [->|Hne0]; simpl.
    + by rewrite !decide_False.
    + destruct (decide (k0 = k')); [done | apply IH].
Qed.

Lemma keys_set_new k v m :
  k ∉ JsMap.keys m → JsMap.set k v m = m ++ [(k, v)].
Proof.
  induction m as [|[k' v'] m IH]; simpl; [done|].
  rewrite not_elem_of_cons. intros [Hne Hk].
  rewrite decide_False by done. by rewrite IH.
Qed.

Lemma keys_set_old k v m :
  k ∈ JsMap.keys m → JsMap.keys (JsMap.set k v m) = JsMap.keys m.
Proof.
  induction m as [|[k' v'] m IH]; simpl.
  - intros H. by apply elem_of_nil in H.
  - destruct (decide (k' = k)) as [->|Hne]; simpl; [done|].
    intros [?|Hk]%elem_of_cons; [congruence|]. f_equal. by apply IH.
Qed.

Lemma NoDup_keys_set k v m : NoDup (JsMap.keys m) → NoDup (JsMap.keys (JsMap.set k v m)).
Proof.
  intros Hnd. destruct (decide (k ∈ JsMap.keys m)) as [Hin|Hnin].
  - by rewrite keys_set_old.
  - rewrite keys_set_new by done. rewrite keys_app. simpl.
    apply NoDup_app. split; [done|]. split.
    + intros x Hx [->|[]%elem_of_nil]%elem_of_cons. done.
    + apply NoDup_singleton.
Qed.

(** Reading a key after a filter that keeps the order. *)
Lemma get_filter (P : string * V → Prop) `{!∀ e, Decision (P e)} k m :
  NoDup (JsMap.keys m) →
  JsMap.get k (filter P m) =
    match JsMap.get k m with
    | Some v => if decide (P (k, v)) then Some v else None
    | None => None
    end.
Proof.
  induction m as [|[k' v'] m IH]; simpl; [done|].
  intros [Hk' Hnd]%NoDup_cons.
  rewrite filter_cons. destruct (decide (k' = k)) as [->|Hne].
  - destruct (decide (P (k, v'))) as [HP|HP]; simpl.
    + by rewrite decide_True.
    + apply get_None. intros Hin. apply Hk'.
      unfold JsMap.keys in *. apply list_elem_of_fmap in Hin as [[k1 v1] [? Hin]].
      apply list_elem_of_filter in Hin as [_ Hin]. simpl in *; subst.
      apply list_elem_of_fmap. by exists (k1, v1).
  - destruct (decide (P (k', v'))); simpl.
    + rewrite decide_False by done. by apply IH.
    + by apply IH.
Qed.

Lemma NoDup_keys_filter (P : string * V → Prop) `{!∀ e, Decision (P e)} m :
  NoDup (JsMap.keys m) → NoDup (JsMap.keys (filter P m)).
Proof.
  intros Hnd. unfold JsMap.keys in *.
  eapply sublist_NoDup; [exact Hnd|].
  apply fmap_sublist, sublist_filter.
Qed.


Lemma sweep_from (P : string * V → Prop) `{!∀ e, Decision (P e)} l pre :
  NoDup (JsMap.keys (pre ++ l)) →
  foldl (sweepStep P) (pre ++ l) l = pre ++ filter (λ e, ¬ P e) l.
Proof.
  revert pre. induction l as [|[k v] l IH]; intros pre Hnd; simpl.
  - done.
  - rewrite filter_cons. unfold sweepStep at 2. simpl.
    assert (k ∉ JsMap.keys pre) as Hk.
    { rewrite keys_app in Hnd. apply NoDup_app in Hnd as (_ & Hd & _).
      intros Hin. apply (Hd k Hin). left. }
    destruct (decide (P (k, v))) as [HP|HP].
    + rewrite delete_middle by done.
      rewrite decide_False by tauto. apply IH.
      rewrite keys_app in *. simpl in Hnd.
      apply NoDup_app in Hnd as (H1 & H2 & H3).
      apply NoDup_cons in H3 as [? ?].
      apply NoDup_app. split_and!; [done| |done].
      intros x Hx Hx'. apply (H2 x Hx). by right.
    + rewrite decide_True by done.
      replace (pre ++ (k, v) :: l) with ((pre ++ [(k, v)]) ++ l)
        by (by rewrite <- app_assoc).
      rewrite IH; [by rewrite <- app_assoc|].
      by rewrite <- app_assoc.
Qed.

Lemma sweep_filter (P : string * V → Prop) `{!∀ e, Decision (P e)} m :
  NoDup (JsMap.keys m) →
  foldl (sweepStep P) m m = filter (λ e, ¬ P e) m.
Proof. intros Hnd. by apply (sweep_from P m []). Qed.
End facts.
End JsMapFacts.

(* ===================================================================== *)
(** ** The cleanup loops in closed form *)
(* ===================================================================== *)

Import JsMapFacts.


Lemma cleanupDedup_foldl now l s :
  let s' := foldl (cleanupDedupStep now) s l in
  processedMessageTimestamps s' =
    foldl (sweepStep (identityExpired now)) (processedMessageTimestamps s) l
  ∧ processedMessageIds s' =
      processedMessageIds s ∖ list_to_set (JsMap.keys (filter (identityExpired now) l))
  ∧ recentSignatureTimestamps s' = recentSignatureTimestamps s.
Proof.
  revert s. induction l as [|e l IH]; intros s; simpl.
  - split_and!; [done| |done]. cbn. set_solver.
  - destruct (IH (cleanupDedupStep now s e)) as (Ht & Hi & Hs).
    rewrite Ht, Hi, Hs. clear IH Ht Hi Hs.
    rewrite filter_cons. unfold cleanupDedupStep, sweepStep.
    destruct (decide (identityExpired now e)) as [He|He].
    + rewrite bool_decide_eq_true_2 by exact He. simpl.
      split_and!; [done| |done]. set_solver.
    + rewrite bool_decide_eq_false_2 by exact He. done.
Qed.

Lemma cleanupSignature_foldl now l s :
  let s' := foldl (cleanupSignatureStep now) s l in
  recentSignatureTimestamps s' =
    foldl (sweepStep (signatureExpired now)) (recentSignatureTimestamps s) l
  ∧ processedMessageIds s' = processedMessageIds s
  ∧ processedMessageTimestamps s' = processedMessageTimestamps s.
Proof.
  revert s. induction l as [|e l IH]; intros s; simpl; [done|].
  destruct (IH (cleanupSignatureStep now s e)) as (Ht & Hi & Hs).
  rewrite Ht, Hi, Hs. clear IH Ht Hi Hs.
  unfold cleanupSignatureStep, sweepStep.
  destruct (decide (signatureExpired now e)) as [He|He].
  - by rewrite bool_decide_eq_true_2 by exact He.
  - by rewrite bool_decide_eq_false_2 by exact He.
Qed.


Lemma keys_filter_split (P : string * Z → Prop) `{!∀ e, Decision (P e)} (m : list (string * Z)) :
  NoDup (JsMap.keys m) →
  (list_to_set (JsMap.keys m) : gset string) ∖ list_to_set (JsMap.keys (filter P m))
  = list_to_set (JsMap.keys (filter (λ e, ¬ P e) m)).
Proof.
  intros Hnd. apply set_eq. intros x.
  rewrite elem_of_difference, !elem_of_list_to_set. unfold JsMap.keys.
  rewrite !list_elem_of_fmap. split.
  - intros [[[k v] [-> Hin]] Hno]. exists (k, v). split; [done|].
    apply list_elem_of_filter. split; [|done].
    intros HP. apply Hno. exists (k, v). split; [done|].
    by apply list_elem_of_filter.
  - intros [[k v] [-> [HnP Hin]%list_elem_of_filter]]. split.
    + by exists (k, v).
    + intros [[k' v'] [Hk [HP Hin']%list_elem_of_filter]]. simpl in Hk. subst k'.
      apply (elem_get _ _ _ Hnd) in Hin, Hin'. congruence.
Qed.

Lemma cleanupDedupCache_spec now s :
  dedup_wf s →
  cleanupDedupCache now s =
    mkDedup (list_to_set (JsMap.keys (filter (λ e, ¬ identityExpired now e)
                                             (processedMessageTimestamps s))))
            (filter (λ e, ¬ identityExpired now e) (processedMessageTimestamps s))
            (recentSignatureTimestamps s).
Proof.
  intros [Hnd Hids Hsig]. unfold cleanupDedupCache.
  destruct (cleanupDedup_foldl now (processedMessageTimestamps s) s) as (Ht & Hi & Hs).
  destruct (foldl _ _ _) as [ids ts sigs]. simpl in *. subst.
  rewrite Hids, sweep_filter by done. by rewrite keys_filter_split.
Qed.

Lemma cleanupSignatureCache_spec now s :
  dedup_wf s →
  cleanupSignatureCache now s =
    mkDedup (processedMessageIds s) (processedMessageTimestamps s)
            (filter (λ e, ¬ signatureExpired now e) (recentSignatureTimestamps s)).
Proof.
  intros [Hnd Hids Hsig]. unfold cleanupSignatureCache.
  destruct (cleanupSignature_foldl now (recentSignatureTimestamps s) s) as (Ht & Hi & Hs).
  destruct (foldl _ _ _) as [ids ts sigs]. simpl in *. subst.
  by rewrite sweep_filter.
Qed.

Lemma idsSize_wf s :
  dedup_wf s → idsSize s = Z.of_nat (length (processedMessageTimestamps s)).
Proof.
  intros [Hnd Hids _]. unfold idsSize. rewrite Hids, size_list_to_set by done.
  unfold JsMap.keys. by rewrite length_fmap.
Qed.

Lemma cleanupDedupCache_wf now s : dedup_wf s → dedup_wf (cleanupDedupCache now s).
Proof.
  intros Hwf. rewrite cleanupDedupCache_spec by done.
  destruct Hwf as [Hnd Hids Hsig]. split; simpl; [|done|done].
  by apply NoDup_keys_filter.
Qed.

Lemma cleanupSignatureCache_wf now s : dedup_wf s → dedup_wf (cleanupSignatureCache now s).
Proof.
  intros Hwf. rewrite cleanupSignatureCache_spec by done.
  destruct Hwf as [Hnd Hids Hsig]. split; simpl; [done|done|].
  by apply NoDup_keys_filter.
Qed.

Lemma touchDedupCache_wf now tSweep s : dedup_wf s → dedup_wf (touchDedupCache now tSweep s).
Proof.
  intros Hwf. unfold touchDedupCache. apply cleanupSignatureCache_wf.
  case_bool_decide; [by apply cleanupDedupCache_wf | done].
Qed.

(* ===================================================================== *)
(** ** markMessageProcessed and the capacity invariant *)
(* ===================================================================== *)

Lemma evictOldest_spec s e rest :
  dedup_wf s →
  processedMessageTimestamps s = e :: rest →
  e.1 ≠ "" →
  evictOldest s =
    mkDedup (list_to_set (JsMap.keys rest)) rest (recentSignatureTimestamps s).
Proof.
  intros [Hnd Hids Hsig] Hts Hne. unfold evictOldest, JsMap.firstKey.
  rewrite Hts in *. destruct e as [k v]. simpl in *.
  destruct k as [|c k]; [done|]. simpl.
  rewrite decide_True by done. f_equal.
  rewrite Hids. apply NoDup_cons in Hnd as [Hk _].
  simpl. set_solver.
Qed.

Lemma insert_new_wf ids ts sigs k v :
  dedup_wf (mkDedup ids ts sigs) →
  dedup_wf (mkDedup ({[ k ]} ∪ ids) (JsMap.set k v ts) sigs).
Proof.
  intros [Hnd Hids Hsig]. simpl in *. split; simpl; [|  |done].
  - by apply NoDup_keys_set.
  - subst ids. destruct (decide (k ∈ JsMap.keys ts)) as [Hin|Hnin].
    + rewrite keys_set_old by done. set_solver.
    + rewrite keys_set_new, keys_app by done. simpl.
      rewrite list_to_set_app_L. simpl. set_solver.
Qed.


Lemma keysNonEmpty_filter (P : string * Z → Prop) `{!∀ e, Decision (P e)} ids ts sigs ids' sigs' :
  keysNonEmpty (mkDedup ids ts sigs) → keysNonEmpty (mkDedup ids' (filter P ts) sigs').
Proof.
  unfold keysNonEmpty, JsMap.keys. simpl. rewrite !Forall_fmap.
  rewrite !Forall_forall. intros Hall x [_ Hx]%list_elem_of_filter. by apply Hall.
Qed.


Lemma markMessageProcessed_roomFor k tSweep tSet s :
  markMessageProcessed k tSweep tSet s =
    let s1 := roomFor tSweep s in
    mkDedup ({[ k ]} ∪ processedMessageIds s1)
            (JsMap.set k tSet (processedMessageTimestamps s1))
            (recentSignatureTimestamps s1).
Proof. reflexivity. Qed.

(** After [roomFor] the identity map is the live part of the old one, or
    that live part without its first entry when it alone fills the cache. *)
Lemma roomFor_spec tSweep s :
  dedup_inv s →
  let live := filter (λ e, ¬ identityExpired tSweep e) (processedMessageTimestamps s) in
  let kept :=
    if bool_decide (idsSize s >= DEDUP_CACHE_MAX_SIZE) then
      if bool_decide (Z.of_nat (length live) >= DEDUP_CACHE_MAX_SIZE) then tail live else live
    else processedMessageTimestamps s in
  roomFor tSweep s =
    mkDedup (list_to_set (JsMap.keys kept)) kept (recentSignatureTimestamps s).
Proof.
  intros [Hwf Hkeys Hsize]. simpl. unfold roomFor.
  case_bool_decide as Hfull.
  - pose proof (cleanupDedupCache_wf tSweep s Hwf) as Hwf2.
    rewrite (idsSize_wf _ Hwf2).
    rewrite cleanupDedupCache_spec in * by done. simpl.
    set (live := filter _ _) in *.
    case_bool_decide as Hstill; [|done].
    destruct live as [|e rest] eqn:Hlive.
    { simpl in Hstill. unfold DEDUP_CACHE_MAX_SIZE in Hstill. lia. }
    erewrite evictOldest_spec; [done|done|done|].
    simpl.
    assert (keysNonEmpty (mkDedup ∅ (e :: rest) [])) as Hk.
    { rewrite <- Hlive. subst live. destruct s. by eapply keysNonEmpty_filter. }
    unfold keysNonEmpty in Hk. simpl in Hk. by apply Forall_cons in Hk as [? _].
  - destruct s as [ids ts sigs]. destruct Hwf as [? Hids ?]. simpl in *. by rewrite Hids.
Qed.

Lemma roomFor_inv tSweep s :
  dedup_inv s →
  dedup_inv (roomFor tSweep s) ∧ idsSize (roomFor tSweep s) < DEDUP_CACHE_MAX_SIZE.
Proof.
  intros Hinv. pose proof (roomFor_spec tSweep s Hinv) as Hspec. simpl in Hspec.
  destruct Hinv as [Hwf Hkeys Hsize].
  pose proof (idsSize_wf s Hwf) as Hlen.
  set (live := filter (λ e, ¬ identityExpired tSweep e) (processedMessageTimestamps s)) in *.
  assert (NoDup (JsMap.keys live)) as Hndl.
  { apply NoDup_keys_filter. apply Hwf. }
  assert (Forall (λ k, k ≠ "") (JsMap.keys live)) as Hkl.
  { destruct s. by eapply (keysNonEmpty_filter _ _ _ _ ∅ []). }
  assert (length live ≤ length (processedMessageTimestamps s))%nat as Hll.
  { apply length_filter. }
  rewrite Hspec. clear Hspec.
  assert (∀ kept, NoDup (JsMap.keys kept) → Forall (λ k, k ≠ "") (JsMap.keys kept) →
            Z.of_nat (length kept) < DEDUP_CACHE_MAX_SIZE →
            let s' := mkDedup (list_to_set (JsMap.keys kept)) kept (recentSignatureTimestamps s) in
            dedup_inv s' ∧ idsSize s' < DEDUP_CACHE_MAX_SIZE) as Hgen.
  { intros kept Hnd Hk Hlt. simpl.
    assert (dedup_wf (mkDedup (list_to_set (JsMap.keys kept)) kept (recentSignatureTimestamps s))) as Hwf'.
    { split; simpl; [done|done|apply Hwf]. }
    rewrite (idsSize_wf _ Hwf'). simpl. split; [|done].
    split; [done|done|]. rewrite (idsSize_wf _ Hwf'). simpl. lia. }
  case_bool_decide as Hfull.
  - case_bool_decide as Hstill.
    + destruct live as [|e rest]; simpl in *.
      { unfold DEDUP_CACHE_MAX_SIZE in Hstill. lia. }
      apply Hgen.
      * by apply NoDup_cons in Hndl as [_ ?].
      * by apply Forall_cons in Hkl as [_ ?].
      * lia.
    + apply Hgen; [done|done|lia].
  - apply Hgen; [apply Hwf|apply Hkeys|lia].
Qed.

Lemma markMessageProcessed_inv k tSweep tSet s :
  dedup_inv s → k ≠ "" → dedup_inv (markMessageProcessed k tSweep tSet s).
Proof.
  intros Hinv Hk. rewrite markMessageProcessed_roomFor. simpl.
  destruct (roomFor_inv tSweep s Hinv) as [[Hwf Hkeys _] Hlt].
  destruct (roomFor tSweep s) as [ids ts sigs].
  pose proof (insert_new_wf ids ts sigs k tSet Hwf) as Hwf'.
  split; [done| |].
  - unfold keysNonEmpty in *. simpl in *.
    destruct (decide (k ∈ JsMap.keys ts)) as [Hin|Hnin].
    + by rewrite keys_set_old.
    + rewrite keys_set_new, keys_app by done. apply Forall_app. split; [done|].
      simpl. by apply Forall_singleton.
  - pose proof (idsSize_wf _ Hwf') as E1. pose proof (idsSize_wf _ Hwf) as E2.
    unfold idsSize in *. simpl in *. rewrite E1. rewrite E2 in Hlt.
    destruct (decide (k ∈ JsMap.keys ts)) as [Hin|Hnin].
    + assert (length (JsMap.keys (JsMap.set k tSet ts)) = length (JsMap.keys ts)) as Hl
        by (by rewrite keys_set_old).
      unfold JsMap.keys in Hl. rewrite !length_fmap in Hl. lia.
    + rewrite keys_set_new, length_app by done. simpl. lia.
Qed.

(* ===================================================================== *)
(** ** The callback on the caches *)
(* ===================================================================== *)

Lemma append_colon_nonempty (a b : string) : a +:+ ":" +:+ b ≠ "".
Proof. by destruct a. Qed.

Lemma dedupeIdOf_nonempty accountId raw : dedupeIdOf accountId raw ≠ "".
Proof.
  unfold dedupeIdOf. destruct (streamMessageId raw) as [sid|].
  - destruct (truthy_string sid); apply append_colon_nonempty.
  - apply append_colon_nonempty.
Qed.

(** The callback on a payload that parses, without the exception plumbing. *)
Lemma deliver_parsed d raw s :
  rawOf d = Some raw →
  let now := tNow (dEnv d) in
  let s1 := touchDedupCache now (tTouch (dEnv d)) s in
  let k := dedupeIdOf (dAccountId d) raw in
  let sd := isSignatureDuplicate (signatureOf (dAccountId d) raw) now s1 in
  deliver d s =
    if isMessageProcessed k s1 then mkResult s1 [] SUCCESS
    else if sd.1 then mkResult sd.2 [] SUCCESS
    else mkResult (markMessageProcessed k (tMarkSweep (dEnv d)) (tMark (dEnv d)) sd.2)
                  [mkDispatch (dConfig d) raw (dAccountId d)] SUCCESS.
Proof.
  unfold rawOf, deliver, onRobotMessage, callbackTry.
  destruct (data (dRes d)) as [|parsed]; [done|]. intros [= <-]. simpl.
  destruct (isMessageProcessed _ _); [done|].
  destruct (isSignatureDuplicate _ _ _) as [dup s2]. simpl.
  destruct dup; [done|]. by destruct (dispatchThrows (dEnv d)).
Qed.

Lemma deliver_malformed d s :
  rawOf d = None → deliver d s = mkResult s [] SUCCESS.
Proof.
  unfold rawOf, deliver, onRobotMessage, callbackTry.
  by destruct (data (dRes d)).
Qed.

Lemma touchDedupCache_spec now tSweep s :
  dedup_wf s →
  let ts := processedMessageTimestamps s in
  let ts' := if bool_decide (idsSize s > 0)
             then filter (λ e, ¬ identityExpired tSweep e) ts else ts in
  touchDedupCache now tSweep s =
    mkDedup (list_to_set (JsMap.keys ts')) ts'
            (filter (λ e, ¬ signatureExpired now e) (recentSignatureTimestamps s)).
Proof.
  intros Hwf. simpl. unfold touchDedupCache.
  case_bool_decide.
  - rewrite cleanupSignatureCache_spec by (by apply cleanupDedupCache_wf).
    by rewrite cleanupDedupCache_spec.
  - rewrite cleanupSignatureCache_spec by done. f_equal. apply Hwf.
Qed.

Lemma touchDedupCache_inv now tSweep s : dedup_inv s → dedup_inv (touchDedupCache now tSweep s).
Proof.
  intros [Hwf Hkeys Hsize].
  pose proof (touchDedupCache_wf now tSweep s Hwf) as Hwf'.
  pose proof (idsSize_wf _ Hwf') as E'. pose proof (idsSize_wf _ Hwf) as E.
  rewrite touchDedupCache_spec in * by done. simpl in *.
  split; [done| |].
  - case_bool_decide; [|done]. destruct s. by eapply keysNonEmpty_filter.
  - rewrite E'. simpl. case_bool_decide; [|lia].
    pose proof (length_filter (λ e, ¬ identityExpired tSweep e) (processedMessageTimestamps s)).
    lia.
Qed.

Lemma isSignatureDuplicate_spec sig now s :
  dedup_wf s →
  let live := filter (λ e, ¬ signatureExpired now e) (recentSignatureTimestamps s) in
  let dup := match JsMap.get sig live with
             | Some lastSeen => truthy_number lastSeen && bool_decide (now - lastSeen < SIGNATURE_TTL_MS)
             | None => false
             end in
  isSignatureDuplicate sig now s =
    (dup, mkDedup (processedMessageIds s) (processedMessageTimestamps s)
                  (if dup then live else JsMap.set sig now live)).
Proof.
  intros Hwf. simpl. unfold isSignatureDuplicate.
  rewrite cleanupSignatureCache_spec by done. simpl.
  by destruct (match JsMap.get sig _ with Some _ => _ | None => _ end).
Qed.

Lemma isSignatureDuplicate_inv sig now s :
  dedup_inv s → dedup_inv (isSignatureDuplicate sig now s).2.
Proof.
  intros [Hwf Hkeys Hsize]. rewrite isSignatureDuplicate_spec by done. simpl.
  destruct Hwf as [Hnd Hids Hsig].
  pose proof (NoDup_keys_filter (λ e, ¬ signatureExpired now e) _ Hsig) as Hlive.
  split; [split; simpl; [done|done|]|done|done].
  destruct (match JsMap.get sig _ with Some _ => _ | None => _ end);
    [done | by apply NoDup_keys_set].
Qed.

Lemma emptyDedup_inv : dedup_inv emptyDedup.
Proof.
  split; [split; simpl; [apply NoDup_nil_2|done|apply NoDup_nil_2]| |].
  - apply Forall_nil_2.
  - vm_compute. discriminate.
Qed.

Lemma deliver_inv d s : dedup_inv s → dedup_inv (stateAfter (deliver d s)).
Proof.
  intros Hinv. destruct (rawOf d) as [raw|] eqn:Hraw.
  - rewrite (deliver_parsed d raw s Hraw). simpl.
    pose proof (touchDedupCache_inv (tNow (dEnv d)) (tTouch (dEnv d)) s Hinv) as H1.
    destruct (isMessageProcessed _ _); [done|].
    pose proof (isSignatureDuplicate_inv (signatureOf (dAccountId d) raw)
                  (tNow (dEnv d)) _ H1) as H2.
    destruct (isSignatureDuplicate _ _ _) as [dup s2]. simpl in *.
    destruct dup; [done|]. simpl.
    apply markMessageProcessed_inv; [done | apply dedupeIdOf_nonempty].
  - by rewrite deliver_malformed.
Qed.

Lemma reachable_inv s : reachable s → dedup_inv s.
Proof.
  induction 1 as [|d s _ IH|s _ IH].
  - apply emptyDedup_inv.
  - by apply deliver_inv.
  - apply emptyDedup_inv.
Qed.

Lemma reachable_deliverAll ds s : reachable s → reachable (deliverAll ds s).
Proof.
  revert s. induction ds as [|d ds IH]; intros s Hs; simpl; [done|].
  apply IH. by constructor.
Qed.

(* ===================================================================== *)
(** ** Identity cache: suppression of equal keys *)
(* ===================================================================== *)

Lemma fresh_entry_survives_touch now tSweep s k t :
  dedup_wf s →
  JsMap.get k (processedMessageTimestamps s) = Some t →
  tSweep - t <= DEDUP_CACHE_TTL →
  isMessageProcessed k (touchDedupCache now tSweep s) = true.
Proof.
  intros Hwf Hget Hfresh. rewrite touchDedupCache_spec by done.
  unfold isMessageProcessed. simpl. apply bool_decide_eq_true_2.
  apply elem_of_list_to_set. unfold JsMap.keys. apply list_elem_of_fmap.
  exists (k, t). split; [done|]. apply get_Some_elem in Hget.
  case_bool_decide; [|done].
  apply list_elem_of_filter. split; [|done].
  unfold identityExpired. simpl. lia.
Qed.

Lemma dispatched_marks d s k :
  identityKey d = Some k →
  dispatched (deliver d s) ≠ [] →
  JsMap.get k (processedMessageTimestamps (stateAfter (deliver d s))) = Some (tMark (dEnv d)).
Proof.
  unfold identityKey. destruct (rawOf d) as [raw|] eqn:Hraw; [|done].
  intros [= <-]. rewrite (deliver_parsed d raw s Hraw). cbn zeta.
  destruct (isMessageProcessed _ _); [done|].
  destruct (isSignatureDuplicate _ _ _) as [dup s2]. cbn [fst snd].
  destruct dup; [done|]. cbn [stateAfter]. intros _.
  rewrite markMessageProcessed_roomFor. apply get_set_eq.
Qed.

(* ===================================================================== *)
(** ** The acknowledgment *)
(* ===================================================================== *)

(** C5. Whatever the payload (malformed or not), whatever the caches hold
    and whether or not the call of the processor throws, the callback
    returns [SUCCESS]; [LATER] is never returned. *)
Theorem callback_always_acknowledges_success :
  ∀ accountId config res env s,
    returned (onRobotMessage accountId config res env s) = SUCCESS.
Proof.
  intros accountId config res env s. unfold onRobotMessage.
  destruct (callbackTry accountId config res env s) as [[s' calls] [exn|ack]] eqn:Htry;
    [done|]. simpl.
  unfold callbackTry in Htry.
  destruct (data res) as [|parsed]; [done|].
  destruct (isMessageProcessed _ _); [by injection Htry as _ _ <-|].
  destruct (isSignatureDuplicate _ _ _) as [dup s2].
  destruct dup; [by injection Htry as _ _ <-|].
  destruct (dispatchThrows env); [done | by injection Htry as _ _ <-].
Qed.

(* ===================================================================== *)
(** ** Signature cache: a window anchored at the recorded event *)
(* ===================================================================== *)

#[local] Arguments markMessageProcessed : simpl never.

Lemma get_filter_Some (P : string * Z → Prop) `{!∀ e, Decision (P e)} k v (m : list (string * Z)) :
  NoDup (JsMap.keys m) → JsMap.get k (filter P m) = Some v → JsMap.get k m = Some v.
Proof.
  intros Hnd. rewrite get_filter by done.
  destruct (JsMap.get k m) as [v'|]; [|done]. by case_decide.
Qed.

Lemma get_filter_keep (P : string * Z → Prop) `{!∀ e, Decision (P e)} k v (m : list (string * Z)) :
  NoDup (JsMap.keys m) → JsMap.get k m = Some v → P (k, v) → JsMap.get k (filter P m) = Some v.
Proof. intros Hnd Hget HP. rewrite get_filter, Hget by done. by rewrite decide_True. Qed.

Lemma evictOldest_sigs s : recentSignatureTimestamps (evictOldest s) = recentSignatureTimestamps s.
Proof.
  unfold evictOldest. destruct (JsMap.firstKey _) as [k|]; [|done].
  by destruct (truthy_string k).
Qed.

Lemma cleanupDedupCache_sigs now s :
  recentSignatureTimestamps (cleanupDedupCache now s) = recentSignatureTimestamps s.
Proof. apply (cleanupDedup_foldl now (processedMessageTimestamps s) s). Qed.

Lemma markMessageProcessed_sigs k tSweep tSet s :
  recentSignatureTimestamps (markMessageProcessed k tSweep tSet s) = recentSignatureTimestamps s.
Proof.
  unfold markMessageProcessed. simpl.
  repeat case_bool_decide; rewrite ?evictOldest_sigs, ?cleanupDedupCache_sigs; done.
Qed.

(** C3, as the code has it. For an event that reaches the signature check:
    when it is judged a signature duplicate it is not dispatched and the
    timestamp stored under its signature key stays the one seen before,
    which is less than [SIGNATURE_TTL_MS] old; when it is not judged a
    duplicate it is dispatched and the timestamp becomes the current time. *)
Theorem signature_timestamp_set_unless_duplicate :
  ∀ s d sig,
    reachable s → reachesSignatureCheck d s → signatureKey d = Some sig →
    let now := tNow (dEnv d) in
    let r := deliver d s in
    let after := JsMap.get sig (recentSignatureTimestamps (stateAfter r)) in
    if (isSignatureDuplicate sig now (touchDedupCache now (tTouch (dEnv d)) s)).1
    then dispatched r = [] ∧
         ∃ t, JsMap.get sig (recentSignatureTimestamps s) = Some t ∧
              now - t < SIGNATURE_TTL_MS ∧ after = Some t
    else dispatched r ≠ [] ∧ after = Some now.
Proof.
  intros s d sig Hs (k & Hk & Hnew) Hsig. cbn.
  unfold identityKey, signatureKey in *.
  destruct (rawOf d) as [raw|] eqn:Hraw; [|done].
  injection Hk as Hk. injection Hsig as Hsig.
  rewrite (deliver_parsed d raw s Hraw). cbn. rewrite Hk, Hnew, Hsig.
  assert (dedup_wf s) as Hwf by (by apply reachable_inv).
  pose proof (touchDedupCache_wf (tNow (dEnv d)) (tTouch (dEnv d)) s Hwf) as Hwf1.
  rewrite (isSignatureDuplicate_spec sig _ _ Hwf1). cbn.
  rewrite touchDedupCache_spec by done. cbn.
  set (live := filter _ (filter _ _)).
  destruct (JsMap.get sig live) as [t|] eqn:Hget; cbn.
  - destruct (truthy_number t && bool_decide (tNow (dEnv d) - t < SIGNATURE_TTL_MS)) eqn:Hdup;
      cbn.
    + split; [done|]. exists t. apply andb_true_iff in Hdup as [_ Hlt].
      apply bool_decide_eq_true_1 in Hlt. split_and!; [|done|done].
      subst live. apply get_filter_Some in Hget; [|apply NoDup_keys_filter, Hwf].
      apply get_filter_Some in Hget; [done|apply Hwf].
    + split; [done|]. rewrite markMessageProcessed_sigs. cbn. apply get_set_eq.
  - split; [done|]. rewrite markMessageProcessed_sigs. cbn. apply get_set_eq.
Qed.

(** The timestamp is not always refreshed: event B arrives 59 seconds after A with the
    same content under another stream message id; it reaches the signature
    check and is judged a duplicate, and the timestamp of its signature key
    stays at the arrival time of A. *)
Lemma signature_not_refreshed_on_duplicate : ¬ signatureAlwaysRefreshed.
Proof.
  intros Hall.
  specialize (Hall (stateAfter (deliver eventA emptyDedup)) eventB
                "default:c1:u1:9bdcc060").
  assert (reachable (stateAfter (deliver eventA emptyDedup))) as Hr
    by (constructor; constructor).
  specialize (Hall Hr).
  assert (reachesSignatureCheck eventB (stateAfter (deliver eventA emptyDedup))) as Hc.
  { exists "default:m2". split; vm_compute; reflexivity. }
  specialize (Hall Hc eq_refl). vm_compute in Hall. discriminate.
Qed.

Lemma sameContent_signature d1 d2 :
  sameContent d1 d2 → ∃ sig, signatureKey d1 = Some sig ∧ signatureKey d2 = Some sig.
Proof.
  intros (raw1 & raw2 & H1 & H2 & Ha & Hc & Hs & Hm & Ht).
  exists (signatureOf (dAccountId d1) raw1). unfold signatureKey.
  rewrite H1, H2. cbn. split; [done|]. f_equal.
  unfold signatureOf, contentHashOf. by rewrite Ha, Hc, Hs, Hm, Ht.
Qed.

Lemma dispatched_records_signature d s sig :
  reachable s → signatureKey d = Some sig → dispatched (deliver d s) ≠ [] →
  JsMap.get sig (recentSignatureTimestamps (stateAfter (deliver d s))) = Some (tNow (dEnv d)).
Proof.
  intros Hs Hsig. unfold signatureKey in Hsig.
  destruct (rawOf d) as [raw|] eqn:Hraw; [|done]. injection Hsig as Hsig.
  rewrite (deliver_parsed d raw s Hraw). cbn.
  destruct (isMessageProcessed _ _); [done|].
  assert (dedup_wf (touchDedupCache (tNow (dEnv d)) (tTouch (dEnv d)) s)) as Hwf1.
  { apply touchDedupCache_wf. by apply reachable_inv. }
  rewrite (isSignatureDuplicate_spec _ _ _ Hwf1). cbn. rewrite Hsig.
  destruct (match JsMap.get sig _ with Some _ => _ | None => _ end); [done|].
  cbn. intros _. rewrite markMessageProcessed_sigs. cbn. apply get_set_eq.
Qed.

(** A recorded signature that is less than [SIGNATURE_TTL_MS] old when an
    event arrives is still recorded, with the same timestamp, afterwards. *)
Lemma recorded_signature_kept d s sig t0 :
  reachable s →
  JsMap.get sig (recentSignatureTimestamps s) = Some t0 →
  t0 ≠ 0 → tNow (dEnv d) - t0 < SIGNATURE_TTL_MS →
  JsMap.get sig (recentSignatureTimestamps (stateAfter (deliver d s))) = Some t0.
Proof.
  intros Hs Hget Hnz Hlt.
  destruct (rawOf d) as [raw|] eqn:Hraw; [|by rewrite deliver_malformed].
  rewrite (deliver_parsed d raw s Hraw). cbn.
  assert (dedup_wf s) as Hwf by (by apply reachable_inv).
  pose proof (touchDedupCache_wf (tNow (dEnv d)) (tTouch (dEnv d)) s Hwf) as Hwf1.
  rewrite (isSignatureDuplicate_spec _ _ _ Hwf1). cbn.
  rewrite touchDedupCache_spec by done. cbn.
  set (keep := λ e : string * Z, ¬ signatureExpired (tNow (dEnv d)) e).
  assert (keep (sig, t0)) as Hkeep.
  { unfold keep, signatureExpired. cbn. lia. }
  assert (JsMap.get sig (filter keep (recentSignatureTimestamps s)) = Some t0) as H1.
  { apply get_filter_keep; [apply Hwf|done|done]. }
  assert (JsMap.get sig (filter keep (filter keep (recentSignatureTimestamps s))) = Some t0) as H2.
  { apply get_filter_keep; [apply NoDup_keys_filter, Hwf|done|done]. }
  destruct (isMessageProcessed _ _); [done|].
  destruct (decide (signatureOf (dAccountId d) raw = sig)) as [->|Hne].
  - rewrite H2. unfold truthy_number.
    rewrite (proj2 (Z.eqb_neq t0 0) Hnz), bool_decide_eq_true_2 by done. done.
  - destruct (match JsMap.get (signatureOf _ _) _ with Some _ => _ | None => _ end);
      [done|].
    cbn. rewrite markMessageProcessed_sigs. cbn. by rewrite get_set_ne.
Qed.

Lemma recorded_signature_kept_all ds s sig t0 bound :
  reachable s →
  JsMap.get sig (recentSignatureTimestamps s) = Some t0 →
  t0 ≠ 0 → bound - t0 < SIGNATURE_TTL_MS →
  Forall (λ d, tNow (dEnv d) <= bound) ds →
  JsMap.get sig (recentSignatureTimestamps (deliverAll ds s)) = Some t0.
Proof.
  intros Hs Hget Hnz Hlt Hall. revert s Hs Hget.
  induction Hall as [|d ds Hd _ IH]; intros s Hs Hget; cbn; [done|].
  apply IH; [by constructor|]. apply recorded_signature_kept; [done|done|done|lia].
Qed.

(** C2, as the code has it. Two events with the same account, conversation,
    sender, message type and trimmed content: if the first is dispatched
    (after the epoch), and the second arrives less than [SIGNATURE_TTL_MS]
    after it, with any deliveries in between that arrive no later than the
    second, then the second makes no call of the processor and returns
    [SUCCESS], whatever its stream message id. *)
Theorem signature_duplicate_not_dispatched :
  ∀ s d1 mids d2,
    reachable s → sameContent d1 d2 →
    dispatched (deliver d1 s) ≠ [] →
    0 < tNow (dEnv d1) →
    Forall (λ d, tNow (dEnv d) <= tNow (dEnv d2)) mids →
    tNow (dEnv d2) - tNow (dEnv d1) < SIGNATURE_TTL_MS →
    let r2 := deliver d2 (deliverAll mids (stateAfter (deliver d1 s))) in
    dispatched r2 = [] ∧ returned r2 = SUCCESS.
Proof.
  intros s d1 mids d2 Hs Hsame Hdisp Hpos Hmids Hlt. cbn.
  destruct (sameContent_signature _ _ Hsame) as (sig & Hsig1 & Hsig2).
  set (s1 := stateAfter (deliver d1 s)).
  assert (reachable s1) as Hs1 by (by constructor).
  set (s2 := deliverAll mids s1).
  assert (reachable s2) as Hs2 by (by apply reachable_deliverAll).
  assert (JsMap.get sig (recentSignatureTimestamps s2) = Some (tNow (dEnv d1))) as Hrec.
  { apply (recorded_signature_kept_all mids s1 sig _ (tNow (dEnv d2)));
      [done| |lia|done|done].
    by apply dispatched_records_signature. }
  unfold signatureKey in Hsig2.
  destruct (rawOf d2) as [raw2|] eqn:Hraw2; [|done]. injection Hsig2 as Hsig2.
  rewrite (deliver_parsed d2 raw2 s2 Hraw2). cbn.
  destruct (isMessageProcessed _ _); [done|].
  assert (dedup_wf s2) as Hwf by (by apply reachable_inv).
  pose proof (touchDedupCache_wf (tNow (dEnv d2)) (tTouch (dEnv d2)) s2 Hwf) as Hwf1.
  rewrite (isSignatureDuplicate_spec _ _ _ Hwf1). cbn.
  rewrite touchDedupCache_spec by done. cbn. rewrite Hsig2.
  set (keep := λ e : string * Z, ¬ signatureExpired (tNow (dEnv d2)) e).
  assert (keep (sig, tNow (dEnv d1))) as Hkeep.
  { unfold keep, signatureExpired. cbn. lia. }
  rewrite (get_filter_keep keep sig (tNow (dEnv d1)));
    [| apply NoDup_keys_filter, Hwf | apply get_filter_keep; [apply Hwf|done|done] | done].
  unfold truthy_number.
  rewrite (proj2 (Z.eqb_neq (tNow (dEnv d1)) 0)) by lia.
  by rewrite bool_decide_eq_true_2.
Qed.

(** The pair property read on arrival times alone fails: A is dispatched at
    1 s; the same content arrives again at 61 s and is dropped without its
    arrival being recorded; a third copy at 111 s, 50 s after the second,
    finds the record of A expired and is dispatched. *)
Lemma signature_window_not_from_any_first : ¬ signatureWindowFromAnyFirst.
Proof.
  intros Hall.
  specialize (Hall (stateAfter (deliver eventA emptyDedup)) eventB61 eventB111).
  assert (reachable (stateAfter (deliver eventA emptyDedup))) as Hr
    by (constructor; constructor).
  assert (sameContent eventB61 eventB111) as Hsame.
  { eexists _, _. split_and!; reflexivity. }
  assert (differentTransportIds eventB61 eventB111) as Hdiff.
  { eexists _, _, "m2", "m3". split_and!; [reflexivity..|done]. }
  destruct (Hall Hr Hsame Hdiff) as [Hnone _];
    [vm_compute; reflexivity | vm_compute; discriminate | vm_compute; reflexivity |].
  vm_compute in Hnone. discriminate.
Qed.

(* ===================================================================== *)
(** ** Signature keys are joined without escaping *)
(* ===================================================================== *)

(** C10. Two events of the same account with the same message type and the
    same trimmed content, whose conversations differ and whose senders
    differ, have the same signature key; the second, which arrives one
    second after the first under another identity key, is dropped. *)
Theorem signature_key_collision :
  ∃ d1 d2 raw1 raw2,
    rawOf d1 = Some raw1 ∧ rawOf d2 = Some raw2 ∧
    dAccountId d1 = dAccountId d2 ∧
    msgtype raw1 = msgtype raw2 ∧
    trim (messageContent raw1) = trim (messageContent raw2) ∧
    conversationId raw1 ≠ conversationId raw2 ∧
    senderId raw1 ≠ senderId raw2 ∧
    signatureKey d1 = signatureKey d2 ∧
    identityKey d1 ≠ identityKey d2 ∧
    0 <= tNow (dEnv d2) - tNow (dEnv d1) < SIGNATURE_TTL_MS ∧
    dispatched (deliver d1 emptyDedup) ≠ [] ∧
    let r2 := deliver d2 (stateAfter (deliver d1 emptyDedup)) in
    dispatched r2 = [] ∧ returned r2 = SUCCESS.
Proof.
  exists eventColonConv, eventColonSender. eexists _, _.
  split_and!.
  - reflexivity.
  - reflexivity.
  - reflexivity.
  - reflexivity.
  - reflexivity.
  - discriminate.
  - discriminate.
  - reflexivity.
  - vm_compute. discriminate.
  - vm_compute. discriminate.
  - reflexivity.
  - vm_compute. discriminate.
  - vm_compute. split; reflexivity.
Qed.

(* ===================================================================== *)
(** ** Identity cache: capacity *)
(* ===================================================================== *)

Lemma not_in_keys_sublist k (m m' : list (string * Z)) :
  m' `sublist_of` m → k ∉ JsMap.keys m → k ∉ JsMap.keys m'.
Proof.
  intros Hsub Hk Hin. apply Hk. unfold JsMap.keys in *.
  eapply elem_of_sublist; [exact Hin|]. by apply fmap_sublist.
Qed.

Lemma sublist_tail (m : list (string * Z)) : tail m `sublist_of` m.
Proof. destruct m; [done|]. simpl. by apply sublist_cons. Qed.

(** [markMessageProcessed] of a key that is not cached, in closed form. *)
Lemma markMessageProcessed_spec k tSweep tSet s :
  dedup_inv s → k ∉ processedMessageIds s →
  let live := filter (λ e, ¬ identityExpired tSweep e) (processedMessageTimestamps s) in
  let kept :=
    if bool_decide (idsSize s >= DEDUP_CACHE_MAX_SIZE) then
      if bool_decide (Z.of_nat (length live) >= DEDUP_CACHE_MAX_SIZE) then tail live else live
    else processedMessageTimestamps s in
  markMessageProcessed k tSweep tSet s =
    mkDedup (list_to_set (JsMap.keys (kept ++ [(k, tSet)]))) (kept ++ [(k, tSet)])
            (recentSignatureTimestamps s).
Proof.
  intros Hinv Hk. cbn zeta. rewrite markMessageProcessed_roomFor. cbn zeta.
  pose proof (roomFor_spec tSweep s Hinv) as Hroom. cbn zeta in Hroom.
  rewrite Hroom. clear Hroom. cbn [processedMessageIds processedMessageTimestamps
                                    recentSignatureTimestamps].
  set (live := filter _ _).
  set (kept := if bool_decide (idsSize s >= _) then _ else _).
  assert (k ∉ JsMap.keys (processedMessageTimestamps s)) as Hk'.
  { destruct Hinv as [[_ Hids _] _ _]. rewrite Hids in Hk.
    by rewrite elem_of_list_to_set in Hk. }
  assert (k ∉ JsMap.keys kept) as Hkept.
  { subst kept. repeat case_bool_decide; [| |done].
    - eapply not_in_keys_sublist; [|exact Hk'].
      etransitivity; [apply sublist_tail | apply sublist_filter].
    - eapply not_in_keys_sublist; [apply sublist_filter | exact Hk']. }
  rewrite keys_set_new by done. f_equal.
  rewrite keys_app, list_to_set_app_L. simpl. set_solver.
Qed.

Lemma deliver_dispatched_state d s k :
  reachable s → identityKey d = Some k → dispatched (deliver d s) ≠ [] →
  let s1 := touchDedupCache (tNow (dEnv d)) (tTouch (dEnv d)) s in
  ∃ sigs, let s2 := mkDedup (processedMessageIds s1) (processedMessageTimestamps s1) sigs in
    dedup_inv s2 ∧ (k ∉ processedMessageIds s1) ∧
    stateAfter (deliver d s) = markMessageProcessed k (tMarkSweep (dEnv d)) (tMark (dEnv d)) s2.
Proof.
  intros Hs Hk. unfold identityKey in Hk.
  destruct (rawOf d) as [raw|] eqn:Hraw; [|done]. injection Hk as Hk.
  rewrite (deliver_parsed d raw s Hraw). cbn zeta. rewrite Hk.
  pose proof (touchDedupCache_inv (tNow (dEnv d)) (tTouch (dEnv d)) s (reachable_inv s Hs)) as H1.
  destruct (isMessageProcessed _ _) eqn:Hproc; [done|].
  pose proof (isSignatureDuplicate_inv (signatureOf (dAccountId d) raw) (tNow (dEnv d)) _ H1) as H2.
  rewrite (isSignatureDuplicate_spec _ _ _ (inv_wf _ H1)) in *. cbn in *.
  destruct (match JsMap.get _ _ with Some _ => _ | None => _ end); [done|].
  intros _. eexists. split_and!; [exact H2| |done].
  unfold isMessageProcessed in Hproc. by apply bool_decide_eq_false_1 in Hproc.
Qed.

(** The identity [Map] after a dispatching callback, in terms of the one
    before it: [cached] is what the sweep at the start of the callback
    leaves, [live] what the purge inside [markMessageProcessed] leaves. *)
Lemma dispatch_inserts_after_eviction s d k :
  reachable s → identityKey d = Some k → dispatched (deliver d s) ≠ [] →
  let cached := filter (λ e, ¬ identityExpired (tTouch (dEnv d)) e)
                       (processedMessageTimestamps s) in
  let live := filter (λ e, ¬ identityExpired (tMarkSweep (dEnv d)) e) cached in
  let s' := stateAfter (deliver d s) in
  let entry := (k, tMark (dEnv d)) in
  (k ∉ JsMap.keys cached)
  ∧ processedMessageIds s' = list_to_set (JsMap.keys (processedMessageTimestamps s'))
  ∧ (Z.of_nat (length cached) < DEDUP_CACHE_MAX_SIZE →
       processedMessageTimestamps s' = cached ++ [entry])
  ∧ (Z.of_nat (length cached) >= DEDUP_CACHE_MAX_SIZE →
       Z.of_nat (length live) < DEDUP_CACHE_MAX_SIZE →
       processedMessageTimestamps s' = live ++ [entry])
  ∧ (Z.of_nat (length cached) >= DEDUP_CACHE_MAX_SIZE →
       Z.of_nat (length live) >= DEDUP_CACHE_MAX_SIZE →
       ∃ oldest rest,
         live = oldest :: rest ∧
         processedMessageTimestamps s' = rest ++ [entry] ∧
         (oldest.1 ∉ processedMessageIds s') ∧
         idsSize s' = DEDUP_CACHE_MAX_SIZE).
Proof.
  intros Hs Hk Hdisp. pose proof (reachable_inv s Hs) as Hinv. cbn zeta.
  destruct (deliver_dispatched_state d s k Hs Hk Hdisp) as (sigs & Hinv2 & Hnew & Hpost).
  cbn zeta in *. rewrite Hpost.
  pose proof (idsSize_wf _ (inv_wf _ Hinv2)) as Hsz. 
  rewrite (markMessageProcessed_spec k _ _ _ Hinv2 Hnew). cbn zeta.
  rewrite Hsz. clear Hpost.
  rewrite touchDedupCache_spec in * by apply Hinv.
  cbn [processedMessageIds processedMessageTimestamps recentSignatureTimestamps] in *.
  assert ((if bool_decide (idsSize s > 0)
           then filter (λ e, ¬ identityExpired (tTouch (dEnv d)) e) (processedMessageTimestamps s)
           else processedMessageTimestamps s)
          = filter (λ e, ¬ identityExpired (tTouch (dEnv d)) e) (processedMessageTimestamps s))
    as Hcached.
  { case_bool_decide as Hpos; [done|].
    rewrite (idsSize_wf s) in Hpos by apply Hinv.
    destruct (processedMessageTimestamps s); [done | simpl in Hpos; lia]. }
  rewrite Hcached in *. clear Hcached.
  set (cached := filter _ (processedMessageTimestamps s)) in *.
  set (live := filter _ cached) in *.
  split; [by rewrite elem_of_list_to_set in Hnew|]. split; [done|].
  assert (NoDup (JsMap.keys live)) as Hndl.
  { apply NoDup_keys_filter. apply Hinv2. }
  split_and!.
  - intros Hlt. by rewrite bool_decide_eq_false_2 by lia.
  - intros Hfull Hlt. rewrite bool_decide_eq_true_2 by lia.
    by rewrite bool_decide_eq_false_2 by lia.
  - intros Hfull Hstill. rewrite !bool_decide_eq_true_2 by lia.
    destruct live as [|oldest rest] eqn:Hlive.
    { simpl in Hstill. unfold DEDUP_CACHE_MAX_SIZE in Hstill. lia. }
    exists oldest, rest. cbn [tail]. split_and!; [done|done| |].
    + rewrite elem_of_list_to_set, keys_app, elem_of_app. simpl.
      apply NoDup_cons in Hndl as [Hold _]. intros [Hin|Hin]; [done|].
      apply list_elem_of_singleton in Hin.
      rewrite elem_of_list_to_set in Hnew. apply Hnew.
      rewrite <- Hin.
      assert (oldest ∈ cached) as Hc.
      { assert (oldest ∈ live) as Hl by (rewrite Hlive; left).
        unfold live in Hl. by apply list_elem_of_filter in Hl as [_ Hl]. }
      unfold JsMap.keys. apply list_elem_of_fmap. by exists oldest.
    + assert (dedup_wf (mkDedup (list_to_set (JsMap.keys (rest ++ [(k, tMark (dEnv d))])))
                                (rest ++ [(k, tMark (dEnv d))]) sigs)) as Hwf'.
      { split; cbn [processedMessageIds processedMessageTimestamps recentSignatureTimestamps];
          [|done|apply Hinv2].
        rewrite keys_app. apply NoDup_app. apply NoDup_cons in Hndl as [Hold Hrest].
        split_and!; [done| |apply NoDup_singleton].
        intros x Hx Hx'. simpl in Hx'. apply list_elem_of_singleton in Hx'. subst x.
        rewrite elem_of_list_to_set in Hnew.
        revert Hx. eapply not_in_keys_sublist; [|exact Hnew].
        etransitivity; [apply (sublist_tail (oldest :: rest))|].
        rewrite <- Hlive. apply sublist_filter. }
      rewrite (idsSize_wf _ Hwf'). cbn. rewrite length_app. simpl.
      assert (length live ≤ length cached)%nat as Hle by apply length_filter.
      rewrite Hlive in Hle. pose proof (inv_size _ Hinv2) as Hmax. rewrite Hsz in Hmax.
      cbn [length] in *. lia.
Qed.

(** C4. In every state the module reaches, the identity cache ([Set] and
    [Map] alike) holds at most [DEDUP_CACHE_MAX_SIZE] entries. When a
    delivery is dispatched, its key [k] is new; with [cached] the entries
    left by the sweep at the start of the callback: below capacity [k] is
    appended; at capacity the expired entries are purged first ([live]),
    and if that leaves the cache full, exactly the first entry in
    insertion order is removed before [k] is appended. *)
Theorem identity_cache_capacity :
  ∀ s, reachable s →
    idsSize s <= DEDUP_CACHE_MAX_SIZE
    ∧ Z.of_nat (length (processedMessageTimestamps s)) <= DEDUP_CACHE_MAX_SIZE
    ∧ ∀ d k,
        identityKey d = Some k → dispatched (deliver d s) ≠ [] →
        let cached := filter (λ e, ¬ identityExpired (tTouch (dEnv d)) e)
                             (processedMessageTimestamps s) in
        let live := filter (λ e, ¬ identityExpired (tMarkSweep (dEnv d)) e) cached in
        let s' := stateAfter (deliver d s) in
        let entry := (k, tMark (dEnv d)) in
        (k ∉ JsMap.keys cached)
        ∧ processedMessageIds s' = list_to_set (JsMap.keys (processedMessageTimestamps s'))
        ∧ (Z.of_nat (length cached) < DEDUP_CACHE_MAX_SIZE →
             processedMessageTimestamps s' = cached ++ [entry])
        ∧ (Z.of_nat (length cached) >= DEDUP_CACHE_MAX_SIZE →
             Z.of_nat (length live) < DEDUP_CACHE_MAX_SIZE →
             processedMessageTimestamps s' = live ++ [entry])
        ∧ (Z.of_nat (length cached) >= DEDUP_CACHE_MAX_SIZE →
             Z.of_nat (length live) >= DEDUP_CACHE_MAX_SIZE →
             ∃ oldest rest,
               live = oldest :: rest ∧
               processedMessageTimestamps s' = rest ++ [entry] ∧
               (oldest.1 ∉ processedMessageIds s') ∧
               idsSize s' = DEDUP_CACHE_MAX_SIZE).
Proof.
  intros s Hs. pose proof (reachable_inv s Hs) as Hinv.
  split; [apply Hinv|]. split.
  - rewrite <- (idsSize_wf s) by apply Hinv. apply Hinv.
  - intros d k Hk Hdisp. by apply dispatch_inserts_after_eviction.
Qed.

(* ===================================================================== *)
(** ** The identity cache does fill up *)
(* ===================================================================== *)

Lemma string_length_append (a b : string) :
  String.length (a +:+ b) = (String.length a + String.length b)%nat.
Proof. induction a as [|ch a IH]; simpl; [done | f_equal; apply IH]. Qed.

Lemma string_append_inj_l (a b1 b2 : string) : a +:+ b1 = a +:+ b2 → b1 = b2.
Proof. induction a as [|ch a IH]; cbn; [done|]. intros [= H]. by apply IH. Qed.

Lemma string_append_inj_r (a1 a2 b : string) : a1 +:+ b = a2 +:+ b → a1 = a2.
Proof.
  revert a2. induction a1 as [|ch a1 IH]; intros [|ch2 a2] H.
  - done.
  - apply (f_equal String.length) in H. rewrite !string_length_append in H. simpl in H. lia.
  - apply (f_equal String.length) in H. rewrite !string_length_append in H. simpl in H. lia.
  - simpl in H. injection H as -> H. f_equal. by apply IH.
Qed.

#[local] Instance fillKey_inj : Inj (=) (=) fillKey.
Proof.
  intros i j H. unfold fillKey in H.
  apply string_append_inj_l in H. by apply (inj pretty).
Qed.

#[local] Instance fillSignature_inj : Inj (=) (=) fillSignature.
Proof.
  intros i j H. unfold fillSignature in H.
  apply (string_append_inj_l "default:c:u") in H.
  apply string_append_inj_r in H. by apply (inj pretty).
Qed.

Lemma filled_keys n :
  JsMap.keys (processedMessageTimestamps (filled n)) = fillKey <$> seq 0 n.
Proof. unfold JsMap.keys. cbn. by rewrite <- list_fmap_compose. Qed.

Lemma filled_signature_keys n :
  JsMap.keys (recentSignatureTimestamps (filled n)) = fillSignature <$> seq 0 n.
Proof. unfold JsMap.keys. cbn. by rewrite <- list_fmap_compose. Qed.

Lemma filled_wf n : dedup_wf (filled n).
Proof.
  split.
  - rewrite filled_keys. apply NoDup_fmap; [apply _ | apply NoDup_seq].
  - by rewrite filled_keys.
  - rewrite filled_signature_keys. apply NoDup_fmap; [apply _ | apply NoDup_seq].
Qed.

Lemma filled_size n : idsSize (filled n) = Z.of_nat n.
Proof.
  rewrite (idsSize_wf _ (filled_wf n)). cbn. by rewrite length_fmap, length_seq.
Qed.

Lemma filter_all {A} (P : A → Prop) `{!∀ x, Decision (P x)} (l : list A) :
  Forall P l → filter P l = l.
Proof.
  induction 1 as [|x l Hx _ IH]; [done|]. rewrite filter_cons, decide_True by done.
  by rewrite IH.
Qed.

Lemma filled_nothing_expired n :
  filter (λ e, ¬ identityExpired 1000 e) (processedMessageTimestamps (filled n))
    = processedMessageTimestamps (filled n)
  ∧ filter (λ e, ¬ signatureExpired 1000 e) (recentSignatureTimestamps (filled n))
    = recentSignatureTimestamps (filled n).
Proof.
  split; apply filter_all; cbn; apply Forall_fmap, Forall_forall; intros i _; cbn.
  - unfold identityExpired, DEDUP_CACHE_TTL. cbn. lia.
  - unfold signatureExpired, SIGNATURE_TTL_MS. cbn. lia.
Qed.

Lemma filled_touch n : touchDedupCache 1000 1000 (filled n) = filled n.
Proof.
  rewrite (touchDedupCache_spec _ _ _ (filled_wf n)). cbn zeta.
  destruct (filled_nothing_expired n) as [-> ->].
  case_bool_decide; by rewrite filled_keys.
Qed.

(** One more event of the family: it is dispatched, and below capacity the
    caches grow by its two keys. *)
Lemma fill_step n :
  dedup_inv (filled n) →
  dispatched (deliver (fillEvent n) (filled n)) ≠ [] ∧
  (Z.of_nat n < DEDUP_CACHE_MAX_SIZE →
   stateAfter (deliver (fillEvent n) (filled n)) = filled (S n)).
Proof.
  intros Hinv.
  assert (rawOf (fillEvent n)
          = Some (mkRaw "text" (Some "hello") None ("u" +:+ pretty n) None "c" None None
                        (Some ("m" +:+ pretty n)))) as Hraw by done.
  rewrite (deliver_parsed (fillEvent n) _ (filled n) Hraw). cbn zeta.
  change (tNow (dEnv (fillEvent n))) with 1000.
  change (tTouch (dEnv (fillEvent n))) with 1000.
  change (tMarkSweep (dEnv (fillEvent n))) with 1000.
  change (tMark (dEnv (fillEvent n))) with 1000.
  change (dAccountId (fillEvent n)) with "default".
  rewrite filled_touch.
  change (dedupeIdOf "default" _) with (fillKey n).
  change (signatureOf "default" _) with (fillSignature n).
  assert (fillKey n ∉ processedMessageIds (filled n)) as Hnew.
  { cbn. rewrite elem_of_list_to_set, list_elem_of_fmap.
    intros (i & Hi%(inj fillKey) & Hin). subst i. apply elem_of_seq in Hin. lia. }
  unfold isMessageProcessed. rewrite bool_decide_eq_false_2 by done.
  rewrite (isSignatureDuplicate_spec _ _ _ (filled_wf n)). cbn zeta.
  destruct (filled_nothing_expired n) as [_ ->].
  assert (fillSignature n ∉ JsMap.keys (recentSignatureTimestamps (filled n))) as Hsig.
  { rewrite filled_signature_keys, list_elem_of_fmap.
    intros (i & Hi%(inj fillSignature) & Hin). subst i. apply elem_of_seq in Hin. lia. }
  rewrite (proj2 (get_None _ _) Hsig). cbn [fst snd].
  split; [done|]. intros Hlt. cbn [stateAfter].
  rewrite keys_set_new by done.
  set (s2 := mkDedup _ _ _).
  assert (dedup_inv s2) as Hinv2.
  { destruct Hinv as [[Hnd Hids Hsnd] Hkeys Hsize]. split; [split| |]; try done.
    subst s2. cbn [recentSignatureTimestamps].
    rewrite keys_app. apply NoDup_app. split_and!; [done| |apply NoDup_singleton].
    intros x Hx Hx'. cbn in Hx'. apply list_elem_of_singleton in Hx'. by subst x. }
  rewrite (markMessageProcessed_spec (fillKey n) 1000 1000 s2 Hinv2 Hnew). cbn zeta.
  assert (idsSize s2 = Z.of_nat n) as -> by apply filled_size.
  rewrite bool_decide_eq_false_2 by lia.
  unfold filled. rewrite seq_S, !fmap_app. cbn.
  f_equal. rewrite fmap_app. cbn. by rewrite <- list_fmap_compose.
Qed.

Lemma filled_reachable n : Z.of_nat n <= DEDUP_CACHE_MAX_SIZE → reachable (filled n).
Proof.
  induction n as [|n IH]; intros Hn.
  - apply reach_init.
  - assert (reachable (filled n)) as Hr by (apply IH; lia).
    destruct (fill_step n (reachable_inv _ Hr)) as [_ Hstep].
    rewrite <- Hstep by lia. by apply reach_deliver.
Qed.

(** With the cache at capacity, the next dispatched event of the family
    evicts the entry inserted first and nothing else. *)
Lemma full_cache_evicts_oldest n :
  Z.of_nat n = DEDUP_CACHE_MAX_SIZE →
  reachable (filled n) ∧
  idsSize (filled n) = DEDUP_CACHE_MAX_SIZE ∧
  let s' := stateAfter (deliver (fillEvent n) (filled n)) in
  head (processedMessageTimestamps (filled n)) = Some (fillKey 0, 1000) ∧
  processedMessageTimestamps s'
    = tail (processedMessageTimestamps (filled n)) ++ [(fillKey n, 1000)] ∧
  (fillKey 0 ∉ processedMessageIds s') ∧
  idsSize s' = DEDUP_CACHE_MAX_SIZE.
Proof.
  intros Hn.
  assert (reachable (filled n)) as Hr by (apply filled_reachable; lia).
  split; [done|]. split; [by rewrite filled_size|].
  destruct (fill_step n (reachable_inv _ Hr)) as [Hdisp _].
  assert (identityKey (fillEvent n) = Some (fillKey n)) as Hkey by done.
  destruct (dispatch_inserts_after_eviction _ (fillEvent n) (fillKey n) Hr Hkey Hdisp)
    as (_ & _ & _ & _ & Hevict).
  change (tTouch (dEnv (fillEvent n))) with 1000 in Hevict.
  change (tMarkSweep (dEnv (fillEvent n))) with 1000 in Hevict.
  change (tMark (dEnv (fillEvent n))) with 1000 in Hevict.
  destruct (filled_nothing_expired n) as [Hkeep _].
  rewrite !Hkeep in Hevict.
  assert (Z.of_nat (length (processedMessageTimestamps (filled n)))
          >= DEDUP_CACHE_MAX_SIZE) as Hfull.
  { rewrite <- (idsSize_wf _ (filled_wf n)), filled_size. lia. }
  destruct (Hevict Hfull Hfull) as (oldest & rest & Hts & Hts' & Hgone & Hsize).
  cbn zeta. rewrite Hts', Hts. cbn [tail head].
  assert (oldest = (fillKey 0, 1000)) as ->; [|done].
  destruct n as [|m]; [unfold DEDUP_CACHE_MAX_SIZE in Hn; lia|].
  unfold filled in Hts. cbn [processedMessageTimestamps] in Hts.
  cbn [seq fmap list_fmap] in Hts. injection Hts as <- _. reflexivity.
Qed.

(** The cache does reach its capacity. *)
Lemma cache_fills_and_evicts_oldest :
  reachable (filled capacity) ∧
  idsSize (filled capacity) = DEDUP_CACHE_MAX_SIZE ∧
  let s' := stateAfter (deliver (fillEvent capacity) (filled capacity)) in
  head (processedMessageTimestamps (filled capacity)) = Some (fillKey 0, 1000) ∧
  processedMessageTimestamps s'
    = tail (processedMessageTimestamps (filled capacity)) ++ [(fillKey capacity, 1000)] ∧
  (fillKey 0 ∉ processedMessageIds s') ∧
  idsSize s' = DEDUP_CACHE_MAX_SIZE.
Proof. apply full_cache_evicts_oldest. unfold capacity. by rewrite Z2Nat.id. Qed.

(* ===================================================================== *)
(** ** Identity cache: how long an entry lasts *)
(* ===================================================================== *)

(** What one run of the callback makes of the identity [Map]: nothing (the
    payload does not parse), the sweep of its start (the event is dropped),
    or that sweep, the purge and the eviction of [markMessageProcessed],
    and one entry added at the end. *)
Lemma deliver_timestamps_cases d s :
  reachable s →
  let cached := filter (λ e, ¬ identityExpired (tTouch (dEnv d)) e)
                       (processedMessageTimestamps s) in
  let live := filter (λ e, ¬ identityExpired (tMarkSweep (dEnv d)) e) cached in
  let m' := processedMessageTimestamps (stateAfter (deliver d s)) in
  m' = processedMessageTimestamps s ∨ m' = cached
  ∨ ∃ e, m' = cached ++ [e] ∨ m' = live ++ [e]
         ∨ (Z.of_nat (length live) >= DEDUP_CACHE_MAX_SIZE ∧ m' = tail live ++ [e]).
Proof.
  intros Hs. cbn zeta. pose proof (reachable_inv s Hs) as Hinv.
  destruct (rawOf d) as [raw|] eqn:Hraw; [|left; by rewrite deliver_malformed].
  right.
  destruct (dispatched (deliver d s)) as [|a l] eqn:Hdisp.
  - left. revert Hdisp. rewrite (deliver_parsed d raw s Hraw). cbn zeta.
    pose proof (touchDedupCache_wf (tNow (dEnv d)) (tTouch (dEnv d)) s (inv_wf _ Hinv)) as Hwf1.
    rewrite (isSignatureDuplicate_spec _ _ _ Hwf1). cbn [fst snd].
    rewrite touchDedupCache_spec by apply Hinv.
    cbn [processedMessageIds processedMessageTimestamps recentSignatureTimestamps].
    assert ((if bool_decide (idsSize s > 0)
             then filter (λ e, ¬ identityExpired (tTouch (dEnv d)) e)
                         (processedMessageTimestamps s)
             else processedMessageTimestamps s)
            = filter (λ e, ¬ identityExpired (tTouch (dEnv d)) e)
                     (processedMessageTimestamps s)) as ->.
    { case_bool_decide as Hpos; [done|].
      rewrite (idsSize_wf s) in Hpos by apply Hinv.
      destruct (processedMessageTimestamps s); [done | simpl in Hpos; lia]. }
    destruct (isMessageProcessed _ _); [done|].
    by destruct (match JsMap.get _ _ with Some _ => _ | None => _ end).
  - right.
    assert (identityKey d = Some (dedupeIdOf (dAccountId d) raw)) as Hk
      by (unfold identityKey; by rewrite Hraw).
    assert (dispatched (deliver d s) ≠ []) as Hne by (by rewrite Hdisp).
    destruct (dispatch_inserts_after_eviction s d _ Hs Hk Hne)
      as (_ & _ & Hbelow & Hpurged & Hevict).
    exists (dedupeIdOf (dAccountId d) raw, tMark (dEnv d)).
    set (cached := filter _ (processedMessageTimestamps s)) in *.
    set (live := filter _ cached) in *.
    destruct (decide (Z.of_nat (length cached) < DEDUP_CACHE_MAX_SIZE)) as [Hlt|Hge].
    { left. by apply Hbelow. }
    destruct (decide (Z.of_nat (length live) < DEDUP_CACHE_MAX_SIZE)) as [Hlt'|Hge'].
    { right. left. apply Hpurged; [lia|done]. }
    right. right. split; [lia|].
    destruct Hevict as (oldest & rest & Hlive & Hts & _); [lia|lia|].
    by rewrite Hts, Hlive.
Qed.

Lemma filter_around {A} (P : A → Prop) `{!∀ x, Decision (P x)} (older newer : list A) x :
  P x → filter P (older ++ x :: newer) = filter P older ++ x :: filter P newer.
Proof. intros Hx. by rewrite filter_app, filter_cons_True. Qed.

(** An identity entry that no sweep of a run finds expired and that has
    fewer than [DEDUP_CACHE_MAX_SIZE - 1] entries after it is still in the
    [Map] after the run, with at most one more entry after it. *)
Lemma identity_entry_step s d k t older newer :
  reachable s →
  processedMessageTimestamps s = older ++ (k, t) :: newer →
  tTouch (dEnv d) - t <= DEDUP_CACHE_TTL →
  tMarkSweep (dEnv d) - t <= DEDUP_CACHE_TTL →
  Z.of_nat (length newer) + 1 < DEDUP_CACHE_MAX_SIZE →
  ∃ older' newer',
    processedMessageTimestamps (stateAfter (deliver d s)) = older' ++ (k, t) :: newer'
    ∧ (length newer' ≤ S (length newer))%nat.
Proof.
  intros Hs Hm Htouch Hsweep Hroom.
  pose proof (deliver_timestamps_cases d s Hs) as Hcases. cbn zeta in Hcases.
  rewrite Hm in Hcases.
  set (P1 := λ e : string * Z, ¬ identityExpired (tTouch (dEnv d)) e) in *.
  set (P2 := λ e : string * Z, ¬ identityExpired (tMarkSweep (dEnv d)) e) in *.
  assert (P1 (k, t)) as H1 by (unfold P1, identityExpired; cbn; lia).
  assert (P2 (k, t)) as H2 by (unfold P2, identityExpired; cbn; lia).
  rewrite (filter_around P1 older newer (k, t) H1) in Hcases.
  rewrite (filter_around P2 _ _ (k, t) H2) in Hcases.
  pose proof (length_filter P1 newer) as Hl1.
  pose proof (length_filter P2 (filter P1 newer)) as Hl2.
  destruct Hcases as [->|[->|[e [->|[->|[Hfull ->]]]]]].
  - exists older, newer. split; [done|lia].
  - exists (filter P1 older), (filter P1 newer). split; [done|lia].
  - exists (filter P1 older), (filter P1 newer ++ [e]).
    split; [by rewrite <- app_assoc|]. rewrite length_app. cbn. lia.
  - exists (filter P2 (filter P1 older)), (filter P2 (filter P1 newer) ++ [e]).
    split; [by rewrite <- app_assoc|]. rewrite length_app. cbn. lia.
  - destruct (filter P2 (filter P1 older)) as [|x older'].
    + cbn [app length] in Hfull. lia.
    + exists older', (filter P2 (filter P1 newer) ++ [e]).
      split; [cbn; by rewrite <- app_assoc|]. rewrite length_app. cbn. lia.
Qed.

(** The same through a sequence of deliveries: each can add one entry after
    the given one, and the eviction takes the first entry of the [Map]. *)
Lemma identity_entry_outlasts mids : ∀ s k t older newer,
  reachable s →
  processedMessageTimestamps s = older ++ (k, t) :: newer →
  Forall (λ d, tTouch (dEnv d) - t <= DEDUP_CACHE_TTL
               ∧ tMarkSweep (dEnv d) - t <= DEDUP_CACHE_TTL) mids →
  Z.of_nat (length newer + length mids) < DEDUP_CACHE_MAX_SIZE →
  JsMap.get k (processedMessageTimestamps (deliverAll mids s)) = Some t.
Proof.
  induction mids as [|d mids IH]; intros s k t older newer Hs Hm Hall Hroom.
  - cbn. apply elem_get; [apply (reachable_inv s Hs)|].
    rewrite Hm. apply elem_of_app. right. left.
  - apply Forall_cons in Hall as [[Htouch Hsweep] Hall]. cbn [length] in Hroom.
    destruct (identity_entry_step s d k t older newer Hs Hm Htouch Hsweep)
      as (older' & newer' & Hm' & Hlen); [lia|].
    cbn [deliverAll foldl].
    apply (IH (stateAfter (deliver d s)) k t older' newer'); [by constructor|done|done|lia].
Qed.

(** The entry of a dispatched event outlasts fewer than
    [DEDUP_CACHE_MAX_SIZE] deliveries whose sweeps do not find it expired,
    and it suppresses an event with its key that arrives after them. *)
Lemma dispatched_key_suppresses s d1 mids d2 k :
  reachable s →
  identityKey d1 = Some k → identityKey d2 = Some k →
  dispatched (deliver d1 s) ≠ [] →
  Z.of_nat (length mids) < DEDUP_CACHE_MAX_SIZE →
  Forall (λ d, tTouch (dEnv d) <= tTouch (dEnv d2)
               ∧ tMarkSweep (dEnv d) <= tTouch (dEnv d2)) mids →
  tTouch (dEnv d2) - tMark (dEnv d1) <= DEDUP_CACHE_TTL →
  let s2 := deliverAll mids (stateAfter (deliver d1 s)) in
  JsMap.get k (processedMessageTimestamps s2) = Some (tMark (dEnv d1))
  ∧ dispatched (deliver d2 s2) = [] ∧ returned (deliver d2 s2) = SUCCESS.
Proof.
  intros Hs Hk1 Hk2 Hdisp Hfew Hmids Hfresh. cbn zeta.
  set (s1 := stateAfter (deliver d1 s)).
  assert (reachable s1) as Hs1 by (by constructor).
  assert (∃ older, processedMessageTimestamps s1 = older ++ [(k, tMark (dEnv d1))])
    as [older Hm].
  { destruct (dispatch_inserts_after_eviction s d1 k Hs Hk1 Hdisp)
      as (_ & _ & Hbelow & Hpurged & Hevict).
    set (cached := filter _ (processedMessageTimestamps s)) in *.
    set (live := filter _ cached) in *.
    destruct (decide (Z.of_nat (length cached) < DEDUP_CACHE_MAX_SIZE)) as [Hlt|Hge].
    { exists cached. by apply Hbelow. }
    destruct (decide (Z.of_nat (length live) < DEDUP_CACHE_MAX_SIZE)) as [Hlt'|Hge'].
    { exists live. apply Hpurged; [lia|done]. }
    destruct Hevict as (oldest & rest & _ & Hts & _); [lia|lia|]. by exists rest. }
  assert (JsMap.get k (processedMessageTimestamps (deliverAll mids s1))
          = Some (tMark (dEnv d1))) as Hget.
  { apply (identity_entry_outlasts mids s1 k _ older []); [done|done| |cbn; lia].
    eapply Forall_impl; [exact Hmids|]. cbn. lia. }
  split; [done|].
  assert (dedup_wf (deliverAll mids s1)) as Hwf.
  { by apply reachable_inv, reachable_deliverAll. }
  unfold identityKey in Hk2. destruct (rawOf d2) as [raw2|] eqn:Hraw2; [|done].
  injection Hk2 as Hk2.
  rewrite (deliver_parsed d2 raw2 _ Hraw2). cbn zeta. rewrite Hk2.
  by rewrite (fresh_entry_survives_touch _ _ _ k _ Hwf Hget Hfresh).
Qed.

(** C1, as the code has it. Two events with the same dedup identity key
    [k]: if the first is dispatched, fewer than [DEDUP_CACHE_MAX_SIZE]
    events are delivered in between, none of them later than the second,
    and the sweep of the second runs no more than [DEDUP_CACHE_TTL] after
    the first was marked, then the entry of the first is still cached when
    the second arrives, and the second makes no call of the processor and
    returns [SUCCESS]. *)
Theorem identity_duplicate_not_dispatched :
  ∀ s d1 mids d2 k,
    reachable s →
    identityKey d1 = Some k → identityKey d2 = Some k →
    dispatched (deliver d1 s) ≠ [] →
    Z.of_nat (length mids) < DEDUP_CACHE_MAX_SIZE →
    Forall (λ d, tTouch (dEnv d) <= tTouch (dEnv d2)
                 ∧ tMarkSweep (dEnv d) <= tTouch (dEnv d2)) mids →
    tTouch (dEnv d2) - tMark (dEnv d1) <= DEDUP_CACHE_TTL →
    let s2 := deliverAll mids (stateAfter (deliver d1 s)) in
    let r2 := deliver d2 s2 in
    JsMap.get k (processedMessageTimestamps s2) = Some (tMark (dEnv d1))
    ∧ dispatched r2 = [] ∧ returned r2 = SUCCESS.
Proof.
  intros s d1 mids d2 k Hs Hk1 Hk2 Hdisp Hfew Hmids Hfresh.
  by apply dispatched_key_suppresses.
Qed.

(* ===================================================================== *)
(** ** Supervisor: starting *)
(* ===================================================================== *)

(** Unfolding of the field updates of a world. *)
Ltac world_simpl :=
  cbv beta iota zeta delta
    [setCurrentPromise setCurrentStop setCurrent setSessions setPromises
     setClients setAborted setListeners emit
     currentClient currentAccountId currentPromise currentStop sessions promises
     clients aborted listeners effects].

Lemma insert_at_length {A} (l l' : list A) (x y : A) :
  <[length l := x]> (l ++ y :: l') = l ++ x :: l'.
Proof.
  rewrite <- (Nat.add_0_r (length l)) at 1. by rewrite insert_app_r.
Qed.

Lemma settle_frame p st w :
  let w' := settle p st w in
  currentClient w' = currentClient w ∧ currentAccountId w' = currentAccountId w ∧
  currentPromise w' = currentPromise w ∧ currentStop w' = currentStop w ∧
  sessions w' = sessions w ∧ clients w' = clients w ∧ aborted w' = aborted w ∧
  listeners w' = listeners w ∧ effects w' = effects w ∧
  length (promises w') = length (promises w).
Proof.
  unfold settle. destruct (promises w !! p) as [[]|]; simpl; split_and!; try done.
  by rewrite length_insert.
Qed.

Lemma removeListener_frame sig sid w :
  let w' := removeListener sig sid w in
  currentClient w' = currentClient w ∧ currentAccountId w' = currentAccountId w ∧
  currentPromise w' = currentPromise w ∧ currentStop w' = currentStop w ∧
  sessions w' = sessions w ∧ promises w' = promises w ∧ clients w' = clients w ∧
  aborted w' = aborted w ∧ effects w' = effects w.
Proof. destruct sig; simpl; done. Qed.

Lemma addListener_frame sig sid w :
  let w' := addListener sig sid w in
  currentClient w' = currentClient w ∧ currentAccountId w' = currentAccountId w ∧
  currentPromise w' = currentPromise w ∧ currentStop w' = currentStop w ∧
  sessions w' = sessions w ∧ promises w' = promises w ∧ clients w' = clients w ∧
  aborted w' = aborted w ∧ effects w' = effects w.
Proof. destruct sig; simpl; [case_decide|]; done. Qed.

(** Finalizing the session that owns the current client leaves the monitor
    inactive. *)
Lemma finalizeResolve_own_inactive sid ss w :
  sessions w !! sid = Some ss → sStopped ss = false →
  currentClient w = Some (sClient ss) →
  isMonitorActive (finalizeResolve sid w) = false.
Proof.
  intros Hs Hst Hc. unfold finalizeResolve, isMonitorActive. rewrite Hs, Hst.
  destruct (settle_frame (sPromise ss) Fulfilled
              (emit (CallResolve (sPromise ss))
                 (cleanup ss (removeListener (sSignal ss) sid (markStopped sid ss w)))))
    as (-> & _).
  unfold cleanup. simpl.
  destruct (removeListener_frame (sSignal ss) sid (markStopped sid ss w)) as (-> & _).
  simpl. by rewrite Hc, decide_True.
Qed.

Lemma finalizeReject_own_inactive sid ss err w :
  sessions w !! sid = Some ss → sStopped ss = false →
  currentClient w = Some (sClient ss) →
  isMonitorActive (finalizeReject sid err w) = false.
Proof.
  intros Hs Hst Hc. unfold finalizeReject, isMonitorActive. rewrite Hs, Hst.
  destruct (settle_frame (sPromise ss) (Rejected err)
              (emit (CallReject (sPromise ss) err)
                 (cleanup ss (removeListener (sSignal ss) sid (markStopped sid ss w)))))
    as (-> & _).
  unfold cleanup. simpl.
  destruct (removeListener_frame (sSignal ss) sid (markStopped sid ss w)) as (-> & _).
  simpl. by rewrite Hc, decide_True.
Qed.

(** A start without configuration while no session is active: nothing but
    the rejected promise of the call itself is created. *)
Lemma start_idle_without_config opts env w :
  currentClient w = None → dingtalkCfgOf opts = None →
  monitorDingtalkProvider opts env w =
    (setPromises (promises w ++ [Rejected ErrConfigNotFound]) w, length (promises w)).
Proof.
  intros Hidle Hcfg. unfold monitorDingtalkProvider, monitorBody. simpl.
  rewrite Hidle, Hcfg. simpl. f_equal. unfold setPromises. simpl. f_equal.
  apply insert_at_length.
Qed.

(** A start while a session is active and the account test does not fire:
    the promise of the call is resolved with [currentPromise]. *)
Lemma start_join opts env w c q :
  currentClient w = Some c → currentPromise w = Some q →
  (∀ cur, currentAccountId w = Some cur → cur = "" ∨ cur = accountIdOf opts) →
  monitorDingtalkProvider opts env w =
    (setPromises (promises w ++ [Follows q]) w, length (promises w)).
Proof.
  intros Hc Hq Hacct. unfold monitorDingtalkProvider, monitorBody. simpl.
  rewrite Hc, Hq.
  assert (match currentAccountId w with
          | Some cur => truthy_string cur && negb (bool_decide (cur = accountIdOf opts))
          | None => false
          end = false) as ->.
  { destruct (currentAccountId w) as [cur|]; [|done].
    destruct (Hacct cur eq_refl) as [->| ->]; [done|].
    rewrite bool_decide_eq_true_2 by done. apply andb_false_r. }
  simpl. f_equal. unfold setPromises. simpl. f_equal. apply insert_at_length.
Qed.

(** A start for another account while a session of a non-empty account is
    active: the promise of the call is rejected and nothing else changes. *)
Lemma start_conflict opts env w c cur :
  currentClient w = Some c → currentAccountId w = Some cur →
  cur ≠ "" → cur ≠ accountIdOf opts →
  monitorDingtalkProvider opts env w =
    (setPromises (promises w ++ [Rejected (ErrAlreadyRunning cur)]) w, length (promises w)).
Proof.
  intros Hc Hcur Hne Hdiff. unfold monitorDingtalkProvider, monitorBody. simpl.
  rewrite Hc, Hcur. simpl.
  assert (truthy_string cur = true) as -> by (by destruct cur).
  rewrite bool_decide_eq_false_2 by done. simpl.
  f_equal. unfold setPromises. simpl. f_equal. apply insert_at_length.
Qed.

Lemma executor_active client acct sig env p w :
  currentClient w = Some client →
  isMonitorActive (executor client acct sig env p w) = true →
  signalAborted sig w = false ∧
  executor client acct sig env p w =
    emit (Connect client)
      (emit (RegisterCallback client acct)
         (addListener sig (length (sessions w))
            (setCurrentStop (Some (length (sessions w)))
               (setSessions (sessions w ++ [mkSession client false sig p]) w)))).
Proof.
  intros Hcur. unfold executor.
  set (sid := length (sessions w)).
  set (ss := mkSession client false sig p).
  set (w2 := setCurrentStop _ _).
  assert (sessions w2 !! sid = Some ss) as Hlook by (by apply list_lookup_middle).
  assert (currentClient w2 = Some (sClient ss)) as Hcur2 by done.
  assert (signalAborted sig w2 = signalAborted sig w) as -> by (by destruct sig).
  destruct (signalAborted sig w) eqn:Habort.
  { by rewrite (finalizeResolve_own_inactive sid ss w2 Hlook eq_refl Hcur2). }
  destruct (addListener_frame sig sid w2) as (Hl1 & _ & _ & _ & Hl2 & _).
  destruct (registerThrows env).
  { rewrite (finalizeReject_own_inactive sid ss);
      [done | by rewrite Hl2 | done | by rewrite Hl1]. }
  destruct (connectThrows env); [|done].
  rewrite (finalizeReject_own_inactive sid ss);
    [done | by simpl; rewrite Hl2 | done | by simpl; rewrite Hl1].
Qed.

Lemma monitorBody_idle_start opts env w cfg :
  currentClient w = None → dingtalkCfgOf opts = Some cfg → createThrows env = false →
  monitorBody opts env w =
    (setCurrentPromise (Some (length (promises w)))
       (executor (clients w) (accountIdOf opts) (abortSignal opts) env (length (promises w))
          (mkWorld (Some (clients w)) (Some (accountIdOf opts)) (currentPromise w)
                   (currentStop w) (sessions w) (promises w ++ [Pending]) (S (clients w))
                   (aborted w) (listeners w)
                   (effects w ++ [CreateClient (clients w) cfg]))),
     inr (length (promises w))).
Proof.
  intros Hidle Hcfg Hcreate. unfold monitorBody. by rewrite Hidle, Hcfg, Hcreate.
Qed.

#[local] Arguments dingtalkCfgOf : simpl never.
#[local] Arguments accountIdOf : simpl never.
#[local] Arguments executor : simpl never.
#[local] Arguments signalAborted : simpl never.
#[local] Arguments addListener : simpl never.
#[local] Arguments removeListener : simpl never.
#[local] Arguments finalizeResolve : simpl never.
#[local] Arguments finalizeReject : simpl never.
#[local] Arguments settle : simpl never.

Lemma start_success_shape opts env w :
  currentClient w = None →
  isMonitorActive (monitorDingtalkProvider opts env w).1 = true →
  ∃ cfg, dingtalkCfgOf opts = Some cfg ∧
         signalAborted (abortSignal opts) w = false ∧
         monitorDingtalkProvider opts env w = (startedWorld opts cfg w, length (promises w)).
Proof.
  destruct w as [cc ca cp cs ss ps cl ab ls ef]. cbn [currentClient]. intros ->.
  unfold monitorDingtalkProvider.
  destruct (dingtalkCfgOf opts) as [cfg|] eqn:Hcfg.
  2: { unfold monitorBody. cbn. by rewrite Hcfg. }
  destruct (createThrows env) eqn:Hcreate.
  { unfold monitorBody. cbn. by rewrite Hcfg, Hcreate. }
  set (w0 := setPromises _ _).
  rewrite (monitorBody_idle_start opts env w0 cfg eq_refl Hcfg Hcreate).
  subst w0. world_simpl.
  remember (executor _ _ _ _ _ _) as wE eqn:HE.
  cbn -[isMonitorActive]. intros Hact.
  assert (isMonitorActive wE = true) as Hact' by exact Hact.
  rewrite HE in Hact'.
  apply executor_active in Hact' as [Hab Hex]; [|reflexivity].
  exists cfg. split_and!; [done | by destruct (abortSignal opts) |].
  clear Hact. rewrite Hex in HE. subst wE. f_equal. unfold startedWorld.
  rewrite length_app. cbn [length]. rewrite Nat.add_1_r.
  assert (<[length ps := Follows (S (length ps))]> ((ps ++ [Pending]) ++ [Pending])
          = ps ++ [Follows (S (length ps)); Pending]) as Hins.
  { rewrite <- app_assoc. apply (insert_at_length ps [Pending]). }
  unfold addListener.
  destruct (abortSignal opts) as [g|]; world_simpl.
  - destruct (decide ((g, length ss) ∈ ls)); world_simpl;
      rewrite Hins, <- !app_assoc; reflexivity.
  - rewrite Hins, <- !app_assoc. reflexivity.
Qed.

(* ===================================================================== *)
(** ** Supervisor: finalizing *)
(* ===================================================================== *)

Lemma finalizeResolve_running sid ss w :
  sessions w !! sid = Some ss → sStopped ss = false →
  finalizeResolve sid w = finalized sid ss Fulfilled (CallResolve (sPromise ss)) w.
Proof.
  intros Hs Hst. unfold finalizeResolve. rewrite Hs, Hst.
  destruct w as [cc ca cp cs sl ps cl ab ls ef]. destruct ss as [c st g p].
  unfold finalized, settle, cleanup, removeListener, markStopped. cbn in *.
  destruct g as [g|]; cbn; case_decide; cbn.
  all: try rewrite bool_decide_eq_true_2 by done.
  all: try rewrite bool_decide_eq_false_2 by done.
  all: destruct (ps !! p) as [[]|]; world_simpl; by rewrite <- ?app_assoc.
Qed.

Lemma finalizeReject_running sid ss err w :
  sessions w !! sid = Some ss → sStopped ss = false →
  finalizeReject sid err w = finalized sid ss (Rejected err) (CallReject (sPromise ss) err) w.
Proof.
  intros Hs Hst. unfold finalizeReject. rewrite Hs, Hst.
  destruct w as [cc ca cp cs sl ps cl ab ls ef]. destruct ss as [c st g p].
  unfold finalized, settle, cleanup, removeListener, markStopped. cbn in *.
  destruct g as [g|]; cbn; case_decide; cbn.
  all: try rewrite bool_decide_eq_true_2 by done.
  all: try rewrite bool_decide_eq_false_2 by done.
  all: destruct (ps !! p) as [[]|]; world_simpl; by rewrite <- ?app_assoc.
Qed.

Lemma finalizeResolve_idle sid w :
  (∀ ss, sessions w !! sid = Some ss → sStopped ss = true) →
  finalizeResolve sid w = w.
Proof.
  intros H. unfold finalizeResolve. destruct (sessions w !! sid) as [ss|]; [|done].
  by rewrite (H ss eq_refl).
Qed.

Lemma calls_after_finalize (f : Effect → bool) ef c e :
  length (filter (λ x, f x = true) (ef ++ [Disconnect c; e]))
  = (length (filter (λ x, f x = true) ef)
     + (if f (Disconnect c) then 1 else 0) + (if f e then 1 else 0))%nat.
Proof.
  rewrite filter_app, length_app. rewrite !filter_cons, filter_nil.
  destruct (f (Disconnect c)), (f e); repeat case_decide; try done; cbn; lia.
Qed.

Section watching.
Variables sid c p out : nat.
Variable sig : option nat.
Variable acct : string.

(** Another session being finalized does not touch the watched one. *)
Lemma watched_finalize_other fin sid' w :
  sid' ≠ sid → watched sid c p out sig acct fin w →
  watched sid c p out sig acct fin (finalizeResolve sid' w).
Proof.
  intros Hne Hw.
  destruct (sessions w !! sid') as [ss'|] eqn:Hs';
    [|by rewrite finalizeResolve_idle by (by rewrite Hs')].
  destruct (sStopped ss') eqn:Hst';
    [by rewrite finalizeResolve_idle by (rewrite Hs'; by intros ? [= <-])|].
  rewrite (finalizeResolve_running sid' ss' w Hs' Hst').
  destruct Hw as [Hses Hcl Hacc Hcur Hstop Hp Hout Hres Hrej Hoth].
  destruct (Hoth sid' ss' Hne Hs') as [Hp' Hc'].
  assert (bool_decide (currentClient w = Some (sClient ss')) = false) as Hmine.
  { apply bool_decide_eq_false_2. rewrite Hcl. destruct fin; [done|]. by intros [= ->]. }
  unfold finalized. rewrite Hmine. split; cbn.
  - by rewrite list_lookup_insert_ne.
  - done.
  - done.
  - done.
  - done.
  - destruct (promises w !! sPromise ss') as [[]|]; try done.
    by rewrite list_lookup_insert_ne.
  - destruct (promises w !! sPromise ss') as [[]|] eqn:Hq; try done.
    rewrite list_lookup_insert_ne; [done|]. intros Heq. rewrite Heq in Hq. congruence.
  - unfold resolveCalls in *. cbn. rewrite calls_after_finalize. cbn.
    rewrite bool_decide_eq_false_2 by done. lia.
  - unfold rejectCalls in *. cbn. rewrite calls_after_finalize. cbn. lia.
  - intros sid'' ss'' Hne'' Hlook.
    destruct (decide (sid'' = sid')) as [->|Hne3].
    + apply list_lookup_insert_Some in Hlook as [(_ & <- & _)|[? _]]; [done|done].
    + rewrite list_lookup_insert_ne in Hlook by done. by apply (Hoth sid'').
Qed.

(** The watched session being finalized: exactly one call of [resolve]. *)
Lemma watched_finalize_self w :
  watched sid c p out sig acct false w →
  watched sid c p out sig acct true (finalizeResolve sid w).
Proof.
  intros [Hses Hcl Hacc Hcur Hstop Hp Hout Hres Hrej Hoth].
  rewrite (finalizeResolve_running sid _ w Hses eq_refl).
  unfold finalized. cbn. rewrite Hcl, Hp, bool_decide_eq_true_2 by done.
  pose proof (lookup_lt_Some _ _ _ Hses) as Hlt.
  pose proof (lookup_lt_Some _ _ _ Hp) as Hltp.
  split; cbn.
  - by rewrite list_lookup_insert_eq.
  - done.
  - done.
  - done.
  - done.
  - by rewrite list_lookup_insert_eq.
  - rewrite list_lookup_insert_ne; [done|]. intros Heq. rewrite Heq in Hp. congruence.
  - unfold resolveCalls in *. cbn. rewrite calls_after_finalize. cbn.
    rewrite bool_decide_eq_true_2 by done. lia.
  - unfold rejectCalls in *. cbn. rewrite calls_after_finalize. cbn. lia.
  - intros sid'' ss'' Hne'' Hlook.
    rewrite list_lookup_insert_ne in Hlook by done. by apply (Hoth sid'').
Qed.

Lemma watched_finalize_done w :
  watched sid c p out sig acct true w → finalizeResolve sid w = w.
Proof.
  intros Hw. apply finalizeResolve_idle. intros ss.
  rewrite (wa_session _ _ _ _ _ _ _ _ Hw). by intros [= <-].
Qed.

(** Whoever is finalized, a finalized session stays so, and a running one
    stays running or becomes finalized. *)
Lemma watched_finalize_any fin sid' w :
  watched sid c p out sig acct fin w →
  watched sid c p out sig acct (fin || bool_decide (sid' = sid)) (finalizeResolve sid' w).
Proof.
  intros Hw. destruct (decide (sid' = sid)) as [->|Hne].
  - rewrite bool_decide_eq_true_2 by done. rewrite orb_true_r.
    destruct fin; [by rewrite watched_finalize_done | by apply watched_finalize_self].
  - rewrite bool_decide_eq_false_2 by done. rewrite orb_false_r.
    by apply watched_finalize_other.
Qed.

Lemma watched_listeners fin w l :
  watched sid c p out sig acct fin w → watched sid c p out sig acct fin (setListeners l w).
Proof. intros []. by split. Qed.

Lemma watched_aborted fin w a :
  watched sid c p out sig acct fin w → watched sid c p out sig acct fin (setAborted a w).
Proof. intros []. by split. Qed.

Lemma finalizeResolve_aborted sid' w : aborted (finalizeResolve sid' w) = aborted w.
Proof.
  destruct (sessions w !! sid') as [ss'|] eqn:Hs';
    [|by rewrite finalizeResolve_idle by (by rewrite Hs')].
  destruct (sStopped ss') eqn:Hst';
    [by rewrite finalizeResolve_idle by (rewrite Hs'; by intros ? [= <-])|].
  by rewrite (finalizeResolve_running sid' ss' w Hs' Hst').
Qed.

Lemma finalizeResolve_keeps_listener g sid' w :
  sid' ≠ sid → (g, sid) ∈ listeners w → (g, sid) ∈ listeners (finalizeResolve sid' w).
Proof.
  intros Hne Hin.
  destruct (sessions w !! sid') as [ss'|] eqn:Hs';
    [|by rewrite finalizeResolve_idle by (by rewrite Hs')].
  destruct (sStopped ss') eqn:Hst';
    [by rewrite finalizeResolve_idle by (rewrite Hs'; by intros ? [= <-])|].
  rewrite (finalizeResolve_running sid' ss' w Hs' Hst'). unfold finalized. cbn.
  destruct (sSignal ss') as [g'|]; [|done].
  apply list_elem_of_filter. split; [|done]. by intros [= _ ->].
Qed.

Lemma tracked_finalize fin sid' w :
  tracked sid c p out sig acct fin w →
  tracked sid c p out sig acct (fin || bool_decide (sid' = sid)) (finalizeResolve sid' w).
Proof.
  intros [Hw Hl]. split; [by apply watched_finalize_any|].
  intros [-> Hne]%orb_false_iff g Hg. apply bool_decide_eq_false_1 in Hne.
  by apply finalizeResolve_keeps_listener, Hl.
Qed.

Lemma tracked_runListener fin g' sid' w :
  tracked sid c p out sig acct fin w →
  ∃ fin', tracked sid c p out sig acct fin' (runListener g' w sid') ∧
          (fin = true → fin' = true) ∧
          (sig = Some g' → sid' = sid → fin' = true).
Proof.
  intros [Hw Hl]. unfold runListener, handleAbort.
  destruct (decide ((g', sid') ∈ listeners w)) as [Hin|Hnin].
  - destruct (decide (sid' = sid)) as [->|Hne].
    + exists true. split_and!; [|done|done]. split; [|done].
      pose proof (watched_finalize_any fin sid _
                    (watched_listeners fin w (filter (λ l, l ≠ (g', sid)) (listeners w)) Hw))
        as Hfin.
      by rewrite bool_decide_eq_true_2, orb_true_r in Hfin.
    + exists fin. split_and!; [|done|done].
      pose proof (tracked_finalize fin sid' (removeListener (Some g') sid' w)) as Hfin.
      rewrite bool_decide_eq_false_2, orb_false_r in Hfin by done.
      apply Hfin. split; [by apply watched_listeners|].
      intros Hf g Hg. cbn. apply list_elem_of_filter. split; [|by apply Hl].
      by intros [= _ ->].
  - exists fin. split_and!; [by split | done |].
    intros Hg ->. destruct fin; [done|]. exfalso. apply Hnin. by apply Hl.
Qed.

Lemma runListener_aborted g' sid' w : aborted (runListener g' w sid') = aborted w.
Proof.
  unfold runListener, handleAbort. case_decide; [|done].
  by rewrite finalizeResolve_aborted.
Qed.

Lemma tracked_listeners_fold g' l : ∀ fin w,
  tracked sid c p out sig acct fin w →
  ∃ fin', tracked sid c p out sig acct fin' (foldl (runListener g') w l) ∧
          (fin = true → fin' = true) ∧
          (sig = Some g' → sid ∈ l → fin' = true) ∧
          aborted (foldl (runListener g') w l) = aborted w.
Proof.
  induction l as [|sid' l IH]; intros fin w Hw; cbn.
  - exists fin. split_and!; [done|done| |done]. by intros _ ?%elem_of_nil.
  - destruct (tracked_runListener fin g' sid' w Hw) as (fin1 & H1 & Hmono1 & Hhit1).
    destruct (IH fin1 _ H1) as (fin2 & H2 & Hmono2 & Hhit2 & Hab2).
    exists fin2. split_and!; [done| | |].
    + auto.
    + intros Hg [->|Hin]%elem_of_cons; auto.
    + by rewrite Hab2, runListener_aborted.
Qed.

(** Each step of the monitor's life after the start keeps the invariant;
    a finalized session stays finalized, and the abort of its signal
    finalizes it. *)
Lemma supervised_runOp fin o w :
  supervised sid c p out sig acct fin w →
  ∃ fin', supervised sid c p out sig acct fin' (runOp o w) ∧
          (fin = true → fin' = true) ∧
          (∀ g, sig = Some g → o = OpAbort g → fin' = true).
Proof.
  intros [Ht Hab]. destruct o as [|g'|sid'|sid']; cbn.
  - exists true. split_and!; [|done|done]. split; [|done].
    destruct Ht as [Hw Hl]. unfold stopDingtalkMonitor, stopHook.
    rewrite (wa_stop _ _ _ _ _ _ _ _ Hw). destruct fin.
    + rewrite (wa_client _ _ _ _ _ _ _ _ Hw). by split.
    + split; [by apply watched_finalize_self | done].
  - unfold fireAbort. destruct (decide (g' ∈ aborted w)) as [Hin|Hnin].
    + exists fin. split_and!; [by split | done |].
      intros g Hg [= ->]. destruct fin; [done|]. by destruct (Hab eq_refl g Hg).
    + set (l := (filter (λ x, x.1 = g') (listeners w)).*2).
      destruct (tracked_listeners_fold g' l fin (setAborted ({[g']} ∪ aborted w) w))
        as (fin' & Ht' & Hmono & Hhit & Hab').
      { destruct Ht as [Hw Hl]. split; [by apply watched_aborted | done]. }
      assert (sig = Some g' → fin' = true) as Hfire.
      { intros Hg. destruct fin; [by apply Hmono|]. apply Hhit; [done|].
        subst l. apply list_elem_of_fmap. exists (g', sid). split; [done|].
        apply list_elem_of_filter. split; [done|]. by apply Ht. }
      exists fin'. split_and!; [|done|by intros g Hg [= ->]; apply Hfire].
      split; [done|]. intros Hf g Hg. rewrite Hab'. cbn.
      destruct fin; [by rewrite Hmono in Hf|].
      apply not_elem_of_union. split; [|by apply Hab].
      apply not_elem_of_singleton. intros ->. by rewrite Hfire in Hf.
  - exists (fin || bool_decide (sid' = sid)). split_and!; [|by intros ->|done].
    split; [by apply tracked_finalize|].
    intros [-> _]%orb_false_iff g Hg. unfold handleAbort.
    rewrite finalizeResolve_aborted. by apply Hab.
  - exists (fin || bool_decide (sid' = sid)). split_and!; [|by intros ->|done].
    split; [by apply tracked_finalize|].
    intros [-> _]%orb_false_iff g Hg. unfold stopHook.
    rewrite finalizeResolve_aborted. by apply Hab.
Qed.

Lemma supervised_runOps ops : ∀ fin w,
  supervised sid c p out sig acct fin w →
  ∃ fin', supervised sid c p out sig acct fin' (runOps ops w) ∧
          (fin = true → fin' = true) ∧
          (∀ g, sig = Some g → OpAbort g ∈ ops → fin' = true).
Proof.
  induction ops as [|o ops IH]; intros fin w Hs; cbn.
  - exists fin. split_and!; [done|done|]. by intros g _ ?%elem_of_nil.
  - destruct (supervised_runOp fin o w Hs) as (fin1 & H1 & Hmono1 & Hhit1).
    destruct (IH fin1 _ H1) as (fin2 & H2 & Hmono2 & Hhit2).
    exists fin2. split_and!; [done|auto|].
    intros g Hg [<-|Hin]%elem_of_cons; eauto.
Qed.
End watching.

(* ===================================================================== *)
(** ** Supervisor: names in use stay below the allocation counters *)
(* ===================================================================== *)

Lemma world_ok_grow w w' es :
  world_ok w →
  sessions w' = sessions w →
  (length (promises w) ≤ length (promises w'))%nat →
  (clients w ≤ clients w')%nat →
  effects w' = effects w ++ es → Forall (effectInRange w') es →
  world_ok w'.
Proof.
  intros [Hses Heff] Hs Hp Hc He Hes. split.
  - rewrite Hs. eapply Forall_impl; [exact Hses|]. cbn. intros ss [? ?]. lia.
  - rewrite He. apply Forall_app. split; [|done].
    eapply Forall_impl; [exact Heff|]. intros [] ?; cbn in *; try done; lia.
Qed.

Lemma finalized_ok sid ss st e w :
  world_ok w → sessions w !! sid = Some ss →
  (e = CallResolve (sPromise ss) ∨ ∃ err, e = CallReject (sPromise ss) err) →
  world_ok (finalized sid ss st e w).
Proof.
  intros [Hses Heff] Hlook He.
  pose proof (Forall_lookup_1 _ _ _ _ Hses Hlook) as [Hp Hc]. cbn in Hp, Hc.
  assert (length (match promises w !! sPromise ss with
                  | Some Pending => <[sPromise ss := st]> (promises w)
                  | _ => promises w
                  end) = length (promises w)) as Hlen.
  { destruct (promises w !! sPromise ss) as [[]|]; try done. by rewrite length_insert. }
  unfold finalized. set (ps' := match promises w !! sPromise ss with
                                | Some Pending => _ | _ => _ end) in *.
  split; cbn.
  - apply Forall_insert.
    + eapply Forall_impl; [exact Hses|]. cbn. intros ? [? ?]. by rewrite Hlen.
    + cbn. by rewrite Hlen.
  - apply Forall_app. split.
    + eapply Forall_impl; [exact Heff|]. intros [] ?; cbn in *; try done; by rewrite Hlen.
    + repeat apply Forall_cons_2; [done| |apply Forall_nil_2].
      destruct He as [->|[err ->]]; cbn; by rewrite Hlen.
Qed.

Lemma finalizeResolve_ok sid w : world_ok w → world_ok (finalizeResolve sid w).
Proof.
  intros Hok.
  destruct (sessions w !! sid) as [ss|] eqn:Hs;
    [|by rewrite finalizeResolve_idle by (by rewrite Hs)].
  destruct (sStopped ss) eqn:Hst;
    [by rewrite finalizeResolve_idle by (rewrite Hs; by intros ? [= <-])|].
  rewrite (finalizeResolve_running sid ss w Hs Hst). apply finalized_ok; auto.
Qed.

Lemma finalizeReject_ok sid err w : world_ok w → world_ok (finalizeReject sid err w).
Proof.
  intros Hok. unfold finalizeReject.
  destruct (sessions w !! sid) as [ss|] eqn:Hs; [|done].
  destruct (sStopped ss) eqn:Hst; [done|].
  pose proof (finalizeReject_running sid ss err w Hs Hst) as Hrun.
  unfold finalizeReject in Hrun. rewrite Hs, Hst in Hrun. rewrite Hrun.
  apply finalized_ok; eauto.
Qed.

Lemma removeListener_ok sig sid w : world_ok w → world_ok (removeListener sig sid w).
Proof. intros []. destruct sig; by split. Qed.

Lemma addListener_ok sig sid w : world_ok w → world_ok (addListener sig sid w).
Proof. intros []. unfold addListener. destruct sig; [case_decide|]; by split. Qed.

Lemma runOp_ok o w : world_ok w → world_ok (runOp o w).
Proof.
  intros Hok. destruct o as [|g|sid|sid]; cbn.
  - unfold stopDingtalkMonitor, stopHook. destruct (currentStop w) as [sid|].
    + by apply finalizeResolve_ok.
    + destruct (currentClient w) as [c|]; [|done].
      by apply (world_ok_grow w _ [Disconnect c]); try done; repeat constructor.
  - unfold fireAbort. case_decide; [done|].
    assert (world_ok (setAborted ({[g]} ∪ aborted w) w)) as Hok1
      by (destruct Hok; by split).
    revert Hok1. generalize (setAborted ({[g]} ∪ aborted w) w).
    induction ((filter (λ l, l.1 = g) (listeners w)).*2) as [|sid l IH]; intros w1 Hok1;
      cbn; [done|].
    apply IH. unfold runListener, handleAbort. case_decide; [|done].
    by apply finalizeResolve_ok, removeListener_ok.
  - by apply finalizeResolve_ok.
  - by apply finalizeResolve_ok.
Qed.

Lemma executor_ok client acct sig env p w :
  world_ok w → (client < clients w)%nat → (p < length (promises w))%nat →
  world_ok (executor client acct sig env p w).
Proof.
  intros Hok Hc Hp. unfold executor.
  set (w2 := setCurrentStop _ _).
  assert (world_ok w2) as Hok2.
  { destruct Hok as [Hses Heff]. split; cbn; [|done].
    apply Forall_app. split; [done|]. by repeat constructor. }
  destruct (signalAborted sig w2); [by apply finalizeResolve_ok|].
  pose proof (addListener_ok sig (length (sessions w)) w2 Hok2) as Hok3.
  destruct (registerThrows env); [by apply finalizeReject_ok|].
  set (w3 := addListener _ _ _) in *.
  assert (world_ok (emit (Connect client) (emit (RegisterCallback client acct) w3))) as Hok5.
  { apply (world_ok_grow w3 _ [RegisterCallback client acct; Connect client]); try done.
    - cbn. by rewrite <- app_assoc.
    - by repeat constructor. }
  destruct (connectThrows env); [by apply finalizeReject_ok | done].
Qed.

Lemma monitorBody_ok opts env w : world_ok w → world_ok (monitorBody opts env w).1.
Proof.
  intros Hok. unfold monitorBody.
  destruct (currentClient w) as [c|].
  { destruct (match currentAccountId w with Some _ => _ | None => _ end); [done|].
    by destruct (currentPromise w). }
  destruct (dingtalkCfgOf opts) as [cfg|]; [|done].
  destruct (createThrows env); [done|]. cbn zeta. cbn [fst].
  set (w3 := setPromises _ _).
  assert (world_ok w3) as Hok3.
  { apply (world_ok_grow w _ [CreateClient (clients w) cfg]); try done.
    - cbn. rewrite length_app. lia.
    - cbn. lia.
    - by repeat constructor. }
  pose proof (executor_ok (clients w) (accountIdOf opts) (abortSignal opts) env
                (length (promises w)) w3 Hok3) as Hex.
  destruct Hex as [Hs He]; [cbn; lia | cbn; rewrite length_app; cbn; lia |].
  by split.
Qed.

Lemma start_ok opts env w : world_ok w → world_ok (monitorDingtalkProvider opts env w).1.
Proof.
  intros Hok. unfold monitorDingtalkProvider.
  set (w0 := setPromises (promises w ++ [Pending]) w).
  assert (world_ok w0) as Hok0.
  { apply (world_ok_grow w _ []); try done.
    - cbn. rewrite length_app. lia.
    - cbn. by rewrite app_nil_r. }
  pose proof (monitorBody_ok opts env w0 Hok0) as Hb.
  destruct (monitorBody opts env w0) as [w1 [err|q]]; cbn [fst] in *.
  - apply (world_ok_grow w1 _ []); try done; cbn;
      [by rewrite length_insert | by rewrite app_nil_r].
  - apply (world_ok_grow w1 _ []); try done; cbn;
      [by rewrite length_insert | by rewrite app_nil_r].
Qed.

Lemma reachableWorld_ok w : reachableWorld w → world_ok w.
Proof.
  induction 1 as [|opts env w _ IH|o w _ IH].
  - split; apply Forall_nil_2.
  - by apply start_ok.
  - by apply runOp_ok.
Qed.

(* ===================================================================== *)
(** ** Supervisor: the session left by a start *)
(* ===================================================================== *)

Lemma filter_none {A} (P : A → Prop) `{!∀ x, Decision (P x)} (l : list A) :
  Forall (λ x, ¬ P x) l → filter P l = [].
Proof.
  induction 1 as [|x l Hx _ IH]; [done|]. rewrite filter_cons. by rewrite decide_False.
Qed.

Lemma fresh_promise_uncalled q w :
  world_ok w → (length (promises w) ≤ q)%nat →
  resolveCalls q w = 0%nat ∧ rejectCalls q w = 0%nat.
Proof.
  intros [_ Heff] Hq. unfold resolveCalls, rejectCalls.
  rewrite !filter_none; [done| |].
  - eapply Forall_impl; [exact Heff|]. intros [] Hr; cbn in *; try done.
    rewrite bool_decide_eq_false_2; [done|lia].
  - eapply Forall_impl; [exact Heff|]. intros [] Hr; cbn in *; try done.
    rewrite bool_decide_eq_false_2; [done|lia].
Qed.

Lemma started_supervised opts cfg w :
  world_ok w → signalAborted (abortSignal opts) w = false →
  supervised (length (sessions w)) (clients w) (S (length (promises w)))
             (length (promises w)) (abortSignal opts) (accountIdOf opts) false
             (startedWorld opts cfg w).
Proof.
  intros Hok Hab. unfold startedWorld.
  destruct (fresh_promise_uncalled (S (length (promises w))) w Hok) as [Hres Hrej]; [lia|].
  split; [split|].
  - split; cbn.
    + by apply list_lookup_middle.
    + done.
    + done.
    + done.
    + done.
    + rewrite lookup_app_r by lia. by replace (S _ - _)%nat with 1%nat by lia.
    + by apply list_lookup_middle.
    + unfold resolveCalls in *. cbn. rewrite filter_app, length_app, Hres. done.
    + unfold rejectCalls in *. cbn. rewrite filter_app, length_app, Hrej. done.
    + intros sid' ss' Hne Hlook. apply lookup_app_Some in Hlook as [Hin|[Hge Hin]].
      * destruct Hok as [Hses _].
        pose proof (Forall_lookup_1 _ _ _ _ Hses Hin) as [Hp Hc]. cbn in *. lia.
      * destruct (sid' - length (sessions w))%nat eqn:Hd; [lia|done].
  - intros _ g Hg. rewrite Hg. cbn. unfold addListener. case_decide; [done|]. cbn.
    apply elem_of_app. right. left.
  - intros _ g Hg. rewrite Hg in Hab. cbn in Hab. by apply bool_decide_eq_false_1 in Hab.
Qed.

(** The session left by a start, followed through later stops and aborts. *)
Lemma started_then_ops w opts env ops :
  reachableWorld w → isMonitorActive w = false →
  isMonitorActive (monitorDingtalkProvider opts env w).1 = true →
  ∃ cfg fin,
    monitorDingtalkProvider opts env w = (startedWorld opts cfg w, length (promises w)) ∧
    supervised (length (sessions w)) (clients w) (S (length (promises w)))
               (length (promises w)) (abortSignal opts) (accountIdOf opts) fin
               (runOps ops (startedWorld opts cfg w)) ∧
    (∀ g, abortSignal opts = Some g → OpAbort g ∈ ops → fin = true).
Proof.
  intros Hreach Hidle Hact.
  assert (currentClient w = None) as Hnone.
  { unfold isMonitorActive in Hidle. by destruct (currentClient w). }
  destruct (start_success_shape opts env w Hnone Hact) as (cfg & Hcfg & Hab & Hshape).
  pose proof (started_supervised opts cfg w (reachableWorld_ok w Hreach) Hab) as Hsup.
  destruct (supervised_runOps _ _ _ _ _ _ ops false _ Hsup) as (fin & Hfin & _ & Hhit).
  by exists cfg, fin.
Qed.

(** C9, as the code has it. A start that finds no session and leaves one
    running with abort signal [g]: after any sequence of stops, aborts and
    repeated runs of abort listeners and stop hooks in which [g] is
    aborted, [resolve] of the session's completion promise has been called
    exactly once and [reject] never, the promise and the promise returned
    by the start are fulfilled, and [isMonitorActive] is false. *)
Theorem abort_resolves_exactly_once :
  ∀ w opts env g ops,
    reachableWorld w → isMonitorActive w = false →
    abortSignal opts = Some g →
    let r := monitorDingtalkProvider opts env w in
    isMonitorActive r.1 = true →
    OpAbort g ∈ ops →
    let w' := runOps ops r.1 in
    ∃ p, currentPromise r.1 = Some p ∧
         promises r.1 !! r.2 = Some (Follows p) ∧
         resolveCalls p w' = 1%nat ∧ rejectCalls p w' = 0%nat ∧
         promises w' !! p = Some Fulfilled ∧
         outcome 1 w' r.2 = Some Fulfilled ∧
         isMonitorActive w' = false.
Proof.
  intros w opts env g ops Hreach Hidle Hsig r Hact Hin w'.
  destruct (started_then_ops w opts env ops Hreach Hidle Hact)
    as (cfg & fin & Hshape & [[Hw _] _] & Hfin).
  subst r w'. rewrite Hshape in *. cbn [fst snd] in *.
  rewrite (Hfin g Hsig Hin) in Hw. clear Hfin.
  exists (S (length (promises w))).
  destruct Hw as [Hses Hcl Hacc Hcur Hstop Hp Hout Hres Hrej Hoth].
  split_and!; try done.
  - cbn. by apply list_lookup_middle.
  - cbn [outcome]. rewrite Hout. by rewrite Hp.
  - unfold isMonitorActive. by rewrite Hcl.
Qed.

(** A start that joins a running session succeeds without reading its
    abort signal: with a session running under signal 7, a start for the
    same account with signal 8 returns a pending promise, and the abort of
    signal 8 leaves that promise pending and the monitor active. *)
Lemma abort_of_joined_start_resolves_nothing : ¬ abortAfterAnyStartResolves.
Proof.
  intros Hall.
  specialize (Hall runningWorld (startOpts "default" (Some 8%nat)) collaboratorsOk 8%nat
                [OpAbort 8]).
  destruct Hall as [_ Hactive].
  - exact (rw_start _ _ _ rw_init).
  - reflexivity.
  - reflexivity.
  - reflexivity.
  - left.
  - vm_compute in Hactive. discriminate.
Qed.

(* ===================================================================== *)
(** ** Supervisor: a second start *)
(* ===================================================================== *)

(** C6, as the code has it. While the session left by a first start is
    still active (after any stops and aborts that left it so), a start for
    the same account creates nothing but its own promise: no client,
    session, listener or collaborator call is added; the promise it
    returns is another object than the promise returned by the first
    start, and both are resolved with the same completion promise. *)
Theorem join_follows_same_completion :
  ∀ w opts1 env1 ops opts2 env2,
    reachableWorld w → isMonitorActive w = false →
    let r1 := monitorDingtalkProvider opts1 env1 w in
    isMonitorActive r1.1 = true →
    let w2 := runOps ops r1.1 in
    isMonitorActive w2 = true →
    accountIdOf opts2 = accountIdOf opts1 →
    let r2 := monitorDingtalkProvider opts2 env2 w2 in
    ∃ p, currentPromise w2 = Some p ∧
         promises r2.1 !! r1.2 = Some (Follows p) ∧
         promises r2.1 !! r2.2 = Some (Follows p) ∧
         r2.2 ≠ r1.2 ∧
         r2.1 = setPromises (promises w2 ++ [Follows p]) w2.
Proof.
  intros w opts1 env1 ops opts2 env2 Hreach Hidle r1 Hact w2 Hact2 Hacct r2.
  destruct (started_then_ops w opts1 env1 ops Hreach Hidle Hact)
    as (cfg & fin & Hshape & [[Hw _] _] & _).
  subst r2 w2 r1. rewrite Hshape in *. cbn [fst snd] in *.
  destruct Hw as [Hses Hcl Hacc Hcur Hstop Hp Hout Hres Hrej Hoth].
  destruct fin.
  { unfold isMonitorActive in Hact2. by rewrite Hcl in Hact2. }
  rewrite (start_join opts2 env2 _ (clients w) (S (length (promises w)))); [| done | done |].
  2: { rewrite Hacc. intros cur [= <-]. by right. }
  exists (S (length (promises w))). cbn [fst snd setPromises promises].
  split_and!; [done| | | |done].
  - by apply lookup_app_l_Some.
  - by apply list_lookup_middle.
  - apply lookup_lt_Some in Hout. lia.
Qed.

(** The promise objects differ: two starts for account ["default"] from
    the initial world return the promises numbered 0 and 2. *)
Lemma join_returns_another_object : ¬ joinReturnsSameObject.
Proof.
  intros Hall.
  specialize (Hall initWorld (startOpts "default" None) collaboratorsOk []
                (startOpts "default" None) collaboratorsOk rw_init eq_refl eq_refl
                eq_refl eq_refl).
  vm_compute in Hall. discriminate.
Qed.

(** C8, as the code has it. A start without DingTalk configuration made
    while no session is active fails with the configuration error; no
    collaborator is called and nothing is changed except that the rejected
    promise of the call exists. *)
Theorem start_without_config_when_idle :
  ∀ w opts env,
    isMonitorActive w = false → dingtalkCfgOf opts = None →
    let r := monitorDingtalkProvider opts env w in
    promises r.1 !! r.2 = Some (Rejected ErrConfigNotFound) ∧
    effects r.1 = effects w ∧
    r.1 = setPromises (promises w ++ [Rejected ErrConfigNotFound]) w.
Proof.
  intros w opts env Hidle Hcfg r.
  assert (currentClient w = None) as Hnone.
  { unfold isMonitorActive in Hidle. by destruct (currentClient w). }
  subst r. rewrite (start_idle_without_config opts env w Hnone Hcfg). cbn.
  split_and!; [|done|done]. by apply list_lookup_middle.
Qed.

(** While a session is active the configuration is not looked at: a start
    without configuration for the running account joins the session. *)
Lemma missing_config_joins_when_active : ¬ missingConfigAlwaysFails.
Proof.
  intros Hall.
  specialize (Hall (monitorDingtalkProvider (startOpts "default" None) collaboratorsOk
                        initWorld).1
                (mkOpts None None None) collaboratorsOk).
  assert (reachableWorld (monitorDingtalkProvider (startOpts "default" None) collaboratorsOk
                            initWorld).1) as Hr by (constructor; constructor).
  specialize (Hall Hr eq_refl). vm_compute in Hall. discriminate.
Qed.

(** C7 at the failing input. A session runs for the account [""]; a start
    for the account ["other"] is not rejected: the promise it returns is
    resolved with the running session's completion promise. *)
Theorem conflict_missed_for_empty_account :
  let r1 := monitorDingtalkProvider (startOpts "" None) collaboratorsOk initWorld in
  let r2 := monitorDingtalkProvider (startOpts "other" None) collaboratorsOk r1.1 in
  isMonitorActive r1.1 = true ∧
  getCurrentAccountId r1.1 = Some "" ∧
  accountIdOf (startOpts "other" None) = "other" ∧
  currentPromise r1.1 = Some 1%nat ∧
  promises r2.1 !! r2.2 = Some (Follows 1) ∧
  outcome 1 r2.1 r2.2 = Some Pending.
Proof. vm_compute. by split_and!. Qed.

(** For a running account whose name is not empty the conflict is
    detected, and the session is left as it is. *)
Lemma conflict_detected_for_named_account w opts env c cur :
  currentClient w = Some c → currentAccountId w = Some cur →
  cur ≠ "" → accountIdOf opts ≠ cur →
  let r := monitorDingtalkProvider opts env w in
  promises r.1 !! r.2 = Some (Rejected (ErrAlreadyRunning cur)) ∧
  isMonitorActive r.1 = true ∧
  getCurrentAccountId r.1 = Some cur ∧
  currentPromise r.1 = currentPromise w ∧
  (∀ q, (q < length (promises w))%nat → promises r.1 !! q = promises w !! q) ∧
  sessions r.1 = sessions w ∧ effects r.1 = effects w ∧ listeners r.1 = listeners w.
Proof.
  intros Hc Hcur Hne Hdiff r. subst r.
  rewrite (start_conflict opts env w c cur) by done. cbn.
  unfold isMonitorActive, getCurrentAccountId. cbn. rewrite Hc.
  split_and!; try done.
  - by apply list_lookup_middle.
  - intros q Hq. by apply lookup_app_l.
Qed.

(* ===================================================================== *)
(** ** The theorems at concrete inputs *)
(* ===================================================================== *)

(** Event A, an unrelated event half a second later, and the redelivery of
    A one second after A. *)
Lemma identity_duplicate_not_dispatched_witness :
  let mids := [textEvent "m7" "bye" "c1" "u2" 1500] in
  let s2 := deliverAll mids (stateAfter (deliver eventA emptyDedup)) in
  identityKey eventA = Some "default:m1" ∧ identityKey eventA' = Some "default:m1" ∧
  dispatched (deliver eventA emptyDedup) ≠ [] ∧
  JsMap.get "default:m1" (processedMessageTimestamps s2) = Some 1000 ∧
  dispatched (deliver eventA' s2) = [] ∧
  returned (deliver eventA' s2) = SUCCESS.
Proof.
  cbn zeta.
  assert (dispatched (deliver eventA emptyDedup) ≠ []) as Hdisp
    by (vm_compute; discriminate).
  split; [reflexivity|]. split; [reflexivity|]. split; [done|].
  apply (identity_duplicate_not_dispatched emptyDedup eventA
           [textEvent "m7" "bye" "c1" "u2" 1500] eventA' "default:m1"
           reach_init eq_refl eq_refl Hdisp);
    [vm_compute; reflexivity | | vm_compute; discriminate].
  repeat constructor; vm_compute; discriminate.
Defined.

(** Event A, an unrelated event, then event B with the content of A under
    another stream message id, 59 seconds after A. *)
Lemma signature_duplicate_not_dispatched_witness :
  sameContent eventA eventB ∧
  dispatched (deliver eventA emptyDedup) ≠ [] ∧
  tNow (dEnv eventB) - tNow (dEnv eventA) < SIGNATURE_TTL_MS ∧
  let mids := [textEvent "m7" "bye" "c1" "u2" 30000] in
  let r2 := deliver eventB (deliverAll mids (stateAfter (deliver eventA emptyDedup))) in
  dispatched r2 = [] ∧ returned r2 = SUCCESS.
Proof.
  assert (sameContent eventA eventB) as Hsame.
  { eexists _, _. split_and!; reflexivity. }
  assert (dispatched (deliver eventA emptyDedup) ≠ []) as Hdisp
    by (vm_compute; discriminate).
  assert (tNow (dEnv eventB) - tNow (dEnv eventA) < SIGNATURE_TTL_MS) as Hlt
    by (vm_compute; reflexivity).
  split_and!; [done|done|done|].
  apply (signature_duplicate_not_dispatched emptyDedup eventA
           [textEvent "m7" "bye" "c1" "u2" 30000] eventB);
    [constructor | done | done | vm_compute; reflexivity | | done].
  repeat constructor. vm_compute. discriminate.
Defined.

(** Event B reaches the signature check after A and is judged a duplicate:
    the stored timestamp stays 1000. *)
Lemma signature_timestamp_set_unless_duplicate_witness :
  reachesSignatureCheck eventB (stateAfter (deliver eventA emptyDedup)) ∧
  dispatched (deliver eventB (stateAfter (deliver eventA emptyDedup))) = [] ∧
  ∃ t, JsMap.get "default:c1:u1:9bdcc060"
         (recentSignatureTimestamps (stateAfter (deliver eventA emptyDedup))) = Some t ∧
       tNow (dEnv eventB) - t < SIGNATURE_TTL_MS ∧
       JsMap.get "default:c1:u1:9bdcc060"
         (recentSignatureTimestamps
            (stateAfter (deliver eventB (stateAfter (deliver eventA emptyDedup))))) = Some t.
Proof.
  assert (reachesSignatureCheck eventB (stateAfter (deliver eventA emptyDedup))) as Hc.
  { exists "default:m2". split; vm_compute; reflexivity. }
  split; [done|].
  exact (signature_timestamp_set_unless_duplicate
           (stateAfter (deliver eventA emptyDedup)) eventB "default:c1:u1:9bdcc060"
           (reach_deliver eventA emptyDedup reach_init) Hc eq_refl).
Defined.

(** The cache after event A, and the dispatch of a later event from it. *)
Lemma identity_cache_capacity_witness :
  reachable (stateAfter (deliver eventA emptyDedup)) ∧
  idsSize (stateAfter (deliver eventA emptyDedup)) <= DEDUP_CACHE_MAX_SIZE ∧
  processedMessageTimestamps
    (stateAfter (deliver eventB111 (stateAfter (deliver eventA emptyDedup))))
  = [("default:m1", 1000); ("default:m3", 111000)].
Proof.
  assert (reachable (stateAfter (deliver eventA emptyDedup))) as Hr
    by (constructor; constructor).
  destruct (identity_cache_capacity _ Hr) as (Hsize & _ & Hmark).
  split_and!; [done|done|].
  destruct (Hmark eventB111 "default:m3" eq_refl) as (_ & _ & Hbelow & _).
  { vm_compute. discriminate. }
  rewrite Hbelow; [reflexivity | vm_compute; reflexivity].
Defined.

(** A start for account ["default"] with abort signal 7, the abort of
    another signal, and a second start for the same account. *)
Lemma join_follows_same_completion_witness :
  let r1 := monitorDingtalkProvider (startOpts "default" (Some 7%nat)) collaboratorsOk
              initWorld in
  let w2 := runOps [OpAbort 8] r1.1 in
  let r2 := monitorDingtalkProvider (startOpts "default" None) collaboratorsOk w2 in
  isMonitorActive r1.1 = true ∧ isMonitorActive w2 = true ∧
  ∃ p, currentPromise w2 = Some p ∧
       promises r2.1 !! r1.2 = Some (Follows p) ∧
       promises r2.1 !! r2.2 = Some (Follows p) ∧
       r2.2 ≠ r1.2 ∧
       r2.1 = setPromises (promises w2 ++ [Follows p]) w2.
Proof.
  split; [reflexivity|]. split; [reflexivity|].
  exact (join_follows_same_completion initWorld (startOpts "default" (Some 7%nat))
           collaboratorsOk [OpAbort 8] (startOpts "default" None) collaboratorsOk
           rw_init eq_refl eq_refl eq_refl eq_refl).
Defined.

(** A start without any configuration from the initial world. *)
Lemma start_without_config_when_idle_witness :
  let r := monitorDingtalkProvider (mkOpts None None None) collaboratorsOk initWorld in
  isMonitorActive initWorld = false ∧
  promises r.1 !! r.2 = Some (Rejected ErrConfigNotFound) ∧
  effects r.1 = effects initWorld ∧
  r.1 = setPromises (promises initWorld ++ [Rejected ErrConfigNotFound]) initWorld.
Proof.
  split; [reflexivity|].
  exact (start_without_config_when_idle initWorld (mkOpts None None None) collaboratorsOk
           eq_refl eq_refl).
Defined.

(** A start with abort signal 7; then a stop, the abort, the listener once
    more and another stop. *)
Lemma abort_resolves_exactly_once_witness :
  let r := monitorDingtalkProvider (startOpts "default" (Some 7%nat)) collaboratorsOk
             initWorld in
  let w' := runOps [OpStop; OpAbort 7; OpListenerAgain 0; OpStop] r.1 in
  isMonitorActive r.1 = true ∧
  ∃ p, currentPromise r.1 = Some p ∧
       promises r.1 !! r.2 = Some (Follows p) ∧
       resolveCalls p w' = 1%nat ∧ rejectCalls p w' = 0%nat ∧
       promises w' !! p = Some Fulfilled ∧
       outcome 1 w' r.2 = Some Fulfilled ∧
       isMonitorActive w' = false.
Proof.
  split; [reflexivity|].
  apply (abort_resolves_exactly_once initWorld (startOpts "default" (Some 7%nat))
           collaboratorsOk 7%nat [OpStop; OpAbort 7; OpListenerAgain 0; OpStop]
           rw_init eq_refl eq_refl eq_refl).
  right. left.
Defined.

(* ===================================================================== *)
(** ** Traces *)
(* ===================================================================== *)

(** The example of the specification: A is dispatched, its redelivery
    under the same stream message id is not, B with the same content under
    another id 59 seconds later is not, C with the same text from another
    sender is; all four are acknowledged with [SUCCESS]. *)
Example specification_example_trace :
  let rA := deliver eventA emptyDedup in
  let rA' := deliver eventA' (stateAfter rA) in
  let rB := deliver eventB (stateAfter rA') in
  let rC := deliver eventC (stateAfter rB) in
  (length <$> [dispatched rA; dispatched rA'; dispatched rB; dispatched rC])
    = [1; 0; 0; 1]%nat ∧
  (returned <$> [rA; rA'; rB; rC]) = [SUCCESS; SUCCESS; SUCCESS; SUCCESS].
Proof. vm_compute. split; reflexivity. Qed.

(** The signature window is anchored at the dispatched event: the copy at
    61 s is dropped and leaves the timestamp of A in place, the copy at
    111 s is dispatched. *)
Example anchored_window_trace :
  let r0 := deliver eventA emptyDedup in
  let r1 := deliver eventB61 (stateAfter r0) in
  let r2 := deliver eventB111 (stateAfter r1) in
  (length <$> [dispatched r0; dispatched r1; dispatched r2]) = [1; 0; 1]%nat ∧
  recentSignatureTimestamps (stateAfter r1) = [("default:c1:u1:9bdcc060", 1000)] ∧
  recentSignatureTimestamps (stateAfter r2) = [("default:c1:u1:9bdcc060", 111000)].
Proof. vm_compute. split_and!; reflexivity. Qed.

(** An event that the signature check drops is not marked: B61 has the
    content of A and is dropped, and its redelivery under the same stream
    message id 148 seconds later, when the signature of A has expired, is
    dispatched. *)
Example undispatched_first_trace :
  let r0 := deliver eventA emptyDedup in
  let r1 := deliver eventB61 (stateAfter r0) in
  let r2 := deliver eventB209 (stateAfter r1) in
  identityKey eventB61 = identityKey eventB209 ∧
  (length <$> [dispatched r0; dispatched r1; dispatched r2]) = [1; 0; 1]%nat ∧
  processedMessageTimestamps (stateAfter r1) = [("default:m1", 1000)] ∧
  processedMessageTimestamps (stateAfter r2) = [("default:m1", 1000); ("default:m2", 209000)].
Proof. vm_compute. split_and!; reflexivity. Qed.

(** A malformed payload and a processor call that throws are both
    acknowledged with [SUCCESS]; the second has marked its key before. *)
Example failing_events_trace :
  let bad := mkDelivery "default" None (mkRes Malformed None) (mkEnv 1000 1000 1000 1000 false) in
  let thrown := mkDelivery "default" None (dRes eventA) (mkEnv 2000 2000 2000 2000 true) in
  let r1 := deliver bad emptyDedup in
  let r2 := deliver thrown (stateAfter r1) in
  returned r1 = SUCCESS ∧ dispatched r1 = [] ∧
  returned r2 = SUCCESS ∧ length (dispatched r2) = 1%nat ∧
  processedMessageTimestamps (stateAfter r2) = [("default:m1", 2000)].
Proof. vm_compute. split_and!; reflexivity. Qed.

(** A start with abort signal 8 that joins the session started with abort
    signal 7: it registers no listener and calls no collaborator, and the
    abort of signal 8 settles nothing and leaves the monitor active. *)
Example joined_start_abort_trace :
  let r := monitorDingtalkProvider (startOpts "default" (Some 8%nat)) collaboratorsOk
             runningWorld in
  let w' := fireAbort 8 r.1 in
  isMonitorActive runningWorld = true ∧
  promises r.1 !! r.2 = Some (Follows 1) ∧
  outcome 1 w' r.2 = Some Pending ∧
  resolveCalls 1 w' = 0%nat ∧
  effects w' = effects runningWorld ∧
  listeners r.1 = listeners runningWorld ∧
  isMonitorActive w' = true.
Proof. vm_compute. split_and!; reflexivity. Qed.

(** Stopping an idle monitor changes nothing. *)
Example stop_when_idle : stopDingtalkMonitor initWorld = initWorld.
Proof. reflexivity. Qed.

(* ===================================================================== *)
(** ** Further properties of the deduplication engine and the callback *)
(* ===================================================================== *)

Lemma toInt32_mod z : toInt32 z `mod` 2 ^ 32 = z `mod` 2 ^ 32.
Proof.
  unfold toInt32.
  rewrite (Z.mod_eq (z + 2 ^ 31) (2 ^ 32)) by lia.
  replace (z + 2 ^ 31 - 2 ^ 32 * ((z + 2 ^ 31) `div` 2 ^ 32) - 2 ^ 31)
    with (z + (- ((z + 2 ^ 31) `div` 2 ^ 32)) * 2 ^ 32) by lia.
  apply Z.mod_add. lia.
Qed.

Lemma lxor_mod_pow2 a b n :
  0 <= n → Z.lxor a b `mod` 2 ^ n = Z.lxor (a `mod` 2 ^ n) (b `mod` 2 ^ n).
Proof.
  intros Hn. apply Z.bits_inj'. intros i Hi.
  rewrite Z.lxor_spec. destruct (Z.lt_ge_cases i n) as [Hlt|Hge].
  - rewrite !Z.mod_pow2_bits_low by lia. by rewrite Z.lxor_spec.
  - rewrite !Z.mod_pow2_bits_high by lia. done.
Qed.

Lemma hashStep_mod h h' c :
  h `mod` 2 ^ 32 = h' `mod` 2 ^ 32 →
  hashStep h c `mod` 2 ^ 32 = Z.lxor (33 * h') (charCode c) `mod` 2 ^ 32.
Proof.
  intros Hh. unfold hashStep.
  rewrite (lxor_mod_pow2 (toInt32 _)), (lxor_mod_pow2 (33 * h')) by lia.
  rewrite !toInt32_mod. f_equal.
  rewrite Z.add_mod, toInt32_mod by lia.
  rewrite Z.shiftl_mul_pow2 by lia.
  rewrite (Z.mul_mod (toInt32 h)), toInt32_mod by lia.
  rewrite <- Z.mul_mod, <- Z.add_mod by lia.
  replace (h * 2 ^ 5 + h) with (33 * h) by lia.
  rewrite (Z.mul_mod 33 h), Hh, <- Z.mul_mod by lia. done.
Qed.

Lemma hashLoop_mod input : ∀ h h',
  h `mod` 2 ^ 32 = h' `mod` 2 ^ 32 →
  hashLoop h input `mod` 2 ^ 32 =
  foldl (λ h c, Z.lxor (33 * h) (charCode c)) h' (list_ascii_of_string input) `mod` 2 ^ 32.
Proof.
  induction input as [|c rest IH]; intros h h' Hh; cbn; [done|].
  apply IH. by apply hashStep_mod.
Qed.

Lemma to_N_toString16 z : 0 <= z → Z.of_N (HexString.Raw.to_N (toString16 z) 0) = z.
Proof.
  intros Hz. destruct z as [|p|p]; [done| |lia].
  unfold toString16. by rewrite HexString.Raw.to_N_of_pos.
Qed.

(** X1. [hashText] returns the hexadecimal numeral of the integer hash
    [djb2xor] reduced modulo 2^32: the signed 32-bit arithmetic of the loop
    and the final unsigned reading lose nothing but the bits from 32 up.
    Read back as a hexadecimal numeral, the string gives that value, which
    is below 2^32. *)
Theorem hashText_is_djb2_xor_mod_2_32 :
  ∀ input,
    let v := djb2xor input `mod` 2 ^ 32 in
    hashText input = toString16 v
    ∧ Z.of_N (HexString.Raw.to_N (hashText input) 0) = v
    ∧ 0 <= v < 2 ^ 32.
Proof.
  intros input v.
  assert (toUint32 (hashLoop 5381 input) = v) as Hv.
  { unfold toUint32. by apply hashLoop_mod. }
  assert (0 <= v < 2 ^ 32) as Hrange by (apply Z.mod_pos_bound; lia).
  unfold hashText. rewrite Hv. split; [done|]. split; [|done].
  apply to_N_toString16. lia.
Qed.

Lemma list_ascii_of_string_app (a b : string) :
  list_ascii_of_string (a +:+ b) = list_ascii_of_string a ++ list_ascii_of_string b.
Proof.
  induction a as [|c a IH]; [done|].
  change (c :: list_ascii_of_string (a +:+ b) = c :: list_ascii_of_string a ++ list_ascii_of_string b).
  by rewrite IH.
Qed.

Lemma string_app_assoc (a b c : string) : (a +:+ b) +:+ c = a +:+ (b +:+ c).
Proof.
  induction a as [|ch a IH]; [done|].
  change (String ch ((a +:+ b) +:+ c) = String ch (a +:+ (b +:+ c))). by rewrite IH.
Qed.

Lemma string_app_nil_r (a : string) : a +:+ "" = a.
Proof.
  induction a as [|ch a IH]; [done|].
  change (String ch (a +:+ "") = String ch a). by rewrite IH.
Qed.

Lemma hexShape_digit (p : positive) (d : ascii) rest :
  isHexDigit d = true → d ≠ "0"%char → hexShape p rest (String d rest).
Proof.
  intros Hd Hnz. exists d, ""%string. split_and!; [done|done|done|constructor|cbn; lia].
Qed.

Lemma hexShape_step (p p' : positive) (x : ascii) rest :
  (∀ r, hexShape p' r (HexString.Raw.of_pos p' r)) →
  isHexDigit x = true → 16 * Z.pos p' <= Z.pos p →
  hexShape p rest (HexString.Raw.of_pos p' (String x rest)).
Proof.
  intros IH Hx Hp. destruct (IH (String x rest)) as (d & ds & -> & Hd & Hnz & Hds & Hle).
  exists d, (ds +:+ String x ""). split_and!; [|done|done| |].
  - by rewrite string_app_assoc.
  - rewrite list_ascii_of_string_app. apply Forall_app. split; [done|]. by repeat constructor.
  - rewrite string_length_append. cbn [String.length].
    rewrite Nat2Z.inj_add, Z.pow_add_r by lia. cbn [Z.of_nat Pos.of_succ_nat]. lia.
Qed.

Lemma of_pos_hexShape (p : positive) :
  ∀ rest, hexShape p rest (HexString.Raw.of_pos p rest).
Proof.
  induction p as [p IH] using (well_founded_induction (well_founded_ltof _ Pos.to_nat)).
  intros rest. unfold ltof in IH.
  do 4 try destruct p as [p|p|];
    first [ by apply hexShape_digit
          | apply hexShape_step; [apply IH; lia | reflexivity | lia] ].
Qed.

(** X2. [hashText] returns between one and eight characters, all of them
    lower-case hexadecimal digits, with no leading zero unless the string is
    ["0"]. *)
Theorem hashText_hex_format :
  ∀ input, ∃ d ds,
    hashText input = String d ds
    ∧ isHexDigit d = true
    ∧ Forall (λ c, isHexDigit c = true) (list_ascii_of_string ds)
    ∧ (d = "0"%char → ds = ""%string)
    ∧ (1 <= String.length (hashText input) <= 8)%nat.
Proof.
  intros input. unfold hashText.
  assert (0 <= toUint32 (hashLoop 5381 input) < 2 ^ 32) as Hrange
    by (apply Z.mod_pos_bound; lia).
  destruct (toUint32 (hashLoop 5381 input)) as [|p|p]; [| |lia].
  - exists "0"%char, ""%string. cbn. split_and!; [done|done|constructor|done|lia|lia].
  - cbn [toString16].
    destruct (of_pos_hexShape p "") as (d & ds & -> & Hd & Hnz & Hds & Hle).
    rewrite string_app_nil_r.
    exists d, ds. split_and!; [done|done|done|done|cbn; lia|].
    cbn [String.length].
    assert (Z.of_nat (String.length ds) < 8); [|lia].
    apply (Z.pow_lt_mono_r_iff 16); [lia|lia|]. lia.
Qed.

Lemma rev_app_spec (a c : string) : String.rev_app a c = String.rev a +:+ c.
Proof.
  unfold String.rev. revert c. induction a as [|ch a IH]; intros c; [done|].
  cbn [String.rev_app]. rewrite (IH (String ch c)), (IH (String ch "")).
  by rewrite string_app_assoc.
Qed.

Lemma string_rev_cons (ch : ascii) (a : string) :
  String.rev (String ch a) = String.rev a +:+ String ch "".
Proof. unfold String.rev at 1. cbn [String.rev_app]. apply rev_app_spec. Qed.

Lemma string_rev_app (a b : string) : String.rev (a +:+ b) = String.rev b +:+ String.rev a.
Proof.
  induction a as [|ch a IH]; [by rewrite string_app_nil_r|].
  change (String ch a +:+ b) with (String ch (a +:+ b)).
  by rewrite !string_rev_cons, IH, string_app_assoc.
Qed.

Lemma allWhiteSpace_rev (s : string) : allWhiteSpace s → allWhiteSpace (String.rev s).
Proof.
  unfold allWhiteSpace. induction s as [|ch s IH]; [done|].
  cbn [list_ascii_of_string]. intros [Hc Hs]%Forall_cons.
  rewrite string_rev_cons, list_ascii_of_string_app. apply Forall_app.
  split; [by apply IH | by repeat constructor].
Qed.

Lemma trimStart_pad_left (pre s : string) :
  allWhiteSpace pre → trimStart (pre +:+ s) = trimStart s.
Proof.
  unfold allWhiteSpace. induction pre as [|ch pre IH]; [done|].
  cbn [list_ascii_of_string]. intros [Hc Hs]%Forall_cons.
  change (String ch pre +:+ s) with (String ch (pre +:+ s)).
  cbn [trimStart]. rewrite Hc. by apply IH.
Qed.

Lemma trimStart_pad_right (s post : string) :
  allWhiteSpace post →
  ∃ post', allWhiteSpace post' ∧ trimStart (s +:+ post) = trimStart s +:+ post'.
Proof.
  intros Hpost. induction s as [|ch s IH].
  - exists ""%string. split; [constructor|].
    change (trimStart post = ""%string).
    rewrite <- (string_app_nil_r post). by rewrite trimStart_pad_left.
  - change (String ch s +:+ post) with (String ch (s +:+ post)). cbn [trimStart].
    destruct (isWhiteSpace ch); [exact IH|]. by exists post.
Qed.

Lemma trim_pad (pre s post : string) :
  allWhiteSpace pre → allWhiteSpace post → trim (pre +:+ s +:+ post) = trim s.
Proof.
  intros Hpre Hpost. unfold trim. rewrite trimStart_pad_left by done.
  destruct (trimStart_pad_right s post Hpost) as (post' & Hpost' & ->).
  rewrite string_rev_app, trimStart_pad_left; [done|]. by apply allWhiteSpace_rev.
Qed.

(** X3. The content hash, and with it the signature key, ignores white
    space around the content: two records of the same type, conversation
    and sender whose contents differ only by leading and trailing white
    space have the same content hash and the same signature key. *)
Theorem signature_ignores_surrounding_whitespace :
  ∀ acct raw1 raw2 pre post,
    allWhiteSpace pre → allWhiteSpace post →
    msgtype raw2 = msgtype raw1 →
    conversationId raw2 = conversationId raw1 →
    senderId raw2 = senderId raw1 →
    messageContent raw2 = pre +:+ messageContent raw1 +:+ post →
    contentHashOf raw2 = contentHashOf raw1
    ∧ signatureOf acct raw2 = signatureOf acct raw1.
Proof.
  intros acct raw1 raw2 pre post Hpre Hpost Hm Hc Hs Hcontent.
  assert (contentHashOf raw2 = contentHashOf raw1) as Hh.
  { unfold contentHashOf. by rewrite Hm, Hcontent, trim_pad. }
  split; [done|]. unfold signatureOf. by rewrite Hc, Hs, Hh.
Qed.

Lemma not_identityExpired_iff now (e : string * Z) :
  ¬ identityExpired now e ↔ now - e.2 <= DEDUP_CACHE_TTL.
Proof. unfold identityExpired. lia. Qed.

Lemma not_signatureExpired_iff now (e : string * Z) :
  ¬ signatureExpired now e ↔ now - e.2 <= SIGNATURE_TTL_MS.
Proof. unfold signatureExpired. lia. Qed.

Lemma get_filter_iff (P : string * Z → Prop) `{!∀ e, Decision (P e)} k v (m : list (string * Z)) :
  NoDup (JsMap.keys m) →
  JsMap.get k (filter P m) = Some v ↔ JsMap.get k m = Some v ∧ P (k, v).
Proof.
  intros Hnd. rewrite get_filter by done.
  destruct (JsMap.get k m) as [v'|]; [|naive_solver].
  case_decide; naive_solver.
Qed.

Lemma elem_of_keys_get k (m : list (string * Z)) :
  k ∈ JsMap.keys m ↔ ∃ v, JsMap.get k m = Some v.
Proof.
  split.
  - intros Hin. destruct (JsMap.get k m) as [v|] eqn:Hget; [by exists v|].
    by apply get_None in Hget.
  - intros [v Hget]. by apply get_Some_key in Hget.
Qed.

(** X4. [cleanupDedupCache] removes exactly the identity entries that are
    more than [DEDUP_CACHE_TTL] old at its clock reading: the entries kept
    are the others, in their order; the [Set] holds a key exactly when the
    [Map] held it with such a timestamp; the signature cache is untouched
    and the caches stay well formed. *)
Theorem cleanupDedupCache_removes_exactly_expired :
  ∀ now s,
    dedup_wf s →
    let s' := cleanupDedupCache now s in
    processedMessageTimestamps s'
      = filter (λ e, now - e.2 <= DEDUP_CACHE_TTL) (processedMessageTimestamps s)
    ∧ (∀ k, k ∈ processedMessageIds s' ↔
            ∃ t, JsMap.get k (processedMessageTimestamps s) = Some t
                 ∧ now - t <= DEDUP_CACHE_TTL)
    ∧ recentSignatureTimestamps s' = recentSignatureTimestamps s
    ∧ dedup_wf s'.
Proof.
  intros now s Hwf. cbn zeta.
  pose proof (cleanupDedupCache_wf now s Hwf) as Hwf'.
  rewrite cleanupDedupCache_spec in * by done.
  cbn [processedMessageIds processedMessageTimestamps recentSignatureTimestamps].
  split_and!; [| |done|done].
  - apply list_filter_iff. intros e. apply not_identityExpired_iff.
  - intros k. rewrite elem_of_list_to_set, elem_of_keys_get.
    split.
    + intros [t [Hget HP]%get_filter_iff]; [|apply Hwf]. exists t.
      by apply not_identityExpired_iff in HP.
    + intros (t & Hget & Hle). exists t. apply get_filter_iff; [apply Hwf|].
      split; [done|]. by apply not_identityExpired_iff.
Qed.

(** X5. [cleanupSignatureCache] removes exactly the signature entries that
    are more than [SIGNATURE_TTL_MS] old, keeps the others in their order,
    and leaves the identity cache untouched. *)
Theorem cleanupSignatureCache_removes_exactly_expired :
  ∀ now s,
    dedup_wf s →
    let s' := cleanupSignatureCache now s in
    recentSignatureTimestamps s'
      = filter (λ e, now - e.2 <= SIGNATURE_TTL_MS) (recentSignatureTimestamps s)
    ∧ (∀ k t, JsMap.get k (recentSignatureTimestamps s') = Some t ↔
              JsMap.get k (recentSignatureTimestamps s) = Some t
              ∧ now - t <= SIGNATURE_TTL_MS)
    ∧ processedMessageIds s' = processedMessageIds s
    ∧ processedMessageTimestamps s' = processedMessageTimestamps s
    ∧ dedup_wf s'.
Proof.
  intros now s Hwf. cbn zeta.
  pose proof (cleanupSignatureCache_wf now s Hwf) as Hwf'.
  rewrite cleanupSignatureCache_spec in * by done.
  cbn [processedMessageIds processedMessageTimestamps recentSignatureTimestamps].
  split_and!; [| |done|done|done].
  - apply list_filter_iff. intros e. apply not_signatureExpired_iff.
  - intros k t. rewrite get_filter_iff by apply Hwf.
    by rewrite not_signatureExpired_iff.
Qed.

Lemma filter_filter_weaker {A} (P Q : A → Prop) `{!∀ x, Decision (P x)} `{!∀ x, Decision (Q x)}
    (l : list A) :
  (∀ x, Q x → P x) → filter Q (filter P l) = filter Q l.
Proof.
  intros HQP. induction l as [|x l IH]; [done|].
  rewrite !filter_cons. destruct (decide (P x)) as [HP|HnP].
  - rewrite filter_cons. destruct (decide (Q x)); by rewrite IH.
  - rewrite decide_False by (intros HQ; by apply HnP, HQP). done.
Qed.

(** X6. A sweep makes an earlier sweep superfluous: cleaning at [t1] and
    then at [t2 >= t1] leaves the same caches as cleaning at [t2] alone,
    for the identity cache and for the signature cache; in particular each
    sweep is idempotent. *)
Theorem later_sweep_subsumes_earlier :
  ∀ t1 t2 s,
    dedup_wf s → t1 <= t2 →
    cleanupDedupCache t2 (cleanupDedupCache t1 s) = cleanupDedupCache t2 s
    ∧ cleanupSignatureCache t2 (cleanupSignatureCache t1 s) = cleanupSignatureCache t2 s.
Proof.
  intros t1 t2 s Hwf Hle. split.
  - rewrite (cleanupDedupCache_spec t2 (cleanupDedupCache t1 s))
      by (by apply cleanupDedupCache_wf).
    rewrite !cleanupDedupCache_spec by done.
    cbn [processedMessageIds processedMessageTimestamps recentSignatureTimestamps].
    rewrite filter_filter_weaker; [done|].
    intros e. unfold identityExpired. lia.
  - rewrite (cleanupSignatureCache_spec t2 (cleanupSignatureCache t1 s))
      by (by apply cleanupSignatureCache_wf).
    rewrite !cleanupSignatureCache_spec by done.
    cbn [processedMessageIds processedMessageTimestamps recentSignatureTimestamps].
    rewrite filter_filter_weaker; [done|].
    intros e. unfold signatureExpired. lia.
Qed.

Lemma live_signature_iff now s k t :
  dedup_wf s →
  JsMap.get k (filter (λ e, ¬ signatureExpired now e) (recentSignatureTimestamps s)) = Some t
  ↔ JsMap.get k (recentSignatureTimestamps s) = Some t ∧ now - t <= SIGNATURE_TTL_MS.
Proof.
  intros Hwf. rewrite get_filter_iff by apply Hwf. by rewrite not_signatureExpired_iff.
Qed.

Lemma isSignatureDuplicate_true_iff sig now s :
  dedup_wf s →
  (isSignatureDuplicate sig now s).1 = true ↔
  ∃ t, JsMap.get sig (recentSignatureTimestamps s) = Some t ∧ t ≠ 0
       ∧ now - t < SIGNATURE_TTL_MS.
Proof.
  intros Hwf. rewrite isSignatureDuplicate_spec by done. cbn [fst].
  split.
  - destruct (JsMap.get sig _) as [t|] eqn:Hget; [|done].
    intros [Hnz Hlt]%andb_true_iff. exists t.
    apply live_signature_iff in Hget as [Hget _]; [|done].
    apply bool_decide_eq_true_1 in Hlt.
    unfold truthy_number in Hnz. by apply negb_true_iff, Z.eqb_neq in Hnz.
  - intros (t & Hget & Hnz & Hlt).
    assert (JsMap.get sig (filter (λ e, ¬ signatureExpired now e) (recentSignatureTimestamps s))
            = Some t) as -> by (apply live_signature_iff; [done|split; [done|lia]]).
    apply andb_true_iff. split; [|by apply bool_decide_eq_true_2].
    unfold truthy_number. by apply negb_true_iff, Z.eqb_neq.
Qed.

(** X7. [isSignatureDuplicate] returns [true] exactly when the signature
    is recorded with a timestamp that is not zero and less than
    [SIGNATURE_TTL_MS] old (an entry exactly [SIGNATURE_TTL_MS] old, or one
    recorded at time 0, does not count). On [true] the entry is left as it
    is, on [false] it is set to [now]; every other entry is kept if it is
    at most [SIGNATURE_TTL_MS] old and dropped otherwise; the identity
    cache is untouched. *)
Theorem isSignatureDuplicate_iff_recent_entry :
  ∀ sig now s,
    dedup_wf s →
    let r := isSignatureDuplicate sig now s in
    let before := recentSignatureTimestamps s in
    let after := recentSignatureTimestamps r.2 in
    (r.1 = true ↔
       ∃ t, JsMap.get sig before = Some t ∧ t ≠ 0 ∧ now - t < SIGNATURE_TTL_MS)
    ∧ (r.1 = true → JsMap.get sig after = JsMap.get sig before)
    ∧ (r.1 = false → JsMap.get sig after = Some now)
    ∧ (∀ k t, k ≠ sig →
         JsMap.get k after = Some t ↔
         JsMap.get k before = Some t ∧ now - t <= SIGNATURE_TTL_MS)
    ∧ processedMessageIds r.2 = processedMessageIds s
    ∧ processedMessageTimestamps r.2 = processedMessageTimestamps s.
Proof.
  intros sig now s Hwf. cbn zeta.
  pose proof (isSignatureDuplicate_true_iff sig now s Hwf) as Hdup.
  rewrite isSignatureDuplicate_spec in * by done. cbn [fst snd] in *.
  set (dup := match JsMap.get sig _ with Some _ => _ | None => _ end) in *.
  cbn [processedMessageIds processedMessageTimestamps recentSignatureTimestamps].
  split_and!; [done| | | |done|done].
  - intros Hd. rewrite Hd. apply Hdup in Hd as (t & Hget & Hnz & Hlt).
    rewrite Hget. apply live_signature_iff; [done|]. split; [done|lia].
  - intros Hd. rewrite Hd. apply get_set_eq.
  - intros k t Hne. destruct dup; [by apply live_signature_iff|].
    rewrite get_set_ne by done. by apply live_signature_iff.
Qed.

(** X8. After [markMessageProcessed k], [isMessageProcessed k] holds and
    the [Map] gives the timestamp just stored, in whatever state the cache
    was; the signature cache is untouched; below capacity no other key is
    gained or lost; and a well-formed cache stays well formed. *)
Theorem markMessageProcessed_then_processed :
  ∀ k tSweep tSet s,
    let s' := markMessageProcessed k tSweep tSet s in
    isMessageProcessed k s' = true
    ∧ JsMap.get k (processedMessageTimestamps s') = Some tSet
    ∧ recentSignatureTimestamps s' = recentSignatureTimestamps s
    ∧ (idsSize s < DEDUP_CACHE_MAX_SIZE →
         ∀ k', isMessageProcessed k' s' = bool_decide (k' = k) || isMessageProcessed k' s)
    ∧ (dedup_wf s → dedup_wf s').
Proof.
  intros k tSweep tSet s. cbn zeta.
  split_and!.
  - rewrite markMessageProcessed_roomFor. unfold isMessageProcessed.
    apply bool_decide_eq_true_2. cbn. set_solver.
  - rewrite markMessageProcessed_roomFor. apply get_set_eq.
  - apply markMessageProcessed_sigs.
  - intros Hlt k'. rewrite markMessageProcessed_roomFor. unfold roomFor.
    rewrite bool_decide_eq_false_2 by lia. unfold isMessageProcessed. cbn.
    rewrite <- bool_decide_or. apply bool_decide_ext. set_solver.
  - intros Hwf. rewrite markMessageProcessed_roomFor. cbn zeta.
    assert (dedup_wf (roomFor tSweep s)) as Hroom.
    { unfold roomFor. case_bool_decide; [|done].
      pose proof (cleanupDedupCache_wf tSweep s Hwf) as Hwf2.
      case_bool_decide; [|done].
      unfold evictOldest, JsMap.firstKey.
      destruct (processedMessageTimestamps (cleanupDedupCache tSweep s)) as [|[k0 v0] rest] eqn:Hts;
        [done|].
      cbn. destruct (truthy_string k0); [|done].
      destruct Hwf2 as [Hnd Hids Hsig]. rewrite Hts in *. cbn in *.
      rewrite decide_True by done.
      apply NoDup_cons in Hnd as [Hk0 Hnd]. split; cbn; [done| |done].
      rewrite Hids. set_solver. }
    destruct (roomFor tSweep s) as [ids ts sigs]. by apply insert_new_wf.
Qed.

(** The size test of [touchDedupCache] changes nothing: on well-formed
    caches it is the two sweeps one after the other. *)
Lemma touchDedupCache_sweeps now tSweep s :
  dedup_wf s →
  touchDedupCache now tSweep s = cleanupSignatureCache now (cleanupDedupCache tSweep s).
Proof.
  intros Hwf. unfold touchDedupCache.
  case_bool_decide as Hpos; [done|].
  rewrite (idsSize_wf s Hwf) in Hpos.
  assert (cleanupDedupCache tSweep s = s) as ->; [|done].
  unfold cleanupDedupCache.
  destruct (processedMessageTimestamps s); [done | cbn in Hpos; lia].
Qed.

(** X9. After [clearDedupCache] nothing is a duplicate: whatever the
    caches held, the next event that parses is dispatched, and the caches
    then hold its identity key and its signature key and nothing else. *)
Theorem clearDedupCache_forgets_everything :
  ∀ s d raw,
    rawOf d = Some raw →
    let r := deliver d (clearDedupCache s) in
    dispatched r = [mkDispatch (dConfig d) raw (dAccountId d)]
    ∧ returned r = SUCCESS
    ∧ processedMessageIds (stateAfter r) = {[ dedupeIdOf (dAccountId d) raw ]}
    ∧ processedMessageTimestamps (stateAfter r)
        = [(dedupeIdOf (dAccountId d) raw, tMark (dEnv d))]
    ∧ recentSignatureTimestamps (stateAfter r)
        = [(signatureOf (dAccountId d) raw, tNow (dEnv d))].
Proof.
  intros s d raw Hraw. cbn zeta. rewrite (deliver_parsed d raw _ Hraw). cbn zeta.
  unfold clearDedupCache.
  assert (touchDedupCache (tNow (dEnv d)) (tTouch (dEnv d)) emptyDedup = emptyDedup) as ->
    by reflexivity.
  assert (isMessageProcessed (dedupeIdOf (dAccountId d) raw) emptyDedup = false) as ->.
  { unfold isMessageProcessed. apply bool_decide_eq_false_2. cbn. set_solver. }
  unfold isSignatureDuplicate. cbn.
  rewrite markMessageProcessed_roomFor. unfold roomFor.
  rewrite bool_decide_eq_false_2
    by (unfold idsSize; cbn [processedMessageIds]; rewrite size_empty;
        unfold DEDUP_CACHE_MAX_SIZE; lia).
  cbn.
  split_and!; try done. set_solver.
Qed.

(** X10. Whether the call of the processor throws or returns makes no
    difference to the callback: it returns the same acknowledgment, has
    made the same call and leaves the same caches, so that the key of an
    event whose processing threw stays marked. *)
Theorem processor_throw_changes_nothing :
  ∀ accountId config res tn tt ts tm s,
    onRobotMessage accountId config res (mkEnv tn tt ts tm true) s
    = onRobotMessage accountId config res (mkEnv tn tt ts tm false) s.
Proof.
  intros accountId config res tn tt ts tm s.
  unfold onRobotMessage, callbackTry. cbn [tNow tTouch tMarkSweep tMark dispatchThrows].
  destruct (data res) as [|parsed]; [done|]. cbn zeta.
  destruct (isMessageProcessed _ _); [done|].
  by destruct (isSignatureDuplicate _ _ _) as [[] s2].
Qed.

(** X11. While the identity cache is below capacity a run of the callback
    loses no live entry: an entry that is at most [DEDUP_CACHE_TTL] old at
    the sweep of the run is still there afterwards, with its timestamp
    unchanged, whatever event the run handled. *)
Theorem identity_entry_kept_below_capacity :
  ∀ s d k t,
    reachable s →
    JsMap.get k (processedMessageTimestamps s) = Some t →
    tTouch (dEnv d) - t <= DEDUP_CACHE_TTL →
    idsSize s < DEDUP_CACHE_MAX_SIZE →
    let s' := stateAfter (deliver d s) in
    JsMap.get k (processedMessageTimestamps s') = Some t
    ∧ isMessageProcessed k s' = true.
Proof.
  intros s d k t Hs Hget Hfresh Hroom. cbn zeta.
  pose proof (reachable_inv s Hs) as Hinv.
  assert (dedup_wf (stateAfter (deliver d s))) as Hwf'.
  { apply reachable_inv. by constructor. }
  assert (JsMap.get k (processedMessageTimestamps (stateAfter (deliver d s))) = Some t) as Hkept.
  2: { split; [done|]. unfold isMessageProcessed. apply bool_decide_eq_true_2.
       rewrite (wf_ids _ Hwf'), elem_of_list_to_set. by eapply get_Some_key. }
  clear Hwf'.
  destruct (rawOf d) as [raw|] eqn:Hraw; [|by rewrite deliver_malformed].
  rewrite (deliver_parsed d raw s Hraw). cbn zeta.
  set (s1 := touchDedupCache (tNow (dEnv d)) (tTouch (dEnv d)) s).
  pose proof (touchDedupCache_inv (tNow (dEnv d)) (tTouch (dEnv d)) s Hinv) as Hinv1.
  fold s1 in Hinv1.
  assert (JsMap.get k (processedMessageTimestamps s1) = Some t) as Hget1.
  { subst s1. rewrite touchDedupCache_spec by apply Hinv.
    cbn [processedMessageTimestamps]. case_bool_decide; [|done].
    apply get_filter_keep; [apply Hinv|done|]. unfold identityExpired. cbn. lia. }
  assert (idsSize s1 < DEDUP_CACHE_MAX_SIZE) as Hroom1.
  { rewrite (idsSize_wf s1) by apply Hinv1. rewrite (idsSize_wf s) in Hroom by apply Hinv.
    subst s1. rewrite touchDedupCache_spec by apply Hinv.
    cbn [processedMessageTimestamps]. case_bool_decide; [|done].
    pose proof (length_filter (λ e, ¬ identityExpired (tTouch (dEnv d)) e)
                  (processedMessageTimestamps s)). lia. }
  destruct (isMessageProcessed _ s1) eqn:Hproc; [done|].
  rewrite (isSignatureDuplicate_spec _ _ _ (inv_wf _ Hinv1)). cbn [fst snd].
  destruct (match JsMap.get _ _ with Some _ => _ | None => _ end); [done|].
  cbn [stateAfter]. rewrite markMessageProcessed_roomFor. unfold roomFor.
  rewrite bool_decide_eq_false_2 by (unfold idsSize in *; cbn; lia).
  cbn [processedMessageTimestamps]. rewrite get_set_ne; [done|].
  intros Heq. unfold isMessageProcessed in Hproc. apply bool_decide_eq_false_1 in Hproc.
  apply Hproc. rewrite Heq, (wf_ids _ (inv_wf _ Hinv1)), elem_of_list_to_set.
  by eapply get_Some_key.
Qed.

Lemma elem_of_set_inv (k : string) (v : Z) (m : list (string * Z)) e :
  e ∈ JsMap.set k v m → e = (k, v) ∨ e ∈ m.
Proof.
  induction m as [|[k' v'] m IH]; cbn.
  - intros ->%list_elem_of_singleton. by left.
  - case_decide as Hk.
    + intros [->|Hin]%elem_of_cons; [left; by subst | right; by right].
    + intros [->|Hin]%elem_of_cons; [right; by left|].
      destruct (IH Hin) as [->|Hin']; [by left | right; by right].
Qed.

(** X12. After the callback has handled an event that parses, the
    signature cache holds no entry more than [SIGNATURE_TTL_MS] older than
    the arrival time of that event. *)
Theorem signature_cache_holds_only_recent :
  ∀ s d raw,
    reachable s → rawOf d = Some raw →
    Forall (λ e, tNow (dEnv d) - e.2 <= SIGNATURE_TTL_MS)
           (recentSignatureTimestamps (stateAfter (deliver d s))).
Proof.
  intros s d raw Hs Hraw. pose proof (reachable_inv s Hs) as Hinv.
  rewrite (deliver_parsed d raw s Hraw). cbn zeta.
  pose proof (touchDedupCache_wf (tNow (dEnv d)) (tTouch (dEnv d)) s (inv_wf _ Hinv)) as Hwf1.
  rewrite (isSignatureDuplicate_spec _ _ _ Hwf1). cbn [fst snd].
  rewrite touchDedupCache_spec by apply Hinv.
  cbn [processedMessageIds processedMessageTimestamps recentSignatureTimestamps].
  set (keep := λ e : string * Z, ¬ signatureExpired (tNow (dEnv d)) e).
  assert (∀ l, Forall (λ e, tNow (dEnv d) - e.2 <= SIGNATURE_TTL_MS) (filter keep l)) as Hkeep.
  { intros l. apply Forall_forall. intros e [He _]%list_elem_of_filter.
    by apply not_signatureExpired_iff. }
  destruct (isMessageProcessed _ _); [apply Hkeep|].
  destruct (match JsMap.get _ _ with Some _ => _ | None => _ end); [apply Hkeep|].
  cbn [stateAfter]. rewrite markMessageProcessed_sigs. cbn [recentSignatureTimestamps].
  apply Forall_forall. intros e [->|Hin]%elem_of_set_inv.
  - cbn. unfold SIGNATURE_TTL_MS. lia.
  - revert e Hin. apply Forall_forall, Hkeep.
Qed.

Lemma cleanupDedupCache_ids_subseteq now s :
  processedMessageIds (cleanupDedupCache now s) ⊆ processedMessageIds s.
Proof.
  destruct (cleanupDedup_foldl now (processedMessageTimestamps s) s) as (_ & Hi & _).
  unfold cleanupDedupCache. rewrite Hi. set_solver.
Qed.

Lemma cleanupSignatureCache_ids now s :
  processedMessageIds (cleanupSignatureCache now s) = processedMessageIds s.
Proof. apply (cleanupSignature_foldl now (recentSignatureTimestamps s) s). Qed.

Lemma touchDedupCache_ids_subseteq now tSweep s :
  processedMessageIds (touchDedupCache now tSweep s) ⊆ processedMessageIds s.
Proof.
  unfold touchDedupCache. rewrite cleanupSignatureCache_ids.
  case_bool_decide; [apply cleanupDedupCache_ids_subseteq | done].
Qed.

Lemma roomFor_ids_subseteq tSweep s :
  processedMessageIds (roomFor tSweep s) ⊆ processedMessageIds s.
Proof.
  unfold roomFor. case_bool_decide; [|done].
  pose proof (cleanupDedupCache_ids_subseteq tSweep s) as Hsub.
  case_bool_decide; [|done].
  unfold evictOldest. destruct (JsMap.firstKey _) as [k|]; [|done].
  destruct (truthy_string k); [|done]. cbn. set_solver.
Qed.

Lemma isSignatureDuplicate_ids sig now s :
  processedMessageIds (isSignatureDuplicate sig now s).2 = processedMessageIds s.
Proof.
  unfold isSignatureDuplicate.
  destruct (match JsMap.get _ _ with Some _ => _ | None => _ end); cbn;
    apply cleanupSignatureCache_ids.
Qed.

(** A key that a callback run adds to the identity cache is the key of the
    event it handled, and the event was dispatched. *)
Lemma deliver_new_key d s k :
  k ∈ processedMessageIds (stateAfter (deliver d s)) →
  k ∈ processedMessageIds s ∨ (identityKey d = Some k ∧ dispatched (deliver d s) ≠ []).
Proof.
  unfold identityKey.
  destruct (rawOf d) as [raw|] eqn:Hraw; [|rewrite deliver_malformed by done; by left].
  rewrite (deliver_parsed d raw s Hraw). cbn zeta.
  pose proof (touchDedupCache_ids_subseteq (tNow (dEnv d)) (tTouch (dEnv d)) s) as Htouch.
  destruct (isMessageProcessed _ _); [cbn; left; set_solver|].
  pose proof (isSignatureDuplicate_ids (signatureOf (dAccountId d) raw) (tNow (dEnv d))
                (touchDedupCache (tNow (dEnv d)) (tTouch (dEnv d)) s)) as Hsig.
  destruct (isSignatureDuplicate _ _ _) as [dup s2]. cbn [fst snd] in *.
  destruct dup; [cbn; left; set_solver|].
  cbn [stateAfter dispatched]. rewrite markMessageProcessed_roomFor. cbn.
  pose proof (roomFor_ids_subseteq (tMarkSweep (dEnv d)) s2) as Hroom.
  intros [->%elem_of_singleton|Hin]%elem_of_union; [by right | left; set_solver].
Qed.

Lemma deliverAll_app ds1 ds2 s : deliverAll (ds1 ++ ds2) s = deliverAll ds2 (deliverAll ds1 s).
Proof. unfold deliverAll. apply foldl_app. Qed.

(** X13. The callback puts no key into the identity cache but the key of
    an event it dispatches: a key found in the cache after a sequence of
    deliveries was there before them or is the identity key of one of them,
    which was dispatched. *)
Theorem cached_keys_come_from_dispatched_events :
  ∀ ds s k,
    k ∈ processedMessageIds (deliverAll ds s) →
    k ∈ processedMessageIds s
    ∨ ∃ pre d post,
        ds = pre ++ d :: post ∧ identityKey d = Some k
        ∧ dispatched (deliver d (deliverAll pre s)) ≠ [].
Proof.
  intros ds. induction ds as [|d ds IH] using rev_ind; intros s k; [by left|].
  rewrite deliverAll_app. cbn [deliverAll foldl].
  intros [Hin|[Hk Hdisp]]%deliver_new_key.
  - destruct (IH s k Hin) as [?|(pre & d0 & post & -> & Hk0 & Hd0)]; [by left|].
    right. exists pre, d0, (post ++ [d]). by rewrite <- app_assoc.
  - right. exists ds, d, []. done.
Qed.

(** X14. The identity check has no false positive: an event whose identity
    key is not in the cache and is the key of none of the deliveries made
    since passes the identity check and reaches the signature check. *)
Theorem unseen_key_passes_identity_check :
  ∀ ds s d k,
    identityKey d = Some k →
    k ∉ processedMessageIds s →
    Forall (λ d', identityKey d' ≠ Some k) ds →
    reachesSignatureCheck d (deliverAll ds s).
Proof.
  intros ds s d k Hk Hnew Hds. exists k. split; [done|].
  unfold isMessageProcessed. apply bool_decide_eq_false_2. intros Hin.
  apply touchDedupCache_ids_subseteq in Hin.
  assert (∀ ds s, k ∉ processedMessageIds s → Forall (λ d', identityKey d' ≠ Some k) ds →
            k ∉ processedMessageIds (deliverAll ds s)) as Hgen.
  { clear. intros ds. induction ds as [|d ds IH]; intros s Hnew Hds; [done|].
    apply Forall_cons in Hds as [Hd Hds]. cbn. apply IH; [|done].
    intros [?|[? _]]%deliver_new_key; done. }
  by apply (Hgen ds s).
Qed.

(** X15. The signature check compares signature keys, which hold the
    32-bit hash of the content and not the content: an event whose
    signature key is that of an event dispatched less than
    [SIGNATURE_TTL_MS] before it is dropped, also when the two contents
    differ and only their hashes agree. *)
Theorem equal_signature_keys_suppress :
  ∀ s d1 mids d2 sig,
    reachable s →
    signatureKey d1 = Some sig → signatureKey d2 = Some sig →
    dispatched (deliver d1 s) ≠ [] →
    0 < tNow (dEnv d1) →
    Forall (λ d, tNow (dEnv d) <= tNow (dEnv d2)) mids →
    tNow (dEnv d2) - tNow (dEnv d1) < SIGNATURE_TTL_MS →
    let r2 := deliver d2 (deliverAll mids (stateAfter (deliver d1 s))) in
    dispatched r2 = [] ∧ returned r2 = SUCCESS.
Proof.
  intros s d1 mids d2 sig Hs Hsig1 Hsig2 Hdisp Hpos Hmids Hlt. cbn zeta.
  set (s1 := stateAfter (deliver d1 s)).
  assert (reachable s1) as Hs1 by (by constructor).
  set (s2 := deliverAll mids s1).
  assert (reachable s2) as Hs2 by (by apply reachable_deliverAll).
  assert (JsMap.get sig (recentSignatureTimestamps s2) = Some (tNow (dEnv d1))) as Hrec.
  { apply (recorded_signature_kept_all mids s1 sig _ (tNow (dEnv d2)));
      [done| |lia|done|done].
    by apply dispatched_records_signature. }
  unfold signatureKey in Hsig2.
  destruct (rawOf d2) as [raw2|] eqn:Hraw2; [|done]. injection Hsig2 as Hsig2.
  rewrite (deliver_parsed d2 raw2 s2 Hraw2). cbn zeta.
  destruct (isMessageProcessed _ _); [done|].
  assert (dedup_wf s2) as Hwf by (by apply reachable_inv).
  pose proof (touchDedupCache_wf (tNow (dEnv d2)) (tTouch (dEnv d2)) s2 Hwf) as Hwf1.
  rewrite (isSignatureDuplicate_spec _ _ _ Hwf1). cbn [fst snd].
  rewrite touchDedupCache_spec by done.
  cbn [processedMessageIds processedMessageTimestamps recentSignatureTimestamps].
  rewrite Hsig2.
  set (keep := λ e : string * Z, ¬ signatureExpired (tNow (dEnv d2)) e).
  assert (keep (sig, tNow (dEnv d1))) as Hkeep.
  { unfold keep, signatureExpired. cbn. lia. }
  rewrite (get_filter_keep keep sig (tNow (dEnv d1)));
    [| apply NoDup_keys_filter, Hwf | apply get_filter_keep; [apply Hwf|done|done] | done].
  unfold truthy_number.
  rewrite (proj2 (Z.eqb_neq (tNow (dEnv d1)) 0)) by lia.
  by rewrite bool_decide_eq_true_2.
Qed.

Lemma substring_prefix (p r : string) : String.substring 0 (String.length p) (p +:+ r) = p.
Proof.
  induction p as [|ch p IH]; [by destruct r|].
  change (String ch p +:+ r) with (String ch (p +:+ r)). cbn. by rewrite IH.
Qed.

(** X16. Without a stream message id the identity key is built from the
    first 50 code units of the text: two text events of the same account,
    conversation and sender whose texts agree on their first 50 code units
    have the same identity key, whatever follows the 50th code unit. So if
    the first is dispatched, fewer than [DEDUP_CACHE_MAX_SIZE] events are
    delivered in between, none of them later than the second, and the
    sweep of the second runs no more than [DEDUP_CACHE_TTL] after the first
    was marked, the second is dropped. *)
Theorem fallback_key_sees_first_50_units :
  ∀ s d1 mids d2 raw1 raw2 p r1 r2,
    reachable s →
    rawOf d1 = Some raw1 → rawOf d2 = Some raw2 →
    dAccountId d1 = dAccountId d2 →
    streamMessageId raw1 = None → streamMessageId raw2 = None →
    conversationId raw1 = conversationId raw2 → senderId raw1 = senderId raw2 →
    text raw1 = Some (p +:+ r1) → text raw2 = Some (p +:+ r2) →
    String.length p = 50%nat →
    identityKey d1 = identityKey d2
    ∧ (dispatched (deliver d1 s) ≠ [] →
       Z.of_nat (length mids) < DEDUP_CACHE_MAX_SIZE →
       Forall (λ d, tTouch (dEnv d) <= tTouch (dEnv d2)
                    ∧ tMarkSweep (dEnv d) <= tTouch (dEnv d2)) mids →
       tTouch (dEnv d2) - tMark (dEnv d1) <= DEDUP_CACHE_TTL →
       let r := deliver d2 (deliverAll mids (stateAfter (deliver d1 s))) in
       dispatched r = [] ∧ returned r = SUCCESS).
Proof.
  intros s d1 mids d2 raw1 raw2 p r1 r2 Hs Hraw1 Hraw2 Hacct Hid1 Hid2 Hconv Hsender
         Ht1 Ht2 Hlen.
  assert (dedupeIdOf (dAccountId d1) raw1 = dedupeIdOf (dAccountId d2) raw2) as Hkey.
  { unfold dedupeIdOf, slice0. rewrite Hid1, Hid2, Ht1, Ht2, Hacct, Hconv, Hsender.
    by rewrite <- Hlen, !substring_prefix. }
  assert (identityKey d1 = identityKey d2) as Hkeys.
  { unfold identityKey. rewrite Hraw1, Hraw2. cbn. by rewrite Hkey. }
  split; [done|]. intros Hdisp Hfew Hmids Hfresh. cbn zeta.
  assert (identityKey d1 = Some (dedupeIdOf (dAccountId d1) raw1)) as Hk1
    by (unfold identityKey; by rewrite Hraw1).
  assert (identityKey d2 = Some (dedupeIdOf (dAccountId d1) raw1)) as Hk2
    by (by rewrite <- Hkeys).
  apply (dispatched_key_suppresses s d1 mids d2 _ Hs Hk1 Hk2 Hdisp Hfew Hmids Hfresh).
Qed.

(** X17. An event that parses is dispatched exactly when neither cache
    holds a live entry for it: the identity cache holds its identity key
    only with timestamps more than [DEDUP_CACHE_TTL] before the sweep, and
    the signature cache holds its signature key only with a timestamp that
    is zero or at least [SIGNATURE_TTL_MS] before its arrival. *)
Theorem dispatch_iff_no_live_entry :
  ∀ s d k sig,
    reachable s →
    identityKey d = Some k → signatureKey d = Some sig →
    dispatched (deliver d s) ≠ [] ↔
      (∀ t, JsMap.get k (processedMessageTimestamps s) = Some t →
            tTouch (dEnv d) - t > DEDUP_CACHE_TTL)
      ∧ (∀ t, JsMap.get sig (recentSignatureTimestamps s) = Some t →
              t = 0 ∨ tNow (dEnv d) - t >= SIGNATURE_TTL_MS).
Proof.
  intros s d k sig Hs Hk Hsig. pose proof (reachable_inv s Hs) as Hinv.
  unfold identityKey, signatureKey in *.
  destruct (rawOf d) as [raw|] eqn:Hraw; [|done].
  injection Hk as Hk. injection Hsig as Hsig.
  rewrite (deliver_parsed d raw s Hraw). cbn zeta. rewrite Hk, Hsig.
  set (s1 := touchDedupCache (tNow (dEnv d)) (tTouch (dEnv d)) s).
  pose proof (touchDedupCache_wf (tNow (dEnv d)) (tTouch (dEnv d)) s (inv_wf _ Hinv)) as Hwf1.
  fold s1 in Hwf1.
  assert (isMessageProcessed k s1 = true ↔
          ∃ t, JsMap.get k (processedMessageTimestamps s) = Some t
               ∧ tTouch (dEnv d) - t <= DEDUP_CACHE_TTL) as Hid.
  { unfold isMessageProcessed. rewrite bool_decide_eq_true.
    rewrite (wf_ids _ Hwf1), elem_of_list_to_set, elem_of_keys_get.
    subst s1. rewrite touchDedupCache_spec by apply Hinv.
    cbn [processedMessageTimestamps]. case_bool_decide as Hpos.
    - split.
      + intros [t [Hget HP]%get_filter_iff]; [|apply Hinv]. exists t.
        by apply not_identityExpired_iff in HP.
      + intros (t & Hget & Hle). exists t. apply get_filter_iff; [apply Hinv|].
        split; [done|]. by apply not_identityExpired_iff.
    - rewrite (idsSize_wf s) in Hpos by apply Hinv.
      destruct (processedMessageTimestamps s); [|cbn in Hpos; lia].
      cbn. naive_solver. }
  pose proof (isSignatureDuplicate_true_iff sig (tNow (dEnv d)) s1 Hwf1) as Hdup.
  assert (∀ t, JsMap.get sig (recentSignatureTimestamps s1) = Some t ↔
               JsMap.get sig (recentSignatureTimestamps s) = Some t
               ∧ tNow (dEnv d) - t <= SIGNATURE_TTL_MS) as Hsigs.
  { intros t. subst s1. rewrite touchDedupCache_spec by apply Hinv.
    cbn [recentSignatureTimestamps]. rewrite get_filter_iff by apply Hinv.
    by rewrite not_signatureExpired_iff. }
  destruct (isMessageProcessed k s1) eqn:Hproc.
  { split; [done|]. intros [Hno _]. exfalso.
    destruct (proj1 Hid eq_refl) as (t & Hget & Hle). specialize (Hno t Hget). lia. }
  assert (∀ t, JsMap.get k (processedMessageTimestamps s) = Some t →
               tTouch (dEnv d) - t > DEDUP_CACHE_TTL) as Hidno.
  { intros t Hget. destruct (decide (tTouch (dEnv d) - t <= DEDUP_CACHE_TTL)); [|lia].
    assert (false = true); [|done]. apply Hid. by exists t. }
  destruct (isSignatureDuplicate sig (tNow (dEnv d)) s1) as [dup s2]. cbn [fst snd] in *.
  destruct dup.
  - split; [done|]. intros [_ Hno]. exfalso.
    destruct (proj1 Hdup eq_refl) as (t & Hget & Hnz & Hlt).
    apply Hsigs in Hget as [Hget _]. destruct (Hno t Hget); [done|lia].
  - split; [|done]. intros _. split; [done|].
    intros t Hget. destruct (decide (t = 0)) as [|Hnz]; [by left|]. right.
    destruct (decide (tNow (dEnv d) - t >= SIGNATURE_TTL_MS)); [done|].
    assert (false = true); [|done]. apply Hdup. exists t. split_and!; [|done|lia].
    apply Hsigs. split; [done|lia].
Qed.

Lemma filter_idemp {A} (P : A → Prop) `{!∀ x, Decision (P x)} (l : list A) :
  filter P (filter P l) = filter P l.
Proof. by apply filter_filter_weaker. Qed.

(** X18. An event that parses and is not dispatched adds nothing to the
    caches and refreshes nothing: the caches after it are the caches before
    it with the expired entries of both removed. *)
Theorem dropped_event_only_sweeps :
  ∀ s d raw,
    reachable s → rawOf d = Some raw →
    dispatched (deliver d s) = [] →
    stateAfter (deliver d s)
    = cleanupSignatureCache (tNow (dEnv d)) (cleanupDedupCache (tTouch (dEnv d)) s).
Proof.
  intros s d raw Hs Hraw. pose proof (reachable_inv s Hs) as Hinv.
  pose proof (touchDedupCache_sweeps (tNow (dEnv d)) (tTouch (dEnv d)) s (inv_wf _ Hinv))
    as Htouch.
  rewrite (deliver_parsed d raw s Hraw). cbn zeta.
  destruct (isMessageProcessed _ _); [by intros _|].
  pose proof (touchDedupCache_wf (tNow (dEnv d)) (tTouch (dEnv d)) s (inv_wf _ Hinv)) as Hwf1.
  rewrite (isSignatureDuplicate_spec _ _ _ Hwf1). cbn [fst snd].
  destruct (match JsMap.get _ _ with Some _ => _ | None => _ end); [|done].
  intros _. cbn [stateAfter]. rewrite <- Htouch.
  rewrite touchDedupCache_spec by apply Hinv.
  cbn [processedMessageIds processedMessageTimestamps recentSignatureTimestamps].
  by rewrite filter_idemp.
Qed.

(** The caches after the first [n] events of the family [fillEvent], with
    no assumption on [n]: the signature cache holds all [n] signatures, and
    the identity cache holds keys of the family only. *)
Lemma fill_signatures n :
  let s := deliverAll (fillEvent <$> seq 0 n) emptyDedup in
  recentSignatureTimestamps s = (λ i, (fillSignature i, 1000)) <$> seq 0 n
  ∧ ∀ k, k ∈ processedMessageIds s → ∃ i, (i < n)%nat ∧ k = fillKey i.
Proof.
  induction n as [|n [IHsig IHids]]; [split; [done|]; cbn; set_solver|].
  cbn zeta in *. rewrite seq_S, !fmap_app, deliverAll_app. cbn [fmap list_fmap Nat.add].
  set (s := deliverAll (fillEvent <$> seq 0 n) emptyDedup) in *.
  assert (reachable s) as Hs by (apply reachable_deliverAll, reach_init).
  pose proof (reachable_inv s Hs) as Hinv.
  cbn [deliverAll foldl]. split.
  2: { intros k [Hin|[Hk _]]%deliver_new_key.
       - destruct (IHids k Hin) as (i & Hi & ->). exists i. split; [lia|done].
       - exists n. split; [lia|]. by injection Hk as <-. }
  assert (rawOf (fillEvent n)
          = Some (mkRaw "text" (Some "hello") None ("u" +:+ pretty n) None "c" None None
                        (Some ("m" +:+ pretty n)))) as Hraw by done.
  rewrite (deliver_parsed (fillEvent n) _ s Hraw). cbn zeta.
  change (tNow (dEnv (fillEvent n))) with 1000.
  change (tTouch (dEnv (fillEvent n))) with 1000.
  change (dAccountId (fillEvent n)) with "default".
  change (dedupeIdOf "default" _) with (fillKey n).
  change (signatureOf "default" _) with (fillSignature n).
  set (s1 := touchDedupCache 1000 1000 s).
  pose proof (touchDedupCache_wf 1000 1000 s (inv_wf _ Hinv)) as Hwf1. fold s1 in Hwf1.
  assert (recentSignatureTimestamps s1 = recentSignatureTimestamps s) as Hsig1.
  { subst s1. rewrite touchDedupCache_spec by apply Hinv. cbn [recentSignatureTimestamps].
    apply filter_all. rewrite IHsig. apply Forall_fmap, Forall_forall. intros i _. cbn.
    unfold signatureExpired, SIGNATURE_TTL_MS. cbn. lia. }
  assert (isMessageProcessed (fillKey n) s1 = false) as ->.
  { unfold isMessageProcessed. apply bool_decide_eq_false_2. intros Hin.
    apply touchDedupCache_ids_subseteq in Hin.
    destruct (IHids _ Hin) as (i & Hi & Heq%(inj fillKey)). lia. }
  rewrite (isSignatureDuplicate_spec _ _ _ Hwf1). cbn [fst snd].
  rewrite Hsig1.
  assert (filter (λ e, ¬ signatureExpired 1000 e) (recentSignatureTimestamps s)
          = recentSignatureTimestamps s) as ->.
  { apply filter_all. rewrite IHsig. apply Forall_fmap, Forall_forall. intros i _. cbn.
    unfold signatureExpired, SIGNATURE_TTL_MS. cbn. lia. }
  assert (fillSignature n ∉ JsMap.keys (recentSignatureTimestamps s)) as Hnew.
  { rewrite IHsig. unfold JsMap.keys. rewrite <- list_fmap_compose, list_elem_of_fmap.
    intros (i & Hi%(inj fillSignature) & Hin). subst i. apply elem_of_seq in Hin. lia. }
  rewrite (proj2 (get_None _ _) Hnew). cbn [stateAfter].
  rewrite markMessageProcessed_sigs. cbn [recentSignatureTimestamps].
  by rewrite keys_set_new, IHsig.
Qed.

(** X19. The signature cache has no capacity of its own: for every [n]
    the module reaches a state whose signature cache holds [n] entries,
    while its identity cache holds at most [DEDUP_CACHE_MAX_SIZE]; only
    the age of the entries bounds the signature cache. *)
Theorem signature_cache_has_no_capacity_bound :
  ∀ n : nat, ∃ s,
    reachable s
    ∧ length (recentSignatureTimestamps s) = n
    ∧ idsSize s <= DEDUP_CACHE_MAX_SIZE.
Proof.
  intros n. exists (deliverAll (fillEvent <$> seq 0 n) emptyDedup).
  assert (reachable (deliverAll (fillEvent <$> seq 0 n) emptyDedup)) as Hs
    by (apply reachable_deliverAll, reach_init).
  split; [done|]. split; [|apply (reachable_inv _ Hs)].
  destruct (fill_signatures n) as [-> _]. by rewrite length_fmap, length_seq.
Qed.

(* ===================================================================== *)
(** ** Identity cache: an entry evicted within its time to live *)
(* ===================================================================== *)

(** An event whose identity key is not cached and whose signature key has
    no live entry is dispatched. *)
Lemma dispatches_without_live_entry d s k sig :
  reachable s → identityKey d = Some k → signatureKey d = Some sig →
  k ∉ processedMessageIds s →
  (∀ t, JsMap.get sig (recentSignatureTimestamps s) = Some t →
        t = 0 ∨ tNow (dEnv d) - t >= SIGNATURE_TTL_MS) →
  dispatched (deliver d s) ≠ [].
Proof.
  intros Hs Hk Hsig Hnew Hold. pose proof (reachable_inv s Hs) as Hinv.
  unfold identityKey, signatureKey in *.
  destruct (rawOf d) as [raw|] eqn:Hraw; [|done].
  injection Hk as Hk. injection Hsig as Hsig.
  rewrite (deliver_parsed d raw s Hraw). cbn zeta. rewrite Hk, Hsig.
  set (s1 := touchDedupCache (tNow (dEnv d)) (tTouch (dEnv d)) s).
  pose proof (touchDedupCache_wf (tNow (dEnv d)) (tTouch (dEnv d)) s (inv_wf _ Hinv)) as Hwf1.
  fold s1 in Hwf1.
  assert (isMessageProcessed k s1 = false) as ->.
  { unfold isMessageProcessed. apply bool_decide_eq_false_2. intros Hin.
    by apply touchDedupCache_ids_subseteq in Hin. }
  pose proof (isSignatureDuplicate_true_iff sig (tNow (dEnv d)) s1 Hwf1) as Hdup.
  destruct (isSignatureDuplicate sig (tNow (dEnv d)) s1) as [[] s2]; cbn [fst snd] in *;
    [|done].
  exfalso. destruct (proj1 Hdup eq_refl) as (t & Hget & Hnz & Hlt).
  subst s1. rewrite touchDedupCache_spec in Hget by apply Hinv.
  cbn [recentSignatureTimestamps] in Hget.
  apply get_filter_iff in Hget as [Hget _]; [|apply Hinv].
  destruct (Hold t Hget); [done|lia].
Qed.

(** Below capacity the first [n] events of the family leave [filled n]. *)
Lemma deliverAll_filled n :
  Z.of_nat n <= DEDUP_CACHE_MAX_SIZE →
  deliverAll (fillEvent <$> seq 0 n) emptyDedup = filled n.
Proof.
  induction n as [|n IH]; intros Hn; [done|].
  rewrite seq_S, fmap_app, deliverAll_app, IH by lia.
  cbn [fmap list_fmap Nat.add deliverAll foldl].
  assert (reachable (filled n)) as Hr by (apply filled_reachable; lia).
  apply (fill_step n (reachable_inv _ Hr)). lia.
Qed.

(** The caches after the events 0 to [n] of the family, where [n] is the
    capacity: the entry of event 0 has been evicted, and every signature
    was recorded at time 1000. *)
Lemma overfilled_state n :
  Z.of_nat n = DEDUP_CACHE_MAX_SIZE →
  let s2 := deliverAll (fillEvent <$> seq 1 n)
                       (stateAfter (deliver (fillEvent 0) emptyDedup)) in
  reachable s2
  ∧ (fillKey 0 ∉ processedMessageIds s2)
  ∧ Forall (λ e, e.2 = 1000) (recentSignatureTimestamps s2).
Proof.
  intros Hn. cbn zeta.
  change (deliverAll (fillEvent <$> seq 1 n) (stateAfter (deliver (fillEvent 0) emptyDedup)))
    with (deliverAll (fillEvent <$> seq 0 (S n)) emptyDedup).
  split; [apply reachable_deliverAll, reach_init|]. split.
  - rewrite seq_S, fmap_app, deliverAll_app, deliverAll_filled by lia.
    cbn [fmap list_fmap Nat.add deliverAll foldl].
    by apply full_cache_evicts_oldest.
  - destruct (fill_signatures (S n)) as [-> _].
    apply Forall_fmap, Forall_forall. by intros i _.
Qed.

(** With [n] the capacity: event 0 of the family is dispatched, the events
    1 to [n] follow, and the redelivery of event 0, 199 seconds after it,
    is dispatched again. *)
Lemma evicted_key_redispatched n :
  Z.of_nat n = DEDUP_CACHE_MAX_SIZE →
  dispatched (deliver (fillEvent 0) emptyDedup) ≠ []
  ∧ dispatched (deliver fillEvent0Again
                  (deliverAll (fillEvent <$> seq 1 n)
                              (stateAfter (deliver (fillEvent 0) emptyDedup)))) ≠ [].
Proof.
  intros Hn. split; [apply (fill_step 0 emptyDedup_inv)|].
  destruct (overfilled_state n Hn) as (Hr & Hgone & Hsigs).
  apply (dispatches_without_live_entry fillEvent0Again _ (fillKey 0) (fillSignature 0));
    [exact Hr | reflexivity | reflexivity | exact Hgone |].
  intros t Hget%get_Some_elem. right.
  rewrite Forall_forall in Hsigs. specialize (Hsigs _ Hget). cbn in Hsigs. subst t.
  vm_compute. discriminate.
Qed.

(** The pair property read on keys and times alone fails: event 0 of the
    family is dispatched at 1 s and marked; the [DEDUP_CACHE_MAX_SIZE]
    events that follow it fill the identity cache and the last of them
    evicts its entry; its redelivery at 200 s, well within
    [DEDUP_CACHE_TTL], finds no entry and is dispatched again. *)
Lemma identity_entry_evicted_within_ttl : ¬ identityWindowFromFirst.
Proof.
  intros Hall.
  assert (Z.of_nat capacity = DEDUP_CACHE_MAX_SIZE) as Hn
    by (unfold capacity; by rewrite Z2Nat.id).
  destruct (evicted_key_redispatched capacity Hn) as [Hfirst Hagain].
  apply Hagain.
  refine (proj1 (Hall emptyDedup (fillEvent 0) (fillEvent <$> seq 1 capacity) fillEvent0Again
                   (fillKey 0) reach_init eq_refl eq_refl Hfirst _ _)).
  - apply Forall_fmap, Forall_forall. intros i _. cbn. lia.
  - vm_compute. discriminate.
Qed.

(* ===================================================================== *)
(** ** Further properties of the connection supervisor *)
(* ===================================================================== *)

Lemma counts_app (f : Effect → bool) (l1 l2 : list Effect) :
  length (filter (λ x, f x = true) (l1 ++ l2))
  = (length (filter (λ x, f x = true) l1) + length (filter (λ x, f x = true) l2))%nat.
Proof. by rewrite filter_app, length_app. Qed.

Lemma effectOwned_mono w w' e :
  (∀ sid ss, sessions w !! sid = Some ss →
     ∃ ss', sessions w' !! sid = Some ss' ∧ sPromise ss' = sPromise ss ∧ sClient ss' = sClient ss) →
  effectOwned w e → effectOwned w' e.
Proof.
  intros Hses. destruct e; cbn; intros (sid & ss & Hlook & Heq);
    destruct (Hses sid ss Hlook) as (ss' & Hlook' & Hp & Hc); exists sid, ss'; split; congruence.
Qed.

(** The running session is the only one not stopped. *)
Lemma world_inv_running w sid ss sid' ss' :
  world_inv w → sessions w !! sid = Some ss → sStopped ss = false →
  sessions w !! sid' = Some ss' → sid' ≠ sid → sStopped ss' = true.
Proof.
  intros Hinv Hs Hrun Hs' Hne.
  destruct (sStopped ss') eqn:Hst; [done|].
  destruct (so_current _ _ _ (wi_sessions _ Hinv _ _ Hs) Hrun) as [H1 _].
  destruct (so_current _ _ _ (wi_sessions _ Hinv _ _ Hs') Hst) as [H2 _].
  congruence.
Qed.

(** Finalizing a running session keeps the invariant and leaves the monitor idle. *)
Lemma finalized_inv sid ss st e w :
  world_inv w → sessions w !! sid = Some ss → sStopped ss = false →
  settledBy e (sPromise ss) st →
  world_inv (finalized sid ss st e w) ∧ currentClient (finalized sid ss st e w) = None.
Proof.
  intros Hinv Hs Hrun He.
  pose proof (wi_sessions _ Hinv _ _ Hs) as [Hres Hrej Hprom _ Hdisc Hcur].
  destruct (Hcur Hrun) as [Hstop Hclient].
  pose proof (proj2 Hprom Hrun) as Hpending.
  assert (world_ok (finalized sid ss st e w)) as Hok.
  { apply finalized_ok; [apply Hinv|done|]. destruct He as [[-> _]|[err [-> _]]]; eauto. }
  unfold finalized in *. rewrite Hclient, Hpending, bool_decide_eq_true_2 in * by done.
  split; [|done].
  pose proof (lookup_lt_Some _ _ _ Hs) as Hlt.
  pose proof (lookup_lt_Some _ _ _ Hpending) as Hltp.
  cbn in Hres, Hrej. rewrite Hrun in Hdisc.
  assert (isResolveOf (sPromise ss) e = isFulfilled (Some st)
          ∧ isRejectOf (sPromise ss) e = isRejected (Some st)
          ∧ isFulfilled (Some st) || isRejected (Some st) = true
          ∧ st ≠ Pending
          ∧ isDisconnectOf (sClient ss) e = false) as (He1 & He2 & He3 & He4 & He5).
  { destruct He as [[-> ->]|[err [-> ->]]]; cbn; rewrite ?bool_decide_eq_true_2 by done; done. }
  split; cbn [currentClient currentAccountId currentPromise currentStop sessions promises
              clients aborted listeners effects].
  - done.
  - done.
  - done.
  - intros sid' ss' Hlook.
    destruct (decide (sid' = sid)) as [->|Hne].
    + rewrite list_lookup_insert_eq in Hlook by done. injection Hlook as <-.
      split; cbn.
      * unfold resolveCalls in *. cbn. rewrite calls_after_finalize. cbn.
        rewrite list_lookup_insert_eq by done. rewrite Hres, He1.
        by destruct (isFulfilled (Some st)).
      * unfold rejectCalls in *. cbn. rewrite calls_after_finalize. cbn.
        rewrite list_lookup_insert_eq by done. rewrite Hrej, He2.
        by destruct (isRejected (Some st)).
      * rewrite list_lookup_insert_eq by done. naive_solver.
      * intros _. by rewrite list_lookup_insert_eq by done.
      * unfold disconnectCalls in *. cbn. rewrite calls_after_finalize. cbn.
        rewrite Hdisc, He5, bool_decide_eq_true_2 by done. done.
      * done.
    + rewrite list_lookup_insert_ne in Hlook by done.
      pose proof (world_inv_running w sid ss sid' ss' Hinv Hs Hrun Hlook Hne) as Hst'.
      pose proof (wi_sessions _ Hinv _ _ Hlook) as [Hres' Hrej' Hprom' Hset' Hdisc' _].
      destruct (wi_distinct _ Hinv _ _ _ _ Hlook Hs Hne) as [Hp Hc].
      assert (isResolveOf (sPromise ss') e = false ∧ isRejectOf (sPromise ss') e = false)
        as [Hx Hy].
      { destruct He as [[-> _]|[err [-> _]]]; cbn; rewrite bool_decide_eq_false_2 by done; done. }
      assert (isDisconnectOf (sClient ss') e = false) as Hz
        by (destruct He as [[-> _]|[err [-> _]]]; done).
      split.
      * unfold resolveCalls in *. cbn. rewrite calls_after_finalize. cbn.
        rewrite list_lookup_insert_ne by done. rewrite Hx. lia.
      * unfold rejectCalls in *. cbn. rewrite calls_after_finalize. cbn.
        rewrite list_lookup_insert_ne by done. rewrite Hy. lia.
      * cbn. rewrite list_lookup_insert_ne by done. done.
      * cbn. rewrite list_lookup_insert_ne by done. done.
      * unfold disconnectCalls in *. cbn. rewrite calls_after_finalize. cbn.
        rewrite Hz, bool_decide_eq_false_2 by done. lia.
      * by rewrite Hst'.
  - intros sid1 sid2 ss1 ss2 H1 H2 Hne.
    assert (∀ i x, <[sid:={| sClient := sClient ss; sStopped := true; sSignal := sSignal ss;
                             sPromise := sPromise ss |}]> (sessions w) !! i = Some x →
                   ∃ y, sessions w !! i = Some y ∧ sPromise y = sPromise x ∧ sClient y = sClient x)
      as Hback.
    { intros i x Hx. destruct (decide (i = sid)) as [->|Hi].
      - rewrite list_lookup_insert_eq in Hx by done. injection Hx as <-. by exists ss.
      - rewrite list_lookup_insert_ne in Hx by done. by exists x. }
    destruct (Hback _ _ H1) as (y1 & Hy1 & <- & <-).
    destruct (Hback _ _ H2) as (y2 & Hy2 & <- & <-).
    by apply (wi_distinct _ Hinv sid1 sid2).
  - intros g sid' Hin.
    assert ((g, sid') ∈ listeners w ∧ (sSignal ss = Some g → sid' ≠ sid)) as [Hin' Hne].
    { destruct (sSignal ss) as [g0|]; [|done].
      apply list_elem_of_filter in Hin as [Hne Hin]. split; [done|].
      intros [= ->] ->. done. }
    destruct (wi_listeners _ Hinv _ _ Hin') as (ss' & Hlook & Hsig & Hrun').
    destruct (decide (sid' = sid)) as [->|Hne'].
    + exfalso. apply Hne; [|done]. congruence.
    + pose proof (world_inv_running w sid ss sid' ss' Hinv Hs Hrun Hlook Hne').
      congruence.
  - apply Forall_app. split.
    + eapply Forall_impl; [apply (wi_effects _ Hinv)|]. intros x. apply effectOwned_mono.
      intros i y Hy. cbn [sessions]. destruct (decide (i = sid)) as [->|Hi].
      * rewrite list_lookup_insert_eq by done. eexists. split; [done|].
        rewrite Hs in Hy. by injection Hy as <-.
      * rewrite list_lookup_insert_ne by done. by exists y.
    + assert (∃ ss', <[sid:={| sClient := sClient ss; sStopped := true; sSignal := sSignal ss;
                              sPromise := sPromise ss |}]> (sessions w) !! sid = Some ss'
                     ∧ sPromise ss' = sPromise ss ∧ sClient ss' = sClient ss)
        as (ss' & Hlook' & Hp' & Hc').
      { eexists. rewrite list_lookup_insert_eq by done. done. }
      repeat apply Forall_cons_2; [| |apply Forall_nil_2].
      * cbn. by exists sid, ss'.
      * destruct He as [[-> _]|[err [-> _]]]; cbn; by exists sid, ss'.
Qed.

Lemma quiet_counts (f : Effect → bool) (es : list Effect) :
  Forall (λ e, f e = false) es → length (filter (λ x, f x = true) es) = 0%nat.
Proof.
  induction 1 as [|e es He _ IH]; [done|]. rewrite filter_cons.
  by rewrite decide_False by (by rewrite He).
Qed.

(** Changes that leave the sessions, the current session and its settle
    and disconnect calls alone keep the invariant. *)
Lemma world_inv_frame w w' es :
  world_inv w → world_ok w' →
  currentClient w' = currentClient w → currentAccountId w' = currentAccountId w →
  currentStop w' = currentStop w → sessions w' = sessions w →
  (∀ sid ss, sessions w !! sid = Some ss →
             promises w' !! sPromise ss = promises w !! sPromise ss) →
  (∀ g sid, (g, sid) ∈ listeners w' →
     (g, sid) ∈ listeners w
     ∨ ∃ ss, sessions w !! sid = Some ss ∧ sSignal ss = Some g ∧ sStopped ss = false) →
  effects w' = effects w ++ es → Forall (λ e, effectOwned w e ∧ quietEffect e) es →
  world_inv w'.
Proof.
  intros Hinv Hok Hc Ha Hst Hses Hprom Hlis Heff Hes.
  assert (∀ f : Effect → bool, Forall (λ e, quietEffect e → f e = false) es →
            length (filter (λ x, f x = true) (effects w'))
            = length (filter (λ x, f x = true) (effects w))) as Hcount.
  { intros f Hf. rewrite Heff, counts_app, (quiet_counts f es); [lia|].
    apply Forall_forall. intros e He.
    rewrite Forall_forall in Hf, Hes. apply Hf; [done|]. by apply Hes. }
  split.
  - done.
  - rewrite Hc, Ha, Hst. apply Hinv.
  - rewrite Hc, Ha, Hst, Hses. apply Hinv.
  - rewrite Hses. intros sid ss Hlook.
    destruct (wi_sessions _ Hinv _ _ Hlook) as [Hres Hrej Hp Hset Hd Hcur].
    split; rewrite ?(Hprom sid ss Hlook).
    + unfold resolveCalls in *. rewrite Hcount; [done|].
      apply Forall_forall. by intros [].
    + unfold rejectCalls in *. rewrite Hcount; [done|].
      apply Forall_forall. by intros [].
    + done.
    + done.
    + unfold disconnectCalls in *. rewrite Hcount; [done|].
      apply Forall_forall. by intros [].
    + by rewrite Hc, Hst.
  - rewrite Hses. apply Hinv.
  - rewrite Hses. intros g sid Hin. destruct (Hlis g sid Hin) as [Hin'|?]; [|done].
    by apply (wi_listeners _ Hinv).
  - rewrite Heff. apply Forall_app. split.
    + eapply Forall_impl; [apply (wi_effects _ Hinv)|]. intros x. apply effectOwned_mono.
      rewrite Hses. intros i y Hy. by exists y.
    + eapply Forall_impl; [exact Hes|]. cbn. intros x [Hx _]. revert Hx.
      apply effectOwned_mono. rewrite Hses. intros i y Hy. by exists y.
Qed.

Lemma sameOrIdle_refl w : sameOrIdle w w.
Proof. by right. Qed.

Lemma sameOrIdle_trans w1 w2 w3 : sameOrIdle w1 w2 → sameOrIdle w2 w3 → sameOrIdle w1 w3.
Proof.
  intros [H12|(Ha & Hb & Hc & Hd)] [H23|(Ha' & Hb' & Hc' & Hd')].
  - by left.
  - left. congruence.
  - by left.
  - right. split_and!; congruence.
Qed.

Lemma finalizeResolve_inv sid w :
  world_inv w →
  world_inv (finalizeResolve sid w) ∧ sameOrIdle w (finalizeResolve sid w).
Proof.
  intros Hinv.
  destruct (sessions w !! sid) as [ss|] eqn:Hs;
    [|rewrite finalizeResolve_idle by (by rewrite Hs); split; [done|apply sameOrIdle_refl]].
  destruct (sStopped ss) eqn:Hst;
    [rewrite finalizeResolve_idle by (rewrite Hs; by intros ? [= <-]);
     split; [done|apply sameOrIdle_refl]|].
  rewrite (finalizeResolve_running sid ss w Hs Hst).
  destruct (finalized_inv sid ss Fulfilled (CallResolve (sPromise ss)) w Hinv Hs Hst)
    as [H1 H2]; [by left|].
  split; [done | by left].
Qed.

Lemma finalizeReject_inv sid err w :
  world_inv w →
  world_inv (finalizeReject sid err w) ∧ sameOrIdle w (finalizeReject sid err w).
Proof.
  intros Hinv. unfold finalizeReject.
  destruct (sessions w !! sid) as [ss|] eqn:Hs; [|split; [done|apply sameOrIdle_refl]].
  destruct (sStopped ss) eqn:Hst; [split; [done|apply sameOrIdle_refl]|].
  pose proof (finalizeReject_running sid ss err w Hs Hst) as Hrun.
  unfold finalizeReject in Hrun. rewrite Hs, Hst in Hrun. rewrite Hrun.
  destruct (finalized_inv sid ss (Rejected err) (CallReject (sPromise ss) err) w Hinv Hs Hst)
    as [H1 H2]; [right; by exists err|].
  split; [done | by left].
Qed.

Lemma removeListener_inv sig sid w :
  world_inv w → world_inv (removeListener sig sid w) ∧ sameOrIdle w (removeListener sig sid w).
Proof.
  intros Hinv. split; [|destruct sig; by right].
  apply (world_inv_frame w _ []); try done.
  - apply removeListener_ok, Hinv.
  - by destruct sig.
  - by destruct sig.
  - by destruct sig.
  - by destruct sig.
  - intros i ss _. by destruct sig.
  - intros g i Hin. left. destruct sig as [g0|]; [|done].
    cbn in Hin. by apply list_elem_of_filter in Hin as [_ ?].
  - destruct sig; cbn; by rewrite app_nil_r.
Qed.

Lemma setAborted_inv a w : world_inv w → world_inv (setAborted a w).
Proof.
  intros Hinv. apply (world_inv_frame w _ []); try done.
  - destruct (wi_ok _ Hinv). by split.
  - intros g i Hin. by left.
  - cbn. by rewrite app_nil_r.
Qed.

Lemma runListener_inv g w sid :
  world_inv w → world_inv (runListener g w sid) ∧ sameOrIdle w (runListener g w sid).
Proof.
  intros Hinv. unfold runListener, handleAbort.
  case_decide; [|split; [done|apply sameOrIdle_refl]].
  destruct (removeListener_inv (Some g) sid w Hinv) as [H1 H2].
  destruct (finalizeResolve_inv sid _ H1) as [H3 H4].
  split; [done|]. exact (sameOrIdle_trans _ _ _ H2 H4).
Qed.

Lemma runListeners_inv g l : ∀ w,
  world_inv w →
  world_inv (foldl (runListener g) w l) ∧ sameOrIdle w (foldl (runListener g) w l).
Proof.
  induction l as [|sid l IH]; intros w Hinv; cbn; [split; [done|apply sameOrIdle_refl]|].
  destruct (runListener_inv g w sid Hinv) as [H1 H2].
  destruct (IH _ H1) as [H3 H4]. split; [done|]. exact (sameOrIdle_trans _ _ _ H2 H4).
Qed.

Lemma fireAbort_inv g w :
  world_inv w → world_inv (fireAbort g w) ∧ sameOrIdle w (fireAbort g w).
Proof.
  intros Hinv. unfold fireAbort. case_decide; [split; [done|apply sameOrIdle_refl]|].
  destruct (runListeners_inv g ((filter (λ l, l.1 = g) (listeners w)).*2)
              (setAborted ({[g]} ∪ aborted w) w)) as [H1 H2];
    [by apply setAborted_inv|].
  split; [done|]. eapply sameOrIdle_trans; [|exact H2]. by right.
Qed.

Lemma stopDingtalkMonitor_inv w :
  world_inv w → world_inv (stopDingtalkMonitor w) ∧ sameOrIdle w (stopDingtalkMonitor w).
Proof.
  intros Hinv. unfold stopDingtalkMonitor, stopHook.
  destruct (currentStop w) as [sid|] eqn:Hstop; [by apply finalizeResolve_inv|].
  destruct (currentClient w) as [c|] eqn:Hc; [|split; [done|apply sameOrIdle_refl]].
  destruct (wi_active _ Hinv c Hc) as (sid & ss & acct & Hstop' & _). congruence.
Qed.

Lemma runOp_inv o w : world_inv w → world_inv (runOp o w) ∧ sameOrIdle w (runOp o w).
Proof.
  intros Hinv. destruct o as [|g|sid|sid]; cbn.
  - by apply stopDingtalkMonitor_inv.
  - by apply fireAbort_inv.
  - by apply finalizeResolve_inv.
  - by apply finalizeResolve_inv.
Qed.

Lemma idle_all_stopped w sid ss :
  world_inv w → currentClient w = None → sessions w !! sid = Some ss → sStopped ss = true.
Proof.
  intros Hinv Hidle Hs. destruct (sStopped ss) eqn:Hst; [done|].
  destruct (so_current _ _ _ (wi_sessions _ Hinv _ _ Hs) Hst) as [_ Hc]. congruence.
Qed.

Lemma idle_no_listeners w x : world_inv w → currentClient w = None → x ∉ listeners w.
Proof.
  intros Hinv Hidle Hin. destruct x as [g sid].
  destruct (wi_listeners _ Hinv _ _ Hin) as (ss & Hs & _ & Hrun).
  pose proof (idle_all_stopped w sid ss Hinv Hidle Hs). congruence.
Qed.

Lemma fresh_client_undisconnected w :
  world_inv w → disconnectCalls (clients w) w = 0%nat.
Proof.
  intros Hinv. unfold disconnectCalls. apply quiet_counts.
  eapply Forall_impl; [apply (wi_effects _ Hinv)|].
  intros [] Hown; cbn in *; try done.
  destruct Hown as (sid & ss & Hs & <-). apply bool_decide_eq_false_2.
  pose proof (Forall_lookup_1 _ _ _ _ (ok_sessions _ (wi_ok _ Hinv)) Hs) as [_ Hc].
  cbn in Hc. lia.
Qed.

Lemma openedWorld_inv acct sig cfg w :
  world_inv w → currentClient w = None → world_inv (openedWorld acct sig cfg w).
Proof.
  intros Hinv Hidle. pose proof (wi_ok _ Hinv) as Hok.
  destruct (fresh_promise_uncalled (length (promises w)) w Hok) as [Hres Hrej]; [lia|].
  pose proof (fresh_client_undisconnected w Hinv) as Hdisc.
  assert (∀ sid ss, sessions w !! sid = Some ss →
            (sPromise ss < length (promises w))%nat ∧ (sClient ss < clients w)%nat) as Hrange.
  { intros sid ss Hs. apply (Forall_lookup_1 _ _ _ _ (ok_sessions _ Hok) Hs). }
  assert (∀ (f : Effect → bool) cfg', f (CreateClient (clients w) cfg') = false →
            length (filter (λ x, f x = true) (effects w ++ [CreateClient (clients w) cfg']))
            = length (filter (λ x, f x = true) (effects w))) as Hcount.
  { intros f cfg' Hf. rewrite counts_app, (quiet_counts f [_]); [lia|]. by repeat constructor. }
  unfold openedWorld. split;
    cbn [currentClient currentAccountId currentPromise currentStop sessions promises
         clients aborted listeners effects].
  - split; cbn.
    + apply Forall_app. split.
      * eapply Forall_impl; [apply (ok_sessions _ Hok)|]. cbn. intros ss [? ?].
        rewrite length_app. cbn. lia.
      * repeat constructor; cbn; rewrite ?length_app; cbn; lia.
    + apply Forall_app. split; [|by repeat constructor].
      eapply Forall_impl; [apply (ok_effects _ Hok)|].
      intros [] ?; cbn in *; rewrite ?length_app; cbn; try done; lia.
  - done.
  - intros c [= <-].
    exists (length (sessions w)), (mkSession (clients w) false sig (length (promises w))), acct.
    split_and!; [done| |done|done|done]. by apply list_lookup_middle.
  - intros sid ss Hs. apply lookup_app_Some in Hs as [Hs|[Hge Hs]].
    + pose proof (idle_all_stopped w sid ss Hinv Hidle Hs) as Hst.
      destruct (wi_sessions _ Hinv _ _ Hs) as [Hres' Hrej' Hprom Hset Hd _].
      destruct (Hrange _ _ Hs) as [Hp Hc].
      split; cbn [promises]; rewrite ?(lookup_app_l (promises w)) by done.
      * unfold resolveCalls in *. cbn. by rewrite Hcount.
      * unfold rejectCalls in *. cbn. by rewrite Hcount.
      * done.
      * done.
      * unfold disconnectCalls in *. cbn. by rewrite Hcount.
      * by rewrite Hst.
    + destruct (sid - length (sessions w))%nat eqn:Hd; [|by destruct n].
      injection Hs as <-. assert (sid = length (sessions w)) as -> by lia.
      split; cbn [promises sPromise sStopped sClient];
        rewrite ?(list_lookup_middle (promises w) [] Pending (length (promises w))) by done.
      * unfold resolveCalls in *. cbn. by rewrite Hcount.
      * unfold rejectCalls in *. cbn. by rewrite Hcount.
      * done.
      * done.
      * unfold disconnectCalls in *. cbn. by rewrite Hcount.
      * done.
  - intros sid sid' ss ss' Hs Hs' Hne.
    apply lookup_app_Some in Hs as [Hs|[Hge Hs]];
      apply lookup_app_Some in Hs' as [Hs'|[Hge' Hs']].
    + by apply (wi_distinct _ Hinv sid sid').
    + destruct (sid' - length (sessions w))%nat eqn:Hd; [|by destruct n].
      injection Hs' as <-. cbn. destruct (Hrange _ _ Hs). lia.
    + destruct (sid - length (sessions w))%nat eqn:Hd; [|by destruct n].
      injection Hs as <-. cbn. destruct (Hrange _ _ Hs'). lia.
    + destruct (sid - length (sessions w))%nat eqn:Hd; [|by destruct n].
      destruct (sid' - length (sessions w))%nat eqn:Hd'; [|by destruct n]. lia.
  - intros g sid Hin. by destruct (idle_no_listeners w (g, sid) Hinv Hidle).
  - apply Forall_app. split.
    + eapply Forall_impl; [apply (wi_effects _ Hinv)|]. intros x. apply effectOwned_mono.
      cbn. intros i y Hy. exists y. split; [by apply lookup_app_l_Some|done].
    + repeat constructor. cbn. eexists _, _. split; [by apply list_lookup_middle|done].
Qed.

Lemma addListener_inv sig sid w ss :
  world_inv w → sessions w !! sid = Some ss → sSignal ss = sig → sStopped ss = false →
  world_inv (addListener sig sid w) ∧ sameOrIdle w (addListener sig sid w)
  ∧ sessions (addListener sig sid w) = sessions w.
Proof.
  intros Hinv Hs Hsig Hrun.
  destruct (addListener_frame sig sid w) as (H1 & H2 & H3 & H4 & H5 & H6 & H7 & H8 & H9).
  split_and!; [|by right|done].
  apply (world_inv_frame w _ []); try done.
  - apply addListener_ok, Hinv.
  - intros i y _. by rewrite H6.
  - intros g i Hin. unfold addListener in Hin. destruct sig as [g0|]; [|by left].
    case_decide; [by left|]. cbn in Hin.
    apply elem_of_app in Hin as [?|[= -> ->]%list_elem_of_singleton]; [by left|].
    right. by exists ss.
  - by rewrite H9, app_nil_r.
Qed.

Lemma emit_quiet_inv e w :
  world_inv w → effectOwned w e → quietEffect e →
  world_inv (emit e w) ∧ sameOrIdle w (emit e w) ∧ sessions (emit e w) = sessions w.
Proof.
  intros Hinv Hown Hq. split_and!; [|by right|done].
  apply (world_inv_frame w _ [e]); try done.
  - apply (world_ok_grow w _ [e]); try done; [apply Hinv|].
    repeat constructor. by destruct e.
  - intros g i Hin. by left.
  - by repeat constructor.
Qed.

Lemma sessions_promises_finalizeResolve sid w :
  sPromise <$> sessions (finalizeResolve sid w) = sPromise <$> sessions w.
Proof.
  destruct (sessions w !! sid) as [ss|] eqn:Hs;
    [|by rewrite finalizeResolve_idle by (by rewrite Hs)].
  destruct (sStopped ss) eqn:Hst;
    [by rewrite finalizeResolve_idle by (rewrite Hs; by intros ? [= <-])|].
  rewrite (finalizeResolve_running sid ss w Hs Hst). cbn.
  rewrite list_fmap_insert. cbn. apply list_insert_id. by rewrite list_lookup_fmap, Hs.
Qed.

Lemma sessions_promises_finalizeReject sid err w :
  sPromise <$> sessions (finalizeReject sid err w) = sPromise <$> sessions w.
Proof.
  unfold finalizeReject.
  destruct (sessions w !! sid) as [ss|] eqn:Hs; [|done].
  destruct (sStopped ss) eqn:Hst; [done|].
  pose proof (finalizeReject_running sid ss err w Hs Hst) as Hrun.
  unfold finalizeReject in Hrun. rewrite Hs, Hst in Hrun. rewrite Hrun. cbn.
  rewrite list_fmap_insert. cbn. apply list_insert_id. by rewrite list_lookup_fmap, Hs.
Qed.

(** The executor, run on the world in which the client has just been made
    current: it opens its session and then leaves the session running or
    ends it. *)
Lemma executor_inv acct sig cfg env w :
  world_inv w → currentClient w = None →
  let w3 := mkWorld (Some (clients w)) (Some acct) (currentPromise w) (currentStop w)
                    (sessions w) (promises w ++ [Pending]) (S (clients w)) (aborted w)
                    (listeners w) (effects w ++ [CreateClient (clients w) cfg]) in
  let wE := executor (clients w) acct sig env (length (promises w)) w3 in
  world_inv wE ∧ sameOrIdle (openedWorld acct sig cfg w) wE
  ∧ sPromise <$> sessions wE = (sPromise <$> sessions w) ++ [length (promises w)].
Proof.
  intros Hinv Hidle w3 wE.
  pose proof (openedWorld_inv acct sig cfg w Hinv Hidle) as HinvO.
  set (wO := openedWorld acct sig cfg w) in *.
  set (sid := length (sessions w)).
  set (ss := mkSession (clients w) false sig (length (promises w))).
  assert (sessions wO !! sid = Some ss) as HsO by (by apply list_lookup_middle).
  assert (sPromise <$> sessions wO = (sPromise <$> sessions w) ++ [length (promises w)]) as HpO.
  { cbn. by rewrite fmap_app. }
  assert (wE = if signalAborted sig wO then finalizeResolve sid wO
               else let wL := addListener sig sid wO in
                    if registerThrows env then finalizeReject sid ErrTransport wL
                    else let w5 := emit (Connect (clients w))
                                     (emit (RegisterCallback (clients w) acct) wL) in
                         if connectThrows env then finalizeReject sid ErrTransport w5
                         else w5) as ->.
  { reflexivity. }
  destruct (signalAborted sig wO).
  { destruct (finalizeResolve_inv sid wO HinvO) as [H1 H2].
    split_and!; [done|done|]. by rewrite sessions_promises_finalizeResolve. }
  cbn zeta.
  destruct (addListener_inv sig sid wO ss HinvO HsO eq_refl eq_refl) as (HinvL & HsameL & HsL).
  set (wL := addListener sig sid wO) in *.
  destruct (registerThrows env).
  { destruct (finalizeReject_inv sid ErrTransport wL HinvL) as [H1 H2].
    split_and!; [done|exact (sameOrIdle_trans _ _ _ HsameL H2)|].
    by rewrite sessions_promises_finalizeReject, HsL. }
  assert (effectOwned wL (RegisterCallback (clients w) acct)) as Hown1.
  { change (∃ i y, sessions wL !! i = Some y ∧ sClient y = clients w).
    exists sid, ss. by rewrite HsL. }
  destruct (emit_quiet_inv _ wL HinvL Hown1 I) as (Hinv4 & Hsame4 & Hs4).
  set (w4 := emit (RegisterCallback (clients w) acct) wL) in *.
  assert (effectOwned w4 (Connect (clients w))) as Hown2.
  { change (∃ i y, sessions w4 !! i = Some y ∧ sClient y = clients w).
    exists sid, ss. by rewrite Hs4, HsL. }
  destruct (emit_quiet_inv _ w4 Hinv4 Hown2 I) as (Hinv5 & Hsame5 & Hs5).
  set (w5 := emit (Connect (clients w)) w4) in *.
  pose proof (sameOrIdle_trans _ _ _ HsameL (sameOrIdle_trans _ _ _ Hsame4 Hsame5)) as Hsame.
  destruct (connectThrows env).
  { destruct (finalizeReject_inv sid ErrTransport w5 Hinv5) as [H1 H2].
    split_and!; [done|exact (sameOrIdle_trans _ _ _ Hsame H2)|].
    by rewrite sessions_promises_finalizeReject, Hs5, Hs4, HsL. }
  split_and!; [done|done|]. by rewrite Hs5, Hs4, HsL.
Qed.

Lemma monitorBody_no_session opts env w :
  currentClient w ≠ None ∨ dingtalkCfgOf opts = None ∨ createThrows env = true →
  (monitorBody opts env w).1 = w.
Proof.
  intros Hcase. unfold monitorBody.
  destruct (currentClient w) as [c|].
  { destruct (match currentAccountId w with Some _ => _ | None => _ end); [done|].
    by destruct (currentPromise w). }
  destruct (dingtalkCfgOf opts) as [cfg|]; [|done].
  destruct (createThrows env); [done|]. by destruct Hcase as [?|[?|?]].
Qed.

(** A start that opens no session changes nothing but the promise it
    returns, which it allocates and settles. *)
Lemma start_no_session opts env w :
  currentClient w ≠ None ∨ dingtalkCfgOf opts = None ∨ createThrows env = true →
  ∃ st, st ≠ Pending
        ∧ monitorDingtalkProvider opts env w
          = (setPromises (promises w ++ [st]) w, length (promises w)).
Proof.
  intros Hcase. unfold monitorDingtalkProvider.
  set (w0 := setPromises (promises w ++ [Pending]) w).
  pose proof (monitorBody_no_session opts env w0 Hcase) as Hsame.
  destruct (monitorBody opts env w0) as [w1 [err|q]]; cbn [fst] in Hsame; subst w1.
  - exists (Rejected err). split; [done|]. f_equal. unfold setPromises. cbn. f_equal.
    apply insert_at_length.
  - exists (Follows q). split; [done|]. f_equal. unfold setPromises. cbn. f_equal.
    apply insert_at_length.
Qed.

(** A start that opens a session, in terms of the run of the executor. *)
Lemma start_new_session opts env w cfg :
  currentClient w = None → dingtalkCfgOf opts = Some cfg → createThrows env = false →
  let result := length (promises w) in
  let p := S result in
  let wE := executor (clients w) (accountIdOf opts) (abortSignal opts) env p
              (mkWorld (Some (clients w)) (Some (accountIdOf opts)) (currentPromise w)
                       (currentStop w) (sessions w) ((promises w ++ [Pending]) ++ [Pending])
                       (S (clients w)) (aborted w) (listeners w)
                       (effects w ++ [CreateClient (clients w) cfg])) in
  monitorDingtalkProvider opts env w
  = (setPromises (<[result := Follows p]> (promises wE)) (setCurrentPromise (Some p) wE),
     result).
Proof.
  intros Hidle Hcfg Hcreate. cbn zeta. unfold monitorDingtalkProvider.
  set (w0 := setPromises (promises w ++ [Pending]) w).
  rewrite (monitorBody_idle_start opts env w0 cfg Hidle Hcfg Hcreate).
  subst w0. cbn [setPromises promises currentClient currentAccountId currentPromise currentStop
                 sessions clients aborted listeners effects].
  rewrite length_app. cbn [length]. rewrite Nat.add_1_r. reflexivity.
Qed.

Lemma promise_append_inv st w : world_inv w → world_inv (setPromises (promises w ++ [st]) w).
Proof.
  intros Hinv. apply (world_inv_frame w _ []); try done.
  - apply (world_ok_grow w _ []); try done; [apply Hinv| |by rewrite app_nil_r].
    cbn. rewrite length_app. lia.
  - intros sid ss Hs. cbn. apply lookup_app_l.
    apply (Forall_lookup_1 _ _ _ _ (ok_sessions _ (wi_ok _ Hinv)) Hs).
  - intros g i Hin. by left.
  - cbn. by rewrite app_nil_r.
Qed.

(** Every start keeps the invariant, and leaves [currentPromise] pointing at
    the completion promise of the session it leaves active. *)
Lemma start_inv opts env w :
  world_inv w → current_promise_ok w →
  world_inv (monitorDingtalkProvider opts env w).1
  ∧ current_promise_ok (monitorDingtalkProvider opts env w).1.
Proof.
  intros Hinv HK.
  destruct (currentClient w) as [c|] eqn:Hc.
  { destruct (start_no_session opts env w) as (st & _ & ->); [left; congruence|].
    split; [by apply promise_append_inv | done]. }
  destruct (dingtalkCfgOf opts) as [cfg|] eqn:Hcfg.
  2: { destruct (start_no_session opts env w) as (st & _ & ->); [right; by left|].
       split; [by apply promise_append_inv | done]. }
  destruct (createThrows env) eqn:Hcreate.
  { destruct (start_no_session opts env w) as (st & _ & ->); [right; by right|].
    split; [by apply promise_append_inv | done]. }
  rewrite (start_new_session opts env w cfg Hc Hcfg Hcreate). cbn zeta. cbn [fst].
  set (w0 := setPromises (promises w ++ [Pending]) w).
  assert (world_inv w0) as Hinv0 by (by apply promise_append_inv).
  destruct (executor_inv (accountIdOf opts) (abortSignal opts) cfg env w0 Hinv0 Hc)
    as (HinvE & Hsame & Hproms).
  cbn zeta in HinvE, Hsame, Hproms.
  change (clients w0) with (clients w) in *.
  change (length (promises w0)) with (length (promises w ++ [Pending])) in *.
  rewrite length_app in *. cbn [length] in *. rewrite Nat.add_1_r in *.
  change (currentPromise w0) with (currentPromise w) in *.
  change (currentStop w0) with (currentStop w) in *.
  change (sessions w0) with (sessions w) in *.
  change (promises w0) with (promises w ++ [Pending]) in *.
  change (aborted w0) with (aborted w) in *.
  change (listeners w0) with (listeners w) in *.
  change (effects w0) with (effects w) in *.
  set (wE := executor _ _ _ _ _ _) in *.
  set (result := length (promises w)) in *.
  assert (∀ sid ss, sessions wE !! sid = Some ss → sPromise ss ≠ result) as Hfresh.
  { intros sid ss Hs.
    assert (sPromise ss ∈ sPromise <$> sessions wE) as Hin.
    { apply list_elem_of_fmap. exists ss. split; [done|]. by eapply list_elem_of_lookup_2. }
    rewrite Hproms in Hin. apply elem_of_app in Hin as [Hin|Hin].
    - apply list_elem_of_fmap in Hin as (ss' & -> & Hin).
      apply list_elem_of_lookup in Hin as [i Hi].
      pose proof (Forall_lookup_1 _ _ _ _ (ok_sessions _ (wi_ok _ Hinv)) Hi) as [Hlt _].
      cbn in Hlt. subst result. lia.
    - apply list_elem_of_singleton in Hin. lia. }
  split.
  - apply (world_inv_frame wE _ []); try done.
    + apply (world_ok_grow wE _ []); try done; [apply HinvE| |by rewrite app_nil_r].
      cbn. by rewrite length_insert.
    + intros sid ss Hs. cbn. apply list_lookup_insert_ne. intros Heq.
      by apply (Hfresh sid ss Hs).
    + intros g i Hin. by left.
    + cbn. by rewrite app_nil_r.
  - intros c'. cbn [currentClient setPromises setCurrentPromise setCurrent currentStop
                    sessions currentPromise].
    intros HcE. destruct Hsame as [Hidle|(Ha & Hb & _ & Hd)]; [congruence|].
    exists (length (sessions w)),
           (mkSession (clients w) false (abortSignal opts) (length (promises w0))).
    split_and!; [by rewrite Hb| |].
    + rewrite Hd. cbn. by apply list_lookup_middle.
    + cbn. rewrite length_app. cbn. f_equal. subst result. lia.
Qed.

Lemma sameOrIdle_current_promise w w' :
  sameOrIdle w w' → current_promise_ok w → current_promise_ok w'.
Proof.
  intros [Hidle|(Ha & Hb & Hc & Hd)] HK c Hc'; [congruence|].
  rewrite Ha in Hc'. destruct (HK c Hc') as (sid & ss & H1 & H2 & H3).
  exists sid, ss. split_and!; congruence.
Qed.

(** The invariant holds in every world the module reaches. *)
Lemma reachableWorld_inv w : reachableWorld w → world_inv w ∧ current_promise_ok w.
Proof.
  induction 1 as [|opts env w _ [IH1 IH2]|o w _ [IH1 IH2]].
  - split; [|by intros c].
    split; cbn; try done.
    intros g sid Hin. by destruct (not_elem_of_nil (g, sid)).
  - by apply start_inv.
  - destruct (runOp_inv o w IH1) as [H1 H2]. split; [done|].
    by apply (sameOrIdle_current_promise w).
Qed.

(** X20. In every world the module reaches the module variables are in
    step: [isMonitorActive] holds exactly when [getCurrentAccountId] is not
    null, and exactly when the stop hook is set; and while it holds, the
    stop hook is that of a session that is not stopped, whose client is
    [currentClient] and whose completion promise is [currentPromise] and is
    pending. *)
Theorem module_variables_in_step :
  ∀ w,
    reachableWorld w →
    (isMonitorActive w = true ↔ getCurrentAccountId w ≠ None)
    ∧ (isMonitorActive w = true ↔ currentStop w ≠ None)
    ∧ (isMonitorActive w = true →
       ∃ c sid ss,
         currentClient w = Some c ∧ currentStop w = Some sid
         ∧ sessions w !! sid = Some ss ∧ sClient ss = c ∧ sStopped ss = false
         ∧ currentPromise w = Some (sPromise ss)
         ∧ promises w !! sPromise ss = Some Pending).
Proof.
  intros w Hreach. destruct (reachableWorld_inv w Hreach) as [Hinv HK].
  unfold isMonitorActive, getCurrentAccountId.
  destruct (currentClient w) as [c|] eqn:Hc.
  - destruct (wi_active _ Hinv c Hc) as (sid & ss & acct & Hstop & Hs & Hcl & Hrun & Hacct).
    destruct (HK c Hc) as (sid' & ss' & Hstop' & Hs' & Hcur).
    assert (sid' = sid) as -> by congruence. assert (ss' = ss) as -> by congruence.
    rewrite Hstop, Hacct. split_and!; [done|done|]. intros _.
    exists c, sid, ss. split_and!; try done.
    by apply (so_promise _ _ _ (wi_sessions _ Hinv _ _ Hs)).
  - destruct (wi_idle _ Hinv Hc) as [-> ->]. split_and!; [split|split|]; done.
Qed.

(** X21. In no world the module reaches does a start fail with the error
    of an active client without promise; and the promise a start returns
    is never left pending on its own nor fulfilled directly: it is rejected
    with an error or resolved with a completion promise. *)
Theorem start_never_reports_invalid_state :
  ∀ w opts env,
    reachableWorld w →
    let r := monitorDingtalkProvider opts env w in
    ∃ st, promises r.1 !! r.2 = Some st
          ∧ st ≠ Pending ∧ st ≠ Fulfilled ∧ st ≠ Rejected ErrStateInvalid.
Proof.
  intros w opts env Hreach. cbn zeta.
  destruct (reachableWorld_inv w Hreach) as [Hinv HK].
  destruct (currentClient w) as [c|] eqn:Hc.
  { destruct (wi_active _ Hinv c Hc) as (sid & ss & cur & Hstop & Hs & Hcl & Hrun & Hacct).
    destruct (HK c Hc) as (sid' & ss' & _ & _ & Hcur).
    destruct (decide (cur ≠ "" ∧ cur ≠ accountIdOf opts)) as [[Hne Hdiff]|Hsame].
    - rewrite (start_conflict opts env w c cur) by done. cbn.
      exists (Rejected (ErrAlreadyRunning cur)). split; [by apply list_lookup_middle|done].
    - rewrite (start_join opts env w c (sPromise ss')); [|done|done|].
      + cbn. exists (Follows (sPromise ss')). split; [by apply list_lookup_middle|done].
      + rewrite Hacct. intros ? [= <-].
        destruct (decide (cur = "")); [by left|]. right.
        destruct (decide (cur = accountIdOf opts)); [done|]. naive_solver. }
  destruct (dingtalkCfgOf opts) as [cfg|] eqn:Hcfg.
  2: { rewrite (start_idle_without_config opts env w Hc Hcfg). cbn.
       exists (Rejected ErrConfigNotFound). split; [by apply list_lookup_middle|done]. }
  destruct (createThrows env) eqn:Hcreate.
  { unfold monitorDingtalkProvider, monitorBody. cbn. rewrite Hc, Hcfg, Hcreate. cbn.
    exists (Rejected ErrCreateClient). split; [|done].
    rewrite insert_at_length. by apply list_lookup_middle. }
  rewrite (start_new_session opts env w cfg Hc Hcfg Hcreate). cbn zeta. cbn [fst snd].
  set (wE := executor _ _ _ _ _ _).
  exists (Follows (S (length (promises w)))). split; [|done].
  cbn. apply list_lookup_insert_eq.
  assert (world_inv (setPromises (promises w ++ [Pending]) w)) as Hinv0
    by (by apply promise_append_inv).
  destruct (executor_inv (accountIdOf opts) (abortSignal opts) cfg env _ Hinv0 Hc)
    as (HinvE & _ & Hproms).
  cbn zeta in HinvE, Hproms. cbn [setPromises promises clients currentPromise currentStop
    sessions aborted listeners effects] in HinvE, Hproms.
  rewrite length_app in HinvE, Hproms. cbn [length] in HinvE, Hproms.
  rewrite Nat.add_1_r in HinvE, Hproms. fold wE in HinvE, Hproms.
  assert (S (length (promises w)) ∈ sPromise <$> sessions wE) as Hin.
  { rewrite Hproms. apply elem_of_app. right. by left. }
  apply list_elem_of_fmap in Hin as (ss & Hp & Hin).
  apply list_elem_of_lookup in Hin as [i Hi].
  pose proof (Forall_lookup_1 _ _ _ _ (ok_sessions _ (wi_ok _ HinvE)) Hi) as [Hlt _].
  cbn in Hlt. lia.
Qed.

(** X22. [stopDingtalkMonitor] always leaves the monitor inactive and the
    current account null. If no session was active it changes nothing;
    otherwise it disconnects the current client and calls [resolve] of the
    current completion promise, which is fulfilled afterwards, and that is
    all it calls. A second stop changes nothing. *)
Theorem stop_always_leaves_inactive :
  ∀ w,
    reachableWorld w →
    let w' := stopDingtalkMonitor w in
    isMonitorActive w' = false
    ∧ getCurrentAccountId w' = None
    ∧ (isMonitorActive w = false → w' = w)
    ∧ (∀ c, currentClient w = Some c →
         ∃ p, currentPromise w = Some p
              ∧ promises w' !! p = Some Fulfilled
              ∧ effects w' = effects w ++ [Disconnect c; CallResolve p])
    ∧ stopDingtalkMonitor w' = w'.
Proof.
  intros w Hreach. cbn zeta. destruct (reachableWorld_inv w Hreach) as [Hinv HK].
  assert (reachableWorld (stopDingtalkMonitor w)) as Hreach' by apply (rw_op OpStop w Hreach).
  destruct (reachableWorld_inv _ Hreach') as [Hinv' _].
  assert (∀ v, world_inv v → currentClient v = None → stopDingtalkMonitor v = v) as Hidle.
  { intros v Hv Hc. unfold stopDingtalkMonitor.
    destruct (wi_idle _ Hv Hc) as [_ ->]. by rewrite Hc. }
  unfold isMonitorActive, getCurrentAccountId.
  destruct (currentClient w) as [c|] eqn:Hc.
  - destruct (wi_active _ Hinv c Hc) as (sid & ss & acct & Hstop & Hs & Hcl & Hrun & Hacct).
    destruct (HK c Hc) as (sid' & ss' & Hstop' & Hs' & Hcur).
    assert (sid' = sid) as -> by congruence. assert (ss' = ss) as -> by congruence.
    pose proof (proj2 (so_promise _ _ _ (wi_sessions _ Hinv _ _ Hs)) Hrun) as Hpending.
    assert (stopDingtalkMonitor w
            = finalized sid ss Fulfilled (CallResolve (sPromise ss)) w) as Hfin.
    { unfold stopDingtalkMonitor, stopHook. rewrite Hstop.
      by apply finalizeResolve_running. }
    rewrite Hfin in *. clear Hfin.
    assert (currentClient (finalized sid ss Fulfilled (CallResolve (sPromise ss)) w) = None)
      as Hnone.
    { unfold finalized. cbn. by rewrite bool_decide_eq_true_2 by congruence. }
    rewrite Hnone. destruct (wi_idle _ Hinv' Hnone) as [-> _].
    split_and!; [done|done|done| |by apply Hidle].
    intros c' [= <-]. exists (sPromise ss). split; [done|].
    unfold finalized. cbn. rewrite Hpending, Hcl. split; [|done].
    apply list_lookup_insert_eq. by eapply lookup_lt_Some.
  - rewrite (Hidle w Hinv Hc), Hc. destruct (wi_idle _ Hinv Hc) as [-> _].
    split_and!; try done. by apply Hidle.
Qed.

(** X23. No connection is leaked: in every world the module reaches, a
    client that has been built either is the current client and has not
    been disconnected, or is not the current client and has been
    disconnected exactly once; and a session that is not stopped is the
    current one, so that at most one session runs. *)
Theorem no_client_is_left_connected :
  ∀ w,
    reachableWorld w →
    (∀ c cfg, CreateClient c cfg ∈ effects w →
       (currentClient w = Some c ∧ disconnectCalls c w = 0%nat)
       ∨ (currentClient w ≠ Some c ∧ disconnectCalls c w = 1%nat))
    ∧ (∀ sid ss, sessions w !! sid = Some ss → sStopped ss = false →
         currentStop w = Some sid ∧ currentClient w = Some (sClient ss)).
Proof.
  intros w Hreach. destruct (reachableWorld_inv w Hreach) as [Hinv HK]. split.
  - intros c cfg Hin.
    pose proof (proj1 (Forall_forall _ _) (wi_effects _ Hinv) _ Hin) as (sid & ss & Hs & Hc).
    cbn in Hc. subst c.
    pose proof (wi_sessions _ Hinv _ _ Hs) as [_ _ _ _ Hdisc Hcur].
    destruct (sStopped ss) eqn:Hst.
    + right. split; [|done]. intros Hcl.
      destruct (wi_active _ Hinv _ Hcl) as (sid' & ss' & acct & _ & Hs' & Hc' & Hrun' & _).
      destruct (decide (sid' = sid)) as [->|Hne]; [congruence|].
      by destruct (wi_distinct _ Hinv _ _ _ _ Hs' Hs Hne).
    + left. split; [by apply Hcur | done].
  - intros sid ss Hs Hrun. by apply (so_current _ _ _ (wi_sessions _ Hinv _ _ Hs)).
Qed.

(** X24. In every world the module reaches, the settle functions of a
    promise have been called at most once in all; if [resolve] was called
    the promise is fulfilled, if [reject] was called it is rejected; and
    the completion promise of a session is pending exactly while the
    session runs and has been settled by exactly one call once the session
    is stopped. *)
Theorem promise_settled_at_most_once :
  ∀ w q,
    reachableWorld w →
    (resolveCalls q w + rejectCalls q w ≤ 1)%nat
    ∧ (resolveCalls q w = 1%nat → promises w !! q = Some Fulfilled)
    ∧ (rejectCalls q w = 1%nat → ∃ err, promises w !! q = Some (Rejected err))
    ∧ (∀ sid ss, sessions w !! sid = Some ss → sPromise ss = q →
         (sStopped ss = false ↔ promises w !! q = Some Pending)
         ∧ (sStopped ss = true ↔ (resolveCalls q w + rejectCalls q w = 1)%nat)).
Proof.
  intros w q Hreach. destruct (reachableWorld_inv w Hreach) as [Hinv HK].
  assert ((∃ sid ss, sessions w !! sid = Some ss ∧ sPromise ss = q)
          ∨ ¬ ∃ sid ss, sessions w !! sid = Some ss ∧ sPromise ss = q)
    as [(sid & ss & Hs & <-)|Hnone].
  { destruct (decide (q ∈ sPromise <$> sessions w)) as [Hin|Hnin].
    - left. apply list_elem_of_fmap in Hin as (ss & -> & Hin).
      apply list_elem_of_lookup in Hin as [sid Hs]. eauto.
    - right. intros (sid & ss & Hs & <-). apply Hnin.
      apply list_elem_of_fmap. exists ss. split; [done|]. by eapply list_elem_of_lookup_2. }
  - pose proof (wi_sessions _ Hinv _ _ Hs) as [Hres Hrej Hprom Hset _ _].
    assert (∀ sid' ss', sessions w !! sid' = Some ss' → sPromise ss' = sPromise ss → ss' = ss)
      as Huniq.
    { intros sid' ss' Hs' Hp. destruct (decide (sid' = sid)) as [->|Hne]; [congruence|].
      by destruct (wi_distinct _ Hinv _ _ _ _ Hs' Hs Hne). }
    rewrite Hres, Hrej.
    destruct (promises w !! sPromise ss) as [[| |err|]|] eqn:Hst; cbn in *.
    all: split_and!; [lia|done|try done; eauto|].
    all: intros sid' ss' Hs' Hp; rewrite (Huniq sid' ss' Hs' Hp).
    all: destruct (sStopped ss) eqn:Hstop;
      try (specialize (Hset eq_refl); discriminate);
      try (pose proof (proj2 Hprom eq_refl); discriminate);
      try (pose proof (proj1 Hprom eq_refl); discriminate);
      split; split; try done; try lia.
  - assert (resolveCalls q w = 0 ∧ rejectCalls q w = 0)%nat as [-> ->].
    { unfold resolveCalls, rejectCalls. split; apply quiet_counts.
      all: eapply Forall_impl; [apply (wi_effects _ Hinv)|].
      all: intros [] Hown; cbn in *; try done.
      all: apply bool_decide_eq_false_2; intros ->; by apply Hnone. }
    split_and!; [lia|done|done|]. intros sid ss Hs Hp. exfalso. apply Hnone. eauto.
Qed.

(** X25. The abort of a signal that the running session was not started
    with (or of any signal while no session runs) changes nothing but the
    flag of the signal. *)
Theorem unrelated_abort_changes_nothing :
  ∀ w g,
    reachableWorld w →
    (∀ sid ss, currentStop w = Some sid → sessions w !! sid = Some ss →
               sSignal ss ≠ Some g) →
    fireAbort g w = setAborted ({[ g ]} ∪ aborted w) w ∨ fireAbort g w = w.
Proof.
  intros w g Hreach Hother. destruct (reachableWorld_inv w Hreach) as [Hinv HK].
  unfold fireAbort. case_decide; [by right|]. left.
  assert (filter (λ l, l.1 = g) (listeners w) = []) as ->; [|done].
  apply filter_none. apply Forall_forall. intros [g' sid] Hin Hg. cbn in Hg. subst g'.
  destruct (wi_listeners _ Hinv _ _ Hin) as (ss & Hs & Hsig & Hrun).
  destruct (so_current _ _ _ (wi_sessions _ Hinv _ _ Hs) Hrun) as [Hstop _].
  by apply (Hother sid ss).
Qed.

Lemma filter_app_removed {A} `{EqDecision A} (x : A) (l : list A) :
  filter (λ y, y ≠ x) (l ++ [x]) = filter (λ y, y ≠ x) l.
Proof.
  rewrite filter_app, filter_cons, decide_False by (by intros ?).
  by rewrite filter_nil, app_nil_r.
Qed.

Lemma filter_addListener g sid w :
  filter (λ l, l ≠ (g, sid)) (listeners (addListener (Some g) sid w))
  = filter (λ l, l ≠ (g, sid)) (listeners w).
Proof.
  unfold addListener. case_decide; [done|]. cbn. apply filter_app_removed.
Qed.

(** A start from idle whose abort signal is aborted already. *)
Lemma start_aborted_shape opts env w cfg :
  currentClient w = None → dingtalkCfgOf opts = Some cfg → createThrows env = false →
  signalAborted (abortSignal opts) w = true →
  monitorDingtalkProvider opts env w
  = (endedStartWorld opts cfg Fulfilled
       [Disconnect (clients w); CallResolve (S (length (promises w)))] w,
     length (promises w)).
Proof.
  intros Hidle Hcfg Hcreate Hab.
  rewrite (start_new_session opts env w cfg Hidle Hcfg Hcreate). cbn zeta. f_equal.
  destruct w as [cc ca cp cs ss ps cl ab ls ef]. cbn [currentClient] in Hidle. subst cc.
  cbn [clients promises sessions currentPromise currentStop aborted listeners effects].
  unfold executor.
  cbn [clients promises sessions currentPromise currentStop aborted listeners effects].
  set (sid := length ss). set (p := S (length ps)).
  set (s0 := mkSession cl false (abortSignal opts) p).
  set (w2 := setCurrentStop _ _).
  assert (signalAborted (abortSignal opts) w2 = true) as -> by (by destruct (abortSignal opts)).
  assert (sessions w2 !! sid = Some s0) as Hlook by (by apply list_lookup_middle).
  rewrite (finalizeResolve_running sid s0 w2 Hlook eq_refl).
  unfold finalized, endedStartWorld. subst w2 s0. world_simpl.
  cbn [sClient sStopped sSignal sPromise].
  rewrite bool_decide_eq_true_2 by done.
  assert (((ps ++ [Pending]) ++ [Pending]) !! p = Some Pending) as ->.
  { rewrite <- app_assoc. subst p. rewrite lookup_app_r by lia.
    by replace (S (length ps) - length ps)%nat with 1%nat by lia. }
  unfold setCurrentPromise, setCurrent, setPromises. world_simpl. f_equal.
  - by apply (insert_at_length ss []).
  - rewrite <- app_assoc. cbn [app].
    rewrite (list_insert_insert_ne) by (subst p; lia).
    rewrite (insert_at_length ps [Pending]).
    subst p. rewrite (insert_app_r_alt ps) by lia.
    by replace (S (length ps) - length ps)%nat with 1%nat by lia.
  - by rewrite <- app_assoc.
Qed.

(** A start from idle whose transport throws while registering the
    callback or while connecting. *)
Lemma start_transport_shape opts env w cfg :
  currentClient w = None → dingtalkCfgOf opts = Some cfg → createThrows env = false →
  signalAborted (abortSignal opts) w = false →
  registerThrows env = true ∨ connectThrows env = true →
  monitorDingtalkProvider opts env w
  = (endedStartWorld opts cfg (Rejected ErrTransport)
       ((if registerThrows env then []
         else [RegisterCallback (clients w) (accountIdOf opts); Connect (clients w)])
        ++ [Disconnect (clients w); CallReject (S (length (promises w))) ErrTransport]) w,
     length (promises w)).
Proof.
  intros Hidle Hcfg Hcreate Hab Hthrow.
  rewrite (start_new_session opts env w cfg Hidle Hcfg Hcreate). cbn zeta. f_equal.
  destruct w as [cc ca cp cs ss ps cl ab ls ef]. cbn [currentClient] in Hidle. subst cc.
  cbn [clients promises sessions currentPromise currentStop aborted listeners effects].
  unfold executor.
  cbn [clients promises sessions currentPromise currentStop aborted listeners effects].
  set (sid := length ss). set (p := S (length ps)).
  set (s0 := mkSession cl false (abortSignal opts) p).
  set (w2 := setCurrentStop _ _).
  assert (signalAborted (abortSignal opts) w2 = false) as ->.
  { rewrite <- Hab. by destruct (abortSignal opts). }
  assert (((ps ++ [Pending]) ++ [Pending]) !! p = Some Pending) as Hpend.
  { rewrite <- app_assoc. subst p. rewrite lookup_app_r by lia.
    by replace (S (length ps) - length ps)%nat with 1%nat by lia. }
  assert (<[length ps:=Follows p]> (<[p:=Rejected ErrTransport]> ((ps ++ [Pending]) ++ [Pending]))
          = ps ++ [Follows p; Rejected ErrTransport]) as Hproms.
  { rewrite <- app_assoc. cbn [app].
    rewrite (list_insert_insert_ne) by (subst p; lia).
    rewrite (insert_at_length ps [Pending]).
    subst p. rewrite (insert_app_r_alt ps) by lia.
    by replace (S (length ps) - length ps)%nat with 1%nat by lia. }
  assert (∀ wX es,
            currentClient wX = Some cl → sessions wX = ss ++ [s0] →
            promises wX = (ps ++ [Pending]) ++ [Pending] → clients wX = S cl →
            aborted wX = ab →
            match abortSignal opts with
            | Some g => filter (λ l, l ≠ (g, sid)) (listeners wX) | None => listeners wX end
            = match abortSignal opts with
              | Some g => filter (λ l, l ≠ (g, sid)) ls | None => ls end →
            effects wX = ef ++ CreateClient cl cfg :: es →
            setPromises (<[length ps:=Follows p]> (promises (finalizeReject sid ErrTransport wX)))
              (setCurrentPromise (Some p) (finalizeReject sid ErrTransport wX))
            = endedStartWorld opts cfg (Rejected ErrTransport)
                (es ++ [Disconnect cl; CallReject p ErrTransport])
                (mkWorld None ca cp cs ss ps cl ab ls ef)) as Hfin.
  { intros wX es HcX HsX HpX HclX HabX HlX HeX.
    assert (sessions wX !! sid = Some s0) as Hlook
      by (rewrite HsX; by apply list_lookup_middle).
    rewrite (finalizeReject_running sid s0 ErrTransport wX Hlook eq_refl).
    unfold finalized, endedStartWorld. subst s0.
    cbn [sClient sStopped sSignal sPromise].
    rewrite HcX, HsX, HpX, HclX, HabX, HeX, HlX, Hpend, bool_decide_eq_true_2 by done.
    unfold setCurrentPromise, setCurrent, setPromises. world_simpl.
    rewrite Hproms. f_equal.
    - by apply (insert_at_length ss []).
    - by rewrite <- app_assoc. }
  assert (match abortSignal opts with
          | Some g => filter (λ l, l ≠ (g, sid))
                        (listeners (addListener (abortSignal opts) sid w2))
          | None => listeners (addListener (abortSignal opts) sid w2)
          end
          = match abortSignal opts with
            | Some g => filter (λ l, l ≠ (g, sid)) ls | None => ls end) as HlL.
  { destruct (abortSignal opts) as [g|]; [by rewrite filter_addListener | done]. }
  destruct (addListener_frame (abortSignal opts) sid w2)
    as (F1 & F2 & F3 & F4 & F5 & F6 & F7 & F8 & F9).
  destruct (registerThrows env) eqn:Hreg.
  { apply (Hfin _ []); try done; by rewrite ?F1, ?F5, ?F6, ?F7, ?F8, ?F9. }
  destruct Hthrow as [?|Hconn]; [done|]. rewrite Hconn.
  apply (Hfin _ [RegisterCallback cl (accountIdOf opts); Connect cl]);
    cbn [emit currentClient sessions promises clients aborted listeners effects];
    rewrite ?F1, ?F5, ?F6, ?F7, ?F8, ?F9; try done.
  cbn. by rewrite <- !app_assoc.
Qed.

Lemma idle_currentClient w : isMonitorActive w = false → currentClient w = None.
Proof. unfold isMonitorActive. by destruct (currentClient w). Qed.

(** X26. If building the client throws, the start fails with that error
    and leaves no trace: the monitor stays inactive, no client is counted,
    no collaborator has been called, and nothing is changed except that the
    rejected promise of the call exists. *)
Theorem client_creation_failure_leaves_no_trace :
  ∀ w opts env cfg,
    isMonitorActive w = false →
    dingtalkCfgOf opts = Some cfg → createThrows env = true →
    let r := monitorDingtalkProvider opts env w in
    promises r.1 !! r.2 = Some (Rejected ErrCreateClient)
    ∧ r.1 = setPromises (promises w ++ [Rejected ErrCreateClient]) w
    ∧ isMonitorActive r.1 = false ∧ clients r.1 = clients w ∧ effects r.1 = effects w.
Proof.
  intros w opts env cfg Hidle Hcfg Hcreate. apply idle_currentClient in Hidle as Hc.
  cbn zeta. unfold monitorDingtalkProvider, monitorBody. cbn. rewrite Hc, Hcfg, Hcreate. cbn.
  rewrite insert_at_length. split_and!; try done. by apply list_lookup_middle.
Qed.

(** X27. If registering the callback or connecting throws, the start
    returns a promise that is resolved with the completion promise, which
    is rejected with the error of the transport; the session it opened is
    stopped, the client is disconnected, the abort listener it had
    registered is removed, the monitor is inactive and the current account
    null. [currentPromise] is left pointing at the rejected promise. *)
Theorem transport_failure_ends_the_session :
  ∀ w opts env cfg,
    isMonitorActive w = false →
    dingtalkCfgOf opts = Some cfg → createThrows env = false →
    signalAborted (abortSignal opts) w = false →
    registerThrows env = true ∨ connectThrows env = true →
    let r := monitorDingtalkProvider opts env w in
    let c := clients w in
    let p := S (length (promises w)) in
    promises r.1 !! r.2 = Some (Follows p)
    ∧ promises r.1 !! p = Some (Rejected ErrTransport)
    ∧ outcome 1 r.1 r.2 = Some (Rejected ErrTransport)
    ∧ isMonitorActive r.1 = false
    ∧ getCurrentAccountId r.1 = None
    ∧ currentStop r.1 = None
    ∧ currentPromise r.1 = Some p
    ∧ sessions r.1 = sessions w ++ [mkSession c true (abortSignal opts) p]
    ∧ effects r.1
      = effects w ++ [CreateClient c cfg]
        ++ (if registerThrows env then []
            else [RegisterCallback c (accountIdOf opts); Connect c])
        ++ [Disconnect c; CallReject p ErrTransport]
    ∧ (∀ g, abortSignal opts = Some g → (g, length (sessions w)) ∉ listeners r.1).
Proof.
  intros w opts env cfg Hidle Hcfg Hcreate Hab Hthrow.
  apply idle_currentClient in Hidle as Hc. cbn zeta.
  rewrite (start_transport_shape opts env w cfg Hc Hcfg Hcreate Hab Hthrow).
  unfold endedStartWorld. cbn [fst snd promises sessions effects listeners currentStop
                                currentPromise outcome].
  assert ((promises w ++ [Follows (S (length (promises w))); Rejected ErrTransport])
            !! length (promises w) = Some (Follows (S (length (promises w))))) as H0
    by (by apply list_lookup_middle).
  assert ((promises w ++ [Follows (S (length (promises w))); Rejected ErrTransport])
            !! S (length (promises w)) = Some (Rejected ErrTransport)) as H1.
  { rewrite lookup_app_r by lia.
    by replace (S (length (promises w)) - length (promises w))%nat with 1%nat by lia. }
  rewrite H0, H1. split_and!; try done.
  intros g ->. rewrite list_elem_of_filter. naive_solver.
Qed.

(** X28. A start made while no session is active, with a DingTalk
    configuration and a client that is built without error, whose abort
    signal is aborted already, registers no callback and does not connect:
    it builds the client, disconnects it and resolves; the promise it
    returns is fulfilled, the monitor is inactive, and no abort listener is
    registered. [currentPromise] is left pointing at the fulfilled
    promise. *)
Theorem start_with_aborted_signal_resolves_at_once :
  ∀ w opts env cfg g,
    isMonitorActive w = false →
    dingtalkCfgOf opts = Some cfg → createThrows env = false →
    abortSignal opts = Some g → g ∈ aborted w →
    let r := monitorDingtalkProvider opts env w in
    let c := clients w in
    let p := S (length (promises w)) in
    promises r.1 !! r.2 = Some (Follows p)
    ∧ promises r.1 !! p = Some Fulfilled
    ∧ outcome 1 r.1 r.2 = Some Fulfilled
    ∧ isMonitorActive r.1 = false
    ∧ getCurrentAccountId r.1 = None
    ∧ currentStop r.1 = None
    ∧ currentPromise r.1 = Some p
    ∧ sessions r.1 = sessions w ++ [mkSession c true (Some g) p]
    ∧ effects r.1 = effects w ++ [CreateClient c cfg; Disconnect c; CallResolve p]
    ∧ (g, length (sessions w)) ∉ listeners r.1.
Proof.
  intros w opts env cfg g Hidle Hcfg Hcreate Hsig Hab.
  apply idle_currentClient in Hidle as Hc. cbn zeta.
  rewrite (start_aborted_shape opts env w cfg Hc Hcfg Hcreate).
  2: { rewrite Hsig. cbn. by apply bool_decide_eq_true_2. }
  unfold endedStartWorld. rewrite Hsig.
  cbn [fst snd promises sessions effects listeners currentStop currentPromise outcome].
  assert ((promises w ++ [Follows (S (length (promises w))); Fulfilled])
            !! length (promises w) = Some (Follows (S (length (promises w))))) as H0
    by (by apply list_lookup_middle).
  assert ((promises w ++ [Follows (S (length (promises w))); Fulfilled])
            !! S (length (promises w)) = Some Fulfilled) as H1.
  { rewrite lookup_app_r by lia.
    by replace (S (length (promises w)) - length (promises w))%nat with 1%nat by lia. }
  rewrite H0, H1. split_and!; try done.
  rewrite list_elem_of_filter. naive_solver.
Qed.

(** X29. A start made while no session is active leaves a session active
    exactly when there is a DingTalk configuration, none of the three
    collaborator calls throws and the abort signal is not aborted already;
    the world it leaves then is [startedWorld]: the current account is the
    account of the call and the returned promise is pending. *)
Theorem start_opens_session_iff :
  ∀ w opts env,
    isMonitorActive w = false →
    let r := monitorDingtalkProvider opts env w in
    (isMonitorActive r.1 = true ↔
       (∃ cfg, dingtalkCfgOf opts = Some cfg)
       ∧ createThrows env = false ∧ registerThrows env = false
       ∧ connectThrows env = false ∧ signalAborted (abortSignal opts) w = false)
    ∧ (isMonitorActive r.1 = true →
       ∃ cfg, dingtalkCfgOf opts = Some cfg
              ∧ r = (startedWorld opts cfg w, length (promises w))
              ∧ getCurrentAccountId r.1 = Some (accountIdOf opts)
              ∧ outcome 1 r.1 r.2 = Some Pending).
Proof.
  intros w opts env Hidle. apply idle_currentClient in Hidle as Hc. cbn zeta.
  assert (isMonitorActive (monitorDingtalkProvider opts env w).1 = true →
          ∃ cfg, dingtalkCfgOf opts = Some cfg
                 ∧ monitorDingtalkProvider opts env w
                   = (startedWorld opts cfg w, length (promises w))
                 ∧ createThrows env = false ∧ registerThrows env = false
                 ∧ connectThrows env = false
                 ∧ signalAborted (abortSignal opts) w = false) as Hfwd.
  { intros Hact.
    destruct (start_success_shape opts env w Hc Hact) as (cfg & Hcfg & Hab & Hshape).
    exists cfg. split; [done|]. split; [done|].
    destruct (createThrows env) eqn:Hcreate.
    { destruct (start_no_session opts env w) as (st & _ & Heq); [right; by right|].
      rewrite Heq in Hact. cbn in Hact. unfold isMonitorActive in Hact. cbn in Hact.
      by rewrite Hc in Hact. }
    destruct (registerThrows env) eqn:Hreg.
    { rewrite (start_transport_shape opts env w cfg Hc Hcfg Hcreate Hab) in Hact
        by (by left). done. }
    destruct (connectThrows env) eqn:Hconn.
    { rewrite (start_transport_shape opts env w cfg Hc Hcfg Hcreate Hab) in Hact
        by (by right). done. }
    done. }
  split; [split|].
  - intros Hact. destruct (Hfwd Hact) as (cfg & Hcfg & _ & ? & ? & ? & ?). eauto 10.
  - intros ([cfg Hcfg] & Hcreate & Hreg & Hconn & Hab).
    rewrite (start_new_session opts env w cfg Hc Hcfg Hcreate). cbn zeta. cbn [fst].
    unfold isMonitorActive. cbn [setPromises setCurrentPromise setCurrent currentClient].
    unfold executor. rewrite Hreg, Hconn.
    assert (∀ v : World, signalAborted (abortSignal opts) v
                         = match abortSignal opts with
                           | Some g => bool_decide (g ∈ aborted v) | None => false end) as Hsa
      by (intros v; by destruct (abortSignal opts)).
    rewrite Hsa in Hab |- *. cbn [aborted setCurrentStop setSessions setCurrent]. rewrite Hab.
    cbn [emit currentClient].
    match goal with |- context [addListener ?s ?i ?v] =>
      destruct (addListener_frame s i v) as (-> & _) end.
    done.
  - intros Hact. destruct (Hfwd Hact) as (cfg & Hcfg & Hshape & _).
    exists cfg. rewrite Hshape. split_and!; try done.
    cbn. rewrite (list_lookup_middle (promises w) _ _ (length (promises w))) by done.
    rewrite lookup_app_r by lia.
    by replace (S (length (promises w)) - length (promises w))%nat with 1%nat by lia.
Qed.

(** X30. The stop hook and the abort listener of a session that is not the
    current one do nothing, whenever they are run: after a restart, the
    closures of earlier sessions cannot touch the new session. *)
Theorem stale_hooks_do_nothing :
  ∀ w sid,
    reachableWorld w → currentStop w ≠ Some sid →
    stopHook sid w = w ∧ handleAbort sid w = w
    ∧ ∀ g, runListener g w sid = w.
Proof.
  intros w sid Hreach Hne. destruct (reachableWorld_inv w Hreach) as [Hinv HK].
  assert (finalizeResolve sid w = w) as Hfin.
  { apply finalizeResolve_idle. intros ss Hs.
    destruct (sStopped ss) eqn:Hst; [done|].
    by destruct (so_current _ _ _ (wi_sessions _ Hinv _ _ Hs) Hst). }
  split_and!; [done|done|].
  intros g. unfold runListener. case_decide as Hin; [|done].
  destruct (wi_listeners _ Hinv _ _ Hin) as (ss & Hs & _ & Hrun).
  by destruct (so_current _ _ _ (wi_sessions _ Hinv _ _ Hs) Hrun).
Qed.

(* ===================================================================== *)
(** ** The further theorems at concrete inputs *)
(* ===================================================================== *)

Lemma afterA_reachable : reachable afterA.
Proof. constructor; constructor. Qed.

Lemma afterA_wf : dedup_wf afterA.
Proof. apply reachable_inv, afterA_reachable. Qed.

(** The contents of events A and B: ["hello"] and [" hello "]. *)
Lemma signature_ignores_surrounding_whitespace_witness :
  let raw1 := mkRaw "text" (Some "hello") None "u1" None "c1" None None (Some "m1") in
  let raw2 := mkRaw "text" (Some " hello ") None "u1" None "c1" None None (Some "m2") in
  allWhiteSpace " " ∧
  messageContent raw2 = " " +:+ messageContent raw1 +:+ " " ∧
  contentHashOf raw2 = contentHashOf raw1 ∧
  signatureOf "default" raw2 = signatureOf "default" raw1.
Proof.
  assert (allWhiteSpace " ") as Hws by (repeat constructor).
  split; [done|]. split; [reflexivity|].
  apply (signature_ignores_surrounding_whitespace "default" _ _ " " " ");
    [done | done | reflexivity | reflexivity | reflexivity | reflexivity].
Defined.

(** Two texts of 51 code units that differ in the last one, sent without
    stream message id two seconds apart, with event A in between. *)
Lemma fallback_key_sees_first_50_units_witness :
  let d1 := plainEvent (fiftyUnits +:+ "A") 500 in
  let d2 := plainEvent (fiftyUnits +:+ "B") 2500 in
  let s2 := deliverAll [eventA] (stateAfter (deliver d1 emptyDedup)) in
  String.length fiftyUnits = 50%nat ∧
  dispatched (deliver d1 emptyDedup) ≠ [] ∧
  identityKey d1 = identityKey d2 ∧
  dispatched (deliver d2 s2) = [] ∧
  returned (deliver d2 s2) = SUCCESS.
Proof.
  cbn zeta.
  assert (dispatched (deliver (plainEvent (fiftyUnits +:+ "A") 500) emptyDedup) ≠ []) as Hdisp
    by (vm_compute; discriminate).
  destruct (fallback_key_sees_first_50_units emptyDedup
              (plainEvent (fiftyUnits +:+ "A") 500) [eventA]
              (plainEvent (fiftyUnits +:+ "B") 2500)
              _ _ fiftyUnits "A" "B" reach_init eq_refl eq_refl eq_refl eq_refl eq_refl
              eq_refl eq_refl eq_refl eq_refl eq_refl) as [Hkey Hdrop].
  split; [reflexivity|]. split; [done|]. split; [done|].
  apply Hdrop; [done | vm_compute; reflexivity | | vm_compute; discriminate].
  repeat constructor; vm_compute; discriminate.
Defined.

(** The caches after event A, swept 400 seconds later. *)
Lemma cleanupDedupCache_removes_exactly_expired_witness :
  let s' := cleanupDedupCache 401000 afterA in
  dedup_wf afterA ∧
  processedMessageTimestamps s'
    = filter (λ e, 401000 - e.2 <= DEDUP_CACHE_TTL) (processedMessageTimestamps afterA) ∧
  (∀ k, k ∈ processedMessageIds s' ↔
        ∃ t, JsMap.get k (processedMessageTimestamps afterA) = Some t
             ∧ 401000 - t <= DEDUP_CACHE_TTL) ∧
  recentSignatureTimestamps s' = recentSignatureTimestamps afterA ∧
  dedup_wf s'.
Proof.
  split; [exact afterA_wf|].
  exact (cleanupDedupCache_removes_exactly_expired 401000 afterA afterA_wf).
Defined.

Lemma cleanupSignatureCache_removes_exactly_expired_witness :
  let s' := cleanupSignatureCache 201000 afterA in
  dedup_wf afterA ∧
  recentSignatureTimestamps s'
    = filter (λ e, 201000 - e.2 <= SIGNATURE_TTL_MS) (recentSignatureTimestamps afterA) ∧
  (∀ k t, JsMap.get k (recentSignatureTimestamps s') = Some t ↔
          JsMap.get k (recentSignatureTimestamps afterA) = Some t
          ∧ 201000 - t <= SIGNATURE_TTL_MS) ∧
  processedMessageIds s' = processedMessageIds afterA ∧
  processedMessageTimestamps s' = processedMessageTimestamps afterA ∧
  dedup_wf s'.
Proof.
  split; [exact afterA_wf|].
  exact (cleanupSignatureCache_removes_exactly_expired 201000 afterA afterA_wf).
Defined.

Lemma later_sweep_subsumes_earlier_witness :
  dedup_wf afterA ∧ 2000 <= 401000 ∧
  cleanupDedupCache 401000 (cleanupDedupCache 2000 afterA) = cleanupDedupCache 401000 afterA ∧
  cleanupSignatureCache 401000 (cleanupSignatureCache 2000 afterA)
    = cleanupSignatureCache 401000 afterA.
Proof.
  split; [exact afterA_wf|]. split; [lia|].
  apply (later_sweep_subsumes_earlier 2000 401000 afterA afterA_wf). lia.
Defined.

(** The signature of event A, asked for again 59 seconds after A. *)
Lemma isSignatureDuplicate_iff_recent_entry_witness :
  let sig := "default:c1:u1:9bdcc060"%string in
  let r := isSignatureDuplicate sig 60000 afterA in
  dedup_wf afterA ∧ r.1 = true ∧
  (∃ t, JsMap.get sig (recentSignatureTimestamps afterA) = Some t ∧ t ≠ 0
        ∧ 60000 - t < SIGNATURE_TTL_MS) ∧
  JsMap.get sig (recentSignatureTimestamps r.2)
    = JsMap.get sig (recentSignatureTimestamps afterA).
Proof.
  cbn zeta. split; [exact afterA_wf|].
  destruct (isSignatureDuplicate_iff_recent_entry "default:c1:u1:9bdcc060" 60000 afterA
              afterA_wf) as (Hiff & Hkeep & _).
  assert ((isSignatureDuplicate "default:c1:u1:9bdcc060" 60000 afterA).1 = true) as Hdup
    by (vm_compute; reflexivity).
  split; [done|]. split; [by apply Hiff | by apply Hkeep].
Defined.

(** A new key marked in the caches left by event A. *)
Lemma markMessageProcessed_then_processed_witness :
  let s' := markMessageProcessed "default:m9" 5000 5000 afterA in
  idsSize afterA < DEDUP_CACHE_MAX_SIZE ∧
  isMessageProcessed "default:m9" s' = true ∧
  JsMap.get "default:m9" (processedMessageTimestamps s') = Some 5000 ∧
  isMessageProcessed "default:m1" s' = true ∧
  isMessageProcessed "default:m2" s' = false ∧
  dedup_wf s'.
Proof.
  cbn zeta.
  assert (idsSize afterA < DEDUP_CACHE_MAX_SIZE) as Hroom by (vm_compute; reflexivity).
  destruct (markMessageProcessed_then_processed "default:m9" 5000 5000 afterA)
    as (Hin & Hget & _ & Hothers & Hwf).
  split; [done|]. split; [exact Hin|]. split; [exact Hget|].
  split; [|split; [|exact (Hwf afterA_wf)]].
  - rewrite (Hothers Hroom). vm_compute. reflexivity.
  - rewrite (Hothers Hroom). vm_compute. reflexivity.
Defined.

(** Event A again after the caches have been cleared. *)
Lemma clearDedupCache_forgets_everything_witness :
  let r := deliver eventA' (clearDedupCache afterA) in
  dispatched (deliver eventA' afterA) = [] ∧
  length (dispatched r) = 1%nat ∧ returned r = SUCCESS ∧
  processedMessageTimestamps (stateAfter r) = [("default:m1"%string, 2000)].
Proof.
  cbn zeta. split; [vm_compute; reflexivity|].
  destruct (clearDedupCache_forgets_everything afterA eventA' _ eq_refl)
    as (Hd & Hr & _ & Hts & _).
  rewrite Hd, Hr, Hts. split_and!; reflexivity.
Defined.

(** The copy of A that arrives 110 seconds after it under another id. *)
Lemma dispatch_iff_no_live_entry_witness :
  reachable afterA ∧
  identityKey eventB111 = Some "default:m3"%string ∧
  signatureKey eventB111 = Some "default:c1:u1:9bdcc060"%string ∧
  dispatched (deliver eventB111 afterA) ≠ [].
Proof.
  split; [exact afterA_reachable|]. split; [reflexivity|]. split; [reflexivity|].
  apply (dispatch_iff_no_live_entry afterA eventB111 "default:m3" "default:c1:u1:9bdcc060"
           afterA_reachable eq_refl eq_refl).
  split.
  - intros t Hget. vm_compute in Hget. discriminate.
  - intros t Hget. vm_compute in Hget. injection Hget as <-. right.
    vm_compute. discriminate.
Defined.

(** The redelivery of A one second after it. *)
Lemma dropped_event_only_sweeps_witness :
  reachable afterA ∧
  dispatched (deliver eventA' afterA) = [] ∧
  stateAfter (deliver eventA' afterA)
  = cleanupSignatureCache 2000 (cleanupDedupCache 2000 afterA).
Proof.
  split; [exact afterA_reachable|]. split; [vm_compute; reflexivity|].
  apply (dropped_event_only_sweeps afterA eventA' _ afterA_reachable eq_refl).
  vm_compute. reflexivity.
Defined.

(** The entry of A while event C is handled. *)
Lemma identity_entry_kept_below_capacity_witness :
  let s' := stateAfter (deliver eventC afterA) in
  JsMap.get "default:m1" (processedMessageTimestamps afterA) = Some 1000 ∧
  idsSize afterA < DEDUP_CACHE_MAX_SIZE ∧
  JsMap.get "default:m1" (processedMessageTimestamps s') = Some 1000 ∧
  isMessageProcessed "default:m1" s' = true.
Proof.
  cbn zeta.
  assert (idsSize afterA < DEDUP_CACHE_MAX_SIZE) as Hroom by (vm_compute; reflexivity).
  split; [reflexivity|]. split; [done|].
  apply (identity_entry_kept_below_capacity afterA eventC "default:m1" 1000
           afterA_reachable eq_refl); [vm_compute; discriminate | done].
Defined.

Lemma signature_cache_holds_only_recent_witness :
  reachable afterA ∧
  Forall (λ e, 111000 - e.2 <= SIGNATURE_TTL_MS)
         (recentSignatureTimestamps (stateAfter (deliver eventB111 afterA))).
Proof.
  split; [exact afterA_reachable|].
  exact (signature_cache_holds_only_recent afterA eventB111 _ afterA_reachable eq_refl).
Defined.

Lemma cached_keys_come_from_dispatched_events_witness :
  ("default:m1"%string ∈ processedMessageIds (deliverAll [eventA; eventA'] emptyDedup)) ∧
  ("default:m1"%string ∈ processedMessageIds emptyDedup
   ∨ ∃ pre d post,
       [eventA; eventA'] = pre ++ d :: post ∧ identityKey d = Some "default:m1"%string
       ∧ dispatched (deliver d (deliverAll pre emptyDedup)) ≠ []).
Proof.
  assert ("default:m1"%string ∈ processedMessageIds (deliverAll [eventA; eventA'] emptyDedup))
    as Hin.
  { apply (bool_decide_unpack _). vm_compute. exact I. }
  split; [done|].
  exact (cached_keys_come_from_dispatched_events [eventA; eventA'] emptyDedup "default:m1" Hin).
Defined.

Lemma unseen_key_passes_identity_check_witness :
  identityKey eventC = Some "default:m4"%string ∧
  reachesSignatureCheck eventC (deliverAll [eventA; eventB] emptyDedup).
Proof.
  split; [reflexivity|].
  apply (unseen_key_passes_identity_check [eventA; eventB] emptyDedup eventC "default:m4"
           eq_refl).
  - cbn. set_solver.
  - repeat constructor; vm_compute; discriminate.
Defined.

(** Two events whose texts ["bC"] and ["cb"] differ and hash alike. *)
Lemma equal_signature_keys_suppress_witness :
  let r2 := deliver eventCB (stateAfter (deliver eventBC emptyDedup)) in
  (∃ raw1 raw2, rawOf eventBC = Some raw1 ∧ rawOf eventCB = Some raw2
                ∧ trim (messageContent raw1) ≠ trim (messageContent raw2)) ∧
  signatureKey eventBC = Some "default:c1:u1:6bdcc6c3"%string ∧
  signatureKey eventCB = Some "default:c1:u1:6bdcc6c3"%string ∧
  identityKey eventBC ≠ identityKey eventCB ∧
  dispatched (deliver eventBC emptyDedup) ≠ [] ∧
  dispatched r2 = [] ∧ returned r2 = SUCCESS.
Proof.
  cbn zeta. split; [eexists _, _; split_and!; [reflexivity|reflexivity|vm_compute; discriminate]|].
  assert (signatureKey eventBC = Some "default:c1:u1:6bdcc6c3"%string) as H1
    by (vm_compute; reflexivity).
  assert (signatureKey eventCB = Some "default:c1:u1:6bdcc6c3"%string) as H2
    by (vm_compute; reflexivity).
  assert (dispatched (deliver eventBC emptyDedup) ≠ []) as Hd by (vm_compute; discriminate).
  split; [done|]. split; [done|]. split; [vm_compute; discriminate|]. split; [done|].
  apply (equal_signature_keys_suppress emptyDedup eventBC [] eventCB
           "default:c1:u1:6bdcc6c3" reach_init H1 H2 Hd);
    [vm_compute; reflexivity | constructor | vm_compute; reflexivity].
Defined.

Lemma runningWorld_reachable : reachableWorld runningWorld.
Proof.
  exact (rw_start (startOpts "default" (Some 7%nat)) collaboratorsOk initWorld rw_init).
Qed.

Lemma reachableWorld_stop w : reachableWorld w → reachableWorld (stopDingtalkMonitor w).
Proof. intros Hw. exact (rw_op OpStop w Hw). Qed.

Lemma stoppedWorld_reachable : reachableWorld stoppedWorld.
Proof. exact (reachableWorld_stop runningWorld runningWorld_reachable). Qed.

Lemma restartedWorld_reachable : reachableWorld restartedWorld.
Proof.
  exact (rw_start (startOpts "default" (Some 9%nat)) collaboratorsOk stoppedWorld
           stoppedWorld_reachable).
Qed.

(** The world in which a session runs for account ["default"]. *)
Lemma module_variables_in_step_witness :
  reachableWorld runningWorld ∧
  isMonitorActive runningWorld = true ∧
  getCurrentAccountId runningWorld ≠ None ∧ currentStop runningWorld ≠ None ∧
  ∃ c sid ss,
    currentClient runningWorld = Some c ∧ currentStop runningWorld = Some sid
    ∧ sessions runningWorld !! sid = Some ss ∧ sClient ss = c ∧ sStopped ss = false
    ∧ currentPromise runningWorld = Some (sPromise ss)
    ∧ promises runningWorld !! sPromise ss = Some Pending.
Proof.
  split; [exact runningWorld_reachable|]. split; [reflexivity|].
  destruct (module_variables_in_step runningWorld runningWorld_reachable)
    as (Hacct & Hstop & Hsession).
  split; [by apply Hacct|]. split; [by apply Hstop|]. by apply Hsession.
Defined.

(** A start for another account while the session for ["default"] runs. *)
Lemma start_never_reports_invalid_state_witness :
  let r := monitorDingtalkProvider (startOpts "other" None) collaboratorsOk runningWorld in
  reachableWorld runningWorld ∧
  ∃ st, promises r.1 !! r.2 = Some st
        ∧ st ≠ Pending ∧ st ≠ Fulfilled ∧ st ≠ Rejected ErrStateInvalid.
Proof.
  split; [exact runningWorld_reachable|].
  exact (start_never_reports_invalid_state runningWorld (startOpts "other" None)
           collaboratorsOk runningWorld_reachable).
Defined.

(** A start from the initial world with working collaborators. *)
Lemma start_opens_session_iff_witness :
  let r := monitorDingtalkProvider (startOpts "default" (Some 7%nat)) collaboratorsOk
             initWorld in
  isMonitorActive initWorld = false ∧ isMonitorActive r.1 = true ∧
  ∃ cfg, dingtalkCfgOf (startOpts "default" (Some 7%nat)) = Some cfg
         ∧ r = (startedWorld (startOpts "default" (Some 7%nat)) cfg initWorld,
                length (promises initWorld))
         ∧ getCurrentAccountId r.1 = Some (accountIdOf (startOpts "default" (Some 7%nat)))
         ∧ outcome 1 r.1 r.2 = Some Pending.
Proof.
  split; [reflexivity|]. split; [reflexivity|].
  apply (start_opens_session_iff initWorld (startOpts "default" (Some 7%nat)) collaboratorsOk
           eq_refl).
  reflexivity.
Defined.

(** A start from the initial world when the client cannot be built. *)
Lemma client_creation_failure_leaves_no_trace_witness :
  let r := monitorDingtalkProvider (startOpts "default" None) (mkStartEnv true false false)
             initWorld in
  promises r.1 !! r.2 = Some (Rejected ErrCreateClient)
  ∧ r.1 = setPromises (promises initWorld ++ [Rejected ErrCreateClient]) initWorld
  ∧ isMonitorActive r.1 = false ∧ clients r.1 = clients initWorld
  ∧ effects r.1 = effects initWorld.
Proof.
  exact (client_creation_failure_leaves_no_trace initWorld (startOpts "default" None)
           (mkStartEnv true false false) sampleDingtalkConfig eq_refl eq_refl eq_refl).
Defined.

(** A start after a stop, with abort signal 9, whose [connect] throws. *)
Lemma transport_failure_ends_the_session_witness :
  let opts := startOpts "default" (Some 9%nat) in
  let r := monitorDingtalkProvider opts (mkStartEnv false false true) stoppedWorld in
  isMonitorActive stoppedWorld = false ∧
  outcome 1 r.1 r.2 = Some (Rejected ErrTransport) ∧
  isMonitorActive r.1 = false ∧ getCurrentAccountId r.1 = None ∧
  effects r.1
  = effects stoppedWorld
    ++ [CreateClient 1 sampleDingtalkConfig; RegisterCallback 1 "default"; Connect 1;
        Disconnect 1; CallReject 3 ErrTransport] ∧
  (9%nat, 1%nat) ∉ listeners r.1.
Proof.
  cbn zeta. split; [reflexivity|].
  destruct (transport_failure_ends_the_session stoppedWorld (startOpts "default" (Some 9%nat))
              (mkStartEnv false false true) sampleDingtalkConfig eq_refl eq_refl eq_refl
              eq_refl (or_intror eq_refl))
    as (_ & _ & Hout & Hact & Hacct & _ & _ & _ & Heff & Hlis).
  split; [exact Hout|]. split; [exact Hact|]. split; [exact Hacct|].
  split; [exact Heff|]. exact (Hlis 9%nat eq_refl).
Defined.

(** A start with abort signal 7 after signal 7 has been aborted. *)
Lemma start_with_aborted_signal_resolves_at_once_witness :
  let w := fireAbort 7 initWorld in
  let r := monitorDingtalkProvider (startOpts "default" (Some 7%nat)) collaboratorsOk w in
  isMonitorActive w = false ∧ (7%nat ∈ aborted w) ∧
  outcome 1 r.1 r.2 = Some Fulfilled ∧
  isMonitorActive r.1 = false ∧
  effects r.1 = [CreateClient 0 sampleDingtalkConfig; Disconnect 0; CallResolve 1] ∧
  currentPromise r.1 = Some 1%nat.
Proof.
  cbn zeta.
  assert (7%nat ∈ aborted (fireAbort 7 initWorld)) as Hab.
  { apply (bool_decide_unpack _). vm_compute. exact I. }
  split; [reflexivity|]. split; [done|].
  destruct (start_with_aborted_signal_resolves_at_once (fireAbort 7 initWorld)
              (startOpts "default" (Some 7%nat)) collaboratorsOk sampleDingtalkConfig 7%nat
              eq_refl eq_refl eq_refl eq_refl Hab)
    as (_ & _ & Hout & Hact & _ & _ & Hcur & _ & Heff & _).
  split; [exact Hout|]. split; [exact Hact|]. split; [exact Heff|]. exact Hcur.
Defined.

(** A stop of the running session. *)
Lemma stop_always_leaves_inactive_witness :
  reachableWorld runningWorld ∧
  isMonitorActive stoppedWorld = false ∧
  getCurrentAccountId stoppedWorld = None ∧
  (∃ p, currentPromise runningWorld = Some p
        ∧ promises stoppedWorld !! p = Some Fulfilled
        ∧ effects stoppedWorld = effects runningWorld ++ [Disconnect 0; CallResolve p]) ∧
  stopDingtalkMonitor stoppedWorld = stoppedWorld.
Proof.
  split; [exact runningWorld_reachable|].
  destruct (stop_always_leaves_inactive runningWorld runningWorld_reachable)
    as (Hact & Hacct & _ & Hcalls & Hagain).
  split; [exact Hact|]. split; [exact Hacct|]. split; [|exact Hagain].
  exact (Hcalls 0%nat eq_refl).
Defined.

(** The stop hook and the abort listener of the first session, run after
    the restart. *)
Lemma stale_hooks_do_nothing_witness :
  reachableWorld restartedWorld ∧ currentStop restartedWorld = Some 1%nat ∧
  stopHook 0 restartedWorld = restartedWorld ∧
  handleAbort 0 restartedWorld = restartedWorld ∧
  runListener 7 restartedWorld 0 = restartedWorld.
Proof.
  split; [exact restartedWorld_reachable|]. split; [reflexivity|].
  destruct (stale_hooks_do_nothing restartedWorld 0%nat restartedWorld_reachable)
    as (Hstop & Habort & Hlis); [vm_compute; discriminate|].
  split; [exact Hstop|]. split; [exact Habort|]. exact (Hlis 7%nat).
Defined.

(** The abort of signal 8 while the session started with signal 7 runs. *)
Lemma unrelated_abort_changes_nothing_witness :
  reachableWorld runningWorld ∧
  (fireAbort 8 runningWorld = setAborted ({[ 8%nat ]} ∪ aborted runningWorld) runningWorld
   ∨ fireAbort 8 runningWorld = runningWorld).
Proof.
  split; [exact runningWorld_reachable|].
  apply (unrelated_abort_changes_nothing runningWorld 8%nat runningWorld_reachable).
  intros sid ss Hstop Hs. vm_compute in Hstop. injection Hstop as <-.
  vm_compute in Hs. injection Hs as <-. discriminate.
Defined.

(** The clients built by the first and by the second start. *)
Lemma no_client_is_left_connected_witness :
  reachableWorld restartedWorld ∧
  CreateClient 0 sampleDingtalkConfig ∈ effects restartedWorld ∧
  CreateClient 1 sampleDingtalkConfig ∈ effects restartedWorld ∧
  ((currentClient restartedWorld = Some 0%nat ∧ disconnectCalls 0 restartedWorld = 0%nat)
   ∨ (currentClient restartedWorld ≠ Some 0%nat ∧ disconnectCalls 0 restartedWorld = 1%nat)) ∧
  ((currentClient restartedWorld = Some 1%nat ∧ disconnectCalls 1 restartedWorld = 0%nat)
   ∨ (currentClient restartedWorld ≠ Some 1%nat ∧ disconnectCalls 1 restartedWorld = 1%nat)).
Proof.
  assert (CreateClient 0 sampleDingtalkConfig ∈ effects restartedWorld) as H0.
  { vm_compute. left. }
  assert (CreateClient 1 sampleDingtalkConfig ∈ effects restartedWorld) as H1.
  { vm_compute. do 5 right. left. }
  split; [exact restartedWorld_reachable|]. split; [done|]. split; [done|].
  destruct (no_client_is_left_connected restartedWorld restartedWorld_reachable) as [Hcl _].
  split; [exact (Hcl _ _ H0) | exact (Hcl _ _ H1)].
Defined.

(** The completion promise of the first session, after the stop. *)
Lemma promise_settled_at_most_once_witness :
  reachableWorld stoppedWorld ∧
  (resolveCalls 1 stoppedWorld + rejectCalls 1 stoppedWorld ≤ 1)%nat ∧
  (resolveCalls 1 stoppedWorld = 1%nat → promises stoppedWorld !! 1%nat = Some Fulfilled).
Proof.
  split; [exact stoppedWorld_reachable|].
  destruct (promise_settled_at_most_once stoppedWorld 1%nat stoppedWorld_reachable)
    as (Hle & Hres & _).
  split; [exact Hle | exact Hres].
Defined.
